(** * Byte-level BPE tokenizer ([src/gpt/tokenizer.py])

    A shallow embedding of the [Tokenizer] class: construction, the
    pretokenizer, the merge engine ([_merge_word]), [encode], [encode_iterable]
    and [decode], together with the Python built-ins they rely on (dicts in
    insertion order, [sorted], [min], [re.split] on an alternation of escaped
    literals, and the UTF-8 codec with the [replace] error policy).

    [from_files] and [gpt2_bytes_to_unicode] only read serialized vocabularies
    and are not modelled. *)

From Stdlib Require Import List ZArith Lia Bool Arith PeanoNat Sorted.
Import ListNotations.

Set Implicit Arguments.

(** ** Python values *)

(** A [bytes] object is a sequence of integers in [0, 256); a [str] is a
    sequence of code points. *)
Definition bytes := list Z.
Definition str := list Z.

(** A merge rule, and an adjacent pair of units. *)
Definition pair := (bytes * bytes)%type.

Fixpoint list_eqb (A : Type) (eqb : A -> A -> bool) (l1 l2 : list A) : bool :=
  match l1, l2 with
  | [], [] => true
  | x :: l1', y :: l2' => eqb x y && list_eqb eqb l1' l2'
  | _, _ => false
  end.

Definition bytes_eqb : bytes -> bytes -> bool := list_eqb Z.eqb.
Definition str_eqb : str -> str -> bool := list_eqb Z.eqb.

Definition pair_eqb (p q : pair) : bool :=
  bytes_eqb (fst p) (fst q) && bytes_eqb (snd p) (snd q).

(** ** Exceptions *)

Inductive exception : Type :=
| KeyError_vocab (id : Z)               (* [self.vocab[id]] in [decode] *)
| KeyError_vocab_to_id (token : bytes)  (* [self.vocab_to_id[token]] in [_merge_word] *)
| UnicodeEncodeError (c : Z)            (* [str.encode] on a surrogate *)
| LoopBudgetExhausted.                  (* the bounded [while True] ran out of rounds *)

Inductive result (A : Type) : Type :=
| Ok (a : A)
| Raise (e : exception).

Arguments Ok {A} a.
Arguments Raise {A} e.

Definition bind (A B : Type) (r : result A) (k : A -> result B) : result B :=
  match r with
  | Ok a => k a
  | Raise e => Raise e
  end.

Notation "x <- r ;; k" := (bind r (fun x => k))
  (at level 61, r at next level, right associativity).

(** ** Python dicts

    A dict keeps its items in insertion order; assigning to a key that is
    present replaces the value in place, assigning to a new key appends. *)

Section Dict.
Variables K V : Type.
Variable keqb : K -> K -> bool.

Fixpoint dict_get (d : list (K * V)) (k : K) : option V :=
  match d with
  | [] => None
  | (k', v) :: d' => if keqb k' k then Some v else dict_get d' k
  end.

Fixpoint dict_set (d : list (K * V)) (k : K) (v : V) : list (K * V) :=
  match d with
  | [] => [(k, v)]
  | (k', v') :: d' =>
      if keqb k' k then (k', v) :: d' else (k', v') :: dict_set d' k v
  end.

(** [{key x: val x for x in items}] *)
Definition dict_comprehension (X : Type) (key : X -> K) (val : X -> V)
    (items : list X) : list (K * V) :=
  fold_left (fun d x => dict_set d (key x) (val x)) items [].

End Dict.

Definition enumerate (A : Type) (l : list A) : list (nat * A) :=
  combine (seq 0 (length l)) l.

(** ** [sorted(l, key=len, reverse=True)]

    Python's sort is stable, also with [reverse=True]: items of equal length
    keep their original relative order. *)

Fixpoint insert_by_len (x : str) (l : list str) : list str :=
  match l with
  | [] => [x]
  | y :: l' =>
      if (length y <=? length x)%nat then x :: l else y :: insert_by_len x l'
  end.

Definition sorted_len_reverse (l : list str) : list str :=
  fold_right insert_by_len [] l.

(** ** UTF-8 *)

Local Open Scope Z_scope.

Definition REPLACEMENT_CHARACTER : Z := 0xFFFD.

(** [chr(c).encode("utf-8")]; surrogates cannot be encoded. *)
Definition utf8_encode_char (c : Z) : result bytes :=
  if c <? 0 then Raise (UnicodeEncodeError c)
  else if c <? 0x80 then Ok [c]
  else if c <? 0x800 then Ok [0xC0 + c / 64; 0x80 + c mod 64]
  else if c <? 0x10000 then
    if (0xD800 <=? c) && (c <=? 0xDFFF) then Raise (UnicodeEncodeError c)
    else Ok [0xE0 + c / 4096; 0x80 + (c / 64) mod 64; 0x80 + c mod 64]
  else if c <? 0x110000 then
    Ok [0xF0 + c / 262144; 0x80 + (c / 4096) mod 64;
        0x80 + (c / 64) mod 64; 0x80 + c mod 64]
  else Raise (UnicodeEncodeError c).

(** [s.encode("utf-8")] *)
Fixpoint utf8_encode (s : str) : result bytes :=
  match s with
  | [] => Ok []
  | c :: s' =>
      b <- utf8_encode_char c ;;
      bs <- utf8_encode s' ;;
      Ok (b ++ bs)
  end.

Definition is_continuation (b : Z) : bool := (0x80 <=? b) && (b <=? 0xBF).

(** The range allowed for the second byte depends on the lead byte: it rules
    out overlong forms, surrogates and code points above U+10FFFF. *)
Definition second_byte_ok (b0 b1 : Z) : bool :=
  if b0 =? 0xE0 then (0xA0 <=? b1) && (b1 <=? 0xBF)
  else if b0 =? 0xED then (0x80 <=? b1) && (b1 <=? 0x9F)
  else if b0 =? 0xF0 then (0x90 <=? b1) && (b1 <=? 0xBF)
  else if b0 =? 0xF4 then (0x80 <=? b1) && (b1 <=? 0x8F)
  else is_continuation b1.

(** [bs.decode("utf-8", errors="replace")]: every maximal ill-formed
    subsequence becomes one U+FFFD and decoding resumes at the byte that
    broke the sequence. *)
Fixpoint utf8_decode_replace (bs : bytes) : str :=
  match bs with
  | [] => []
  | b0 :: rest =>
    if b0 <? 0x80 then b0 :: utf8_decode_replace rest
    else if b0 <? 0xC2 then REPLACEMENT_CHARACTER :: utf8_decode_replace rest
    else if b0 <? 0xE0 then
      match rest with
      | [] => [REPLACEMENT_CHARACTER]
      | b1 :: r1 =>
        if is_continuation b1
        then ((b0 - 0xC0) * 64 + (b1 - 0x80)) :: utf8_decode_replace r1
        else REPLACEMENT_CHARACTER :: utf8_decode_replace rest
      end
    else if b0 <? 0xF0 then
      match rest with
      | [] => [REPLACEMENT_CHARACTER]
      | b1 :: r1 =>
        if second_byte_ok b0 b1 then
          match r1 with
          | [] => [REPLACEMENT_CHARACTER]
          | b2 :: r2 =>
            if is_continuation b2
            then ((b0 - 0xE0) * 4096 + (b1 - 0x80) * 64 + (b2 - 0x80))
                   :: utf8_decode_replace r2
            else REPLACEMENT_CHARACTER :: utf8_decode_replace r1
          end
        else REPLACEMENT_CHARACTER :: utf8_decode_replace rest
      end
    else if b0 <? 0xF5 then
      match rest with
      | [] => [REPLACEMENT_CHARACTER]
      | b1 :: r1 =>
        if second_byte_ok b0 b1 then
          match r1 with
          | [] => [REPLACEMENT_CHARACTER]
          | b2 :: r2 =>
            if is_continuation b2 then
              match r2 with
              | [] => [REPLACEMENT_CHARACTER]
              | b3 :: r3 =>
                if is_continuation b3
                then ((b0 - 0xF0) * 262144 + (b1 - 0x80) * 4096
                      + (b2 - 0x80) * 64 + (b3 - 0x80))
                       :: utf8_decode_replace r3
                else REPLACEMENT_CHARACTER :: utf8_decode_replace r2
              end
            else REPLACEMENT_CHARACTER :: utf8_decode_replace r1
          end
        else REPLACEMENT_CHARACTER :: utf8_decode_replace rest
      end
    else REPLACEMENT_CHARACTER :: utf8_decode_replace rest
  end.

Local Close Scope Z_scope.

(** ** [re.split] on ["(" + "|".join(map(re.escape, literals)) + ")"]

    The pattern is an ordered alternation of literals inside one capturing
    group.  The engine looks for the leftmost position where an alternative
    matches and tries the alternatives in order there.  The text before the
    match and the match itself are both emitted.  An empty match splits too
    (Python 3.7 and later); after an empty match the next match may not be
    empty at the same position. *)

Fixpoint starts_with (lit s : str) : bool :=
  match lit, s with
  | [], _ => true
  | a :: lit', b :: s' => Z.eqb a b && starts_with lit' s'
  | _ :: _, [] => false
  end.

Definition first_match (literals : list str) (s : str) : option str :=
  find (fun lit => starts_with lit s) literals.

Definition nonempty (s : str) : bool :=
  match s with [] => false | _ :: _ => true end.

(** [skip] counts the characters of the current match that are still to be
    consumed; [chunk] is the text read since the last match. *)
Fixpoint re_split_go (literals : list str) (skip : nat) (chunk : str)
    (s : str) {struct s} : list str :=
  match skip with
  | S k =>
      match s with
      | [] => [chunk]
      | _ :: s' => re_split_go literals k chunk s'
      end
  | O =>
      match first_match literals s with
      | Some (l0 :: lit') =>
          match s with
          | [] => [chunk]
          | _ :: s' =>
              chunk :: (l0 :: lit') :: re_split_go literals (length lit') [] s'
          end
      | Some [] =>
          match s with
          | [] => [chunk; []; []]
          | c :: s' =>
              match first_match (filter nonempty literals) s with
              | Some lit' =>
                  chunk :: [] :: [] :: lit'
                    :: re_split_go literals (length lit' - 1) [] s'
              | None => chunk :: [] :: re_split_go literals 0 [c] s'
              end
          end
      | None =>
          match s with
          | [] => [chunk]
          | c :: s' => re_split_go literals 0 (chunk ++ [c]) s'
          end
      end
  end.

Definition re_split (literals : list str) (text : str) : list str :=
  re_split_go literals 0 [] text.

(** ** [get_pairs] *)

Fixpoint get_pairs (pretoken : list bytes) : list pair :=
  match pretoken with
  | x :: ((y :: _) as rest) => (x, y) :: get_pairs rest
  | _ => []
  end.

(** ** The [Tokenizer] object *)

Record Tokenizer : Type := mkTokenizer {
  vocab : list (Z * bytes);           (* dict[int, bytes] *)
  merges : list pair;
  special_tokens : list str;
  split_pattern : option (list str);  (* the alternatives of the pattern, in order *)
  merge_ranks : list (pair * nat);    (* dict[tuple[bytes, bytes], int] *)
  vocab_size : Z;
  vocab_to_id : list (bytes * Z)      (* dict[bytes, int] *)
}.

(** [b in set(vocab.values())] *)
Definition in_values (b : bytes) (vocab : list (Z * bytes)) : bool :=
  existsb (bytes_eqb b) (map snd vocab).

(** The loop of [__init__] that gives every special token a vocabulary
    entry: a token whose bytes are not yet a value is stored under the key
    [len(vocab)]. *)
Fixpoint add_special_tokens (vocab : list (Z * bytes))
    (special_tokens : list str) : result (list (Z * bytes)) :=
  match special_tokens with
  | [] => Ok vocab
  | special_token :: rest =>
      byte_encoded_special_token <- utf8_encode special_token ;;
      add_special_tokens
        (if in_values byte_encoded_special_token vocab then vocab
         else dict_set Z.eqb vocab (Z.of_nat (length vocab))
                byte_encoded_special_token)
        rest
  end.

(** [{merge: i for i, merge in enumerate(merges)}] *)
Definition build_merge_ranks (merges : list pair) : list (pair * nat) :=
  dict_comprehension pair_eqb (fun im => snd im) (fun im => fst im)
    (enumerate merges).

(** [{v: k for k, v in self.vocab.items()}] *)
Definition build_vocab_to_id (vocab : list (Z * bytes)) : list (bytes * Z) :=
  dict_comprehension bytes_eqb (fun kv => snd kv) (fun kv => fst kv) vocab.

Definition __init__ (vocab : list (Z * bytes)) (merges : list pair)
    (special_tokens : list str) : result Tokenizer :=
  match special_tokens with
  | _ :: _ =>
      vocab' <- add_special_tokens vocab special_tokens ;;
      Ok {| vocab := vocab';
            merges := merges;
            special_tokens := special_tokens;
            split_pattern := Some (sorted_len_reverse special_tokens);
            merge_ranks := build_merge_ranks merges;
            vocab_size := Z.of_nat (length vocab');
            vocab_to_id := build_vocab_to_id vocab' |}
  | [] =>
      Ok {| vocab := vocab;
            merges := merges;
            special_tokens := [];
            split_pattern := None;
            merge_ranks := build_merge_ranks merges;
            vocab_size := Z.of_nat (length vocab);
            vocab_to_id := build_vocab_to_id vocab |}
  end.

(** ** The merge engine: [_merge_word] *)

(** [pair in self.merge_ranks] *)
Definition in_ranks (ranks : list (pair * nat)) (p : pair) : bool :=
  match dict_get pair_eqb ranks p with Some _ => true | None => false end.

(** [self.merge_ranks[pair]], used as the key of [min] on pairs that are in
    the table. *)
Definition rank_key (ranks : list (pair * nat)) (p : pair) : nat :=
  match dict_get pair_eqb ranks p with Some r => r | None => O end.

Definition merge_candidates (ranks : list (pair * nat))
    (tokens : list bytes) : list pair :=
  filter (in_ranks ranks) (get_pairs tokens).

(** [min(x :: l, key=key)]: the first item whose key is least. *)
Fixpoint min_by_key (A : Type) (key : A -> nat) (best : A) (l : list A) : A :=
  match l with
  | [] => best
  | x :: l' => min_by_key key (if (key x <? key best)%nat then x else best) l'
  end.

(** The inner [while index < len(tokens)] loop.  [fuel] bounds the number
    of iterations; [None] means the bound was reached with the loop
    condition still true. *)
Fixpoint scan (fuel : nat) (tokens : list bytes) (best_pair : pair)
    (new_token : bytes) (index : nat) (new_tokens : list bytes)
    : option (list bytes) :=
  if (index <? length tokens)%nat then
    match fuel with
    | O => None
    | S fuel' =>
        if (index + 1 <? length tokens)%nat
           && pair_eqb (nth index tokens [], nth (index + 1) tokens []) best_pair
        then scan fuel' tokens best_pair new_token (index + 2)
               (new_tokens ++ [new_token])
        else scan fuel' tokens best_pair new_token (index + 1)
               (new_tokens ++ [nth index tokens []])
    end
  else Some new_tokens.

(** One iteration of the outer [while True]: [None] when the loop breaks,
    otherwise the winning pair. *)
Definition best_pair_of (ranks : list (pair * nat)) (tokens : list bytes)
    : option pair :=
  match merge_candidates ranks tokens with
  | [] => None
  | c :: cs => Some (min_by_key (rank_key ranks) c cs)
  end.

Definition merge_with (best_pair : pair) (tokens : list bytes)
    : option (list bytes) :=
  scan (length tokens) tokens best_pair (fst best_pair ++ snd best_pair) 0 [].

(** The outer loop, bounded by [fuel] rounds. *)
Fixpoint merge_loop (ranks : list (pair * nat)) (fuel : nat)
    (tokens : list bytes) : option (list bytes) :=
  match fuel with
  | O => None
  | S fuel' =>
      match best_pair_of ranks tokens with
      | None => Some tokens
      | Some best_pair =>
          match merge_with best_pair tokens with
          | Some new_tokens => merge_loop ranks fuel' new_tokens
          | None => None
          end
      end
  end.

(** [[self.vocab_to_id[token] for token in tokens]] *)
Fixpoint lookup_ids (vocab_to_id : list (bytes * Z)) (tokens : list bytes)
    : result (list Z) :=
  match tokens with
  | [] => Ok []
  | token :: rest =>
      match dict_get bytes_eqb vocab_to_id token with
      | None => Raise (KeyError_vocab_to_id token)
      | Some id => ids <- lookup_ids vocab_to_id rest ;; Ok (id :: ids)
      end
  end.

(** The units the merge loop ends with. *)
Definition final_units (tk : Tokenizer) (word : list bytes)
    : option (list bytes) :=
  merge_loop (merge_ranks tk) (S (length word)) word.

Definition _merge_word (tk : Tokenizer) (word : list bytes) : result (list Z) :=
  match final_units tk word with
  | None => Raise LoopBudgetExhausted
  | Some tokens => lookup_ids (vocab_to_id tk) tokens
  end.

(** ** [pretokenize], [encode], [encode_iterable], [decode] *)

Section Facade.

(** Modelled from the spec: [PRETOKENIZE_REGEX] is imported from the module
    [bpe], which is not part of the sources at hand.  The spec describes it
    as a function that splits a string into pretoken substrings; the
    variable below stands for
    [[m.group(0) for m in re.finditer(PRETOKENIZE_REGEX, chunk)]]. *)
Variable PRETOKENIZE_REGEX : str -> list str.

(** [chunk in self.special_tokens] *)
Definition str_in (chunk : str) (l : list str) : bool :=
  existsb (str_eqb chunk) l.

(** What one chunk yields.  An item is [Raise] when producing it raises. *)
Definition pretokenize_chunk (tk : Tokenizer) (chunk : str)
    : list (result (list bytes)) :=
  if str_in chunk (special_tokens tk)
  then [b <- utf8_encode chunk ;; Ok [b]]
  else map (fun word => bs <- utf8_encode word ;; Ok (map (fun b => [b]) bs))
         (PRETOKENIZE_REGEX chunk).

Definition text_chunks (tk : Tokenizer) (text : str) : list str :=
  match split_pattern tk with
  | Some literals => re_split literals text
  | None => [text]
  end.

(** The items the generator yields, in order. *)
Definition pretokenize (tk : Tokenizer) (text : str)
    : list (result (list bytes)) :=
  flat_map (pretokenize_chunk tk) (text_chunks tk text).

(** [sum((self._merge_word(word) for word in word_iter), start)] *)
Fixpoint sum_merge_word (tk : Tokenizer) (start : list Z)
    (word_iter : list (result (list bytes))) : result (list Z) :=
  match word_iter with
  | [] => Ok start
  | item :: rest =>
      word <- item ;;
      ids <- _merge_word tk word ;;
      sum_merge_word tk (start ++ ids) rest
  end.

Definition encode (tk : Tokenizer) (text : str) : result (list Z) :=
  sum_merge_word tk [] (pretokenize tk text).

(** The ids that the pretokens of one chunk contribute. *)
Definition chunk_ids (tk : Tokenizer) (chunk : str) : result (list Z) :=
  sum_merge_word tk [] (pretokenize_chunk tk chunk).

(** [sum((self.encode(text) for text in iterable), start)] *)
Fixpoint sum_encode (tk : Tokenizer) (start : list Z) (iterable : list str)
    : result (list Z) :=
  match iterable with
  | [] => Ok start
  | text :: rest =>
      ids <- encode tk text ;;
      sum_encode tk (start ++ ids) rest
  end.

Definition encode_iterable (tk : Tokenizer) (iterable : list str)
    : result (list Z) :=
  sum_encode tk [] iterable.

End Facade.

(** The join of [self.vocab[id] for id in ids] into one [bytes] object. *)
Fixpoint join_vocab (vocab : list (Z * bytes)) (ids : list Z) : result bytes :=
  match ids with
  | [] => Ok []
  | id :: rest =>
      match dict_get Z.eqb vocab id with
      | None => Raise (KeyError_vocab id)
      | Some b => bs <- join_vocab vocab rest ;; Ok (b ++ bs)
      end
  end.

Definition decode (tk : Tokenizer) (ids : list Z) : result str :=
  bs <- join_vocab (vocab tk) ids ;;
  Ok (utf8_decode_replace bs).

(** ** Vocabulary and text conditions *)

(** The ids of a vocabulary are dense when its keys are a rearrangement of
    [0 .. len(vocab) - 1]. *)
Fixpoint distinct (l : list Z) : bool :=
  match l with
  | [] => true
  | k :: l' => negb (existsb (Z.eqb k) l') && distinct l'
  end.

Definition dense_ids (vocab : list (Z * bytes)) : bool :=
  distinct (map fst vocab)
  && forallb (fun k => (0 <=? k)%Z && (k <? Z.of_nat (length vocab))%Z)
       (map fst vocab).

(** Every single byte [0 .. 255] is a vocabulary entry. *)
Definition covers_all_bytes (vocab : list (Z * bytes)) : bool :=
  forallb (fun i => in_values [Z.of_nat i] vocab) (seq 0 256).

(** The result of every merge rule is a vocabulary entry. *)
Definition merges_closed (merges : list pair) (vocab : list (Z * bytes)) : bool :=
  forallb (fun rule => in_values (fst rule ++ snd rule) vocab) merges.

(** The UTF-8 bytes of every special token are a vocabulary entry. *)
Definition special_tokens_in_vocab (tk : Tokenizer) : bool :=
  forallb (fun special_token =>
             match utf8_encode special_token with
             | Ok b => in_values b (vocab tk)
             | Raise _ => false
             end) (special_tokens tk).

(** Code points that a Unicode string may hold: everything below U+110000
    except the surrogates. *)
Definition is_scalar_value (c : Z) : bool :=
  ((0 <=? c) && (c <? 0xD800) || (0xDFFF <? c) && (c <? 0x110000))%Z.

Definition is_byte (b : Z) : bool := ((0 <=? b) && (b <? 256))%Z.

(** Modelled from the spec: the pretokenization regex, which is not part of
    the sources at hand, is a function that splits a string into pretoken
    substrings: the matches, put together, give the chunk back. *)
Definition splits_text (finditer : str -> list str) : Prop :=
  forall chunk, concat (finditer chunk) = chunk.

(** Some literal occurs in [s]: it matches at some position of [s], the end
    included. *)
Fixpoint contains_literal (literals : list str) (s : str) : bool :=
  existsb (fun lit => starts_with lit s) literals
  || match s with
     | [] => false
     | _ :: s' => contains_literal literals s'
     end.

(** Some literal matches at one of the first [n] positions of [s]. *)
Fixpoint matches_within (literals : list str) (n : nat) (s : str) : bool :=
  match n, s with
  | S n', c :: s' =>
      existsb (fun lit => starts_with lit s) literals
      || matches_within literals n' s'
  | _, _ => false
  end.

(** No literal longer than [S] matches at the start of [s]. *)
Definition no_longer_match (literals : list str) (S s : str) : bool :=
  forallb (fun T => negb (starts_with T s) || (length T <=? length S)) literals.

(** The order of the alternatives of the split pattern. *)
Definition longer_first (a b : str) : Prop := length b <= length a.

(** Position of the first and of the last occurrence of a pair in the merge
    rules. *)
Fixpoint first_index (p : pair) (l : list pair) : option nat :=
  match l with
  | [] => None
  | q :: l' => if pair_eqb q p then Some 0 else option_map S (first_index p l')
  end.

Fixpoint last_index (p : pair) (l : list pair) : option nat :=
  match l with
  | [] => None
  | q :: l' =>
      match last_index p l' with
      | Some i => Some (S i)
      | None => if pair_eqb q p then Some 0 else None
      end
  end.

(** ** The merge round in the words of the specification

    Replace all non-overlapping occurrences of the winning pair with their
    concatenation, scanning left to right and consuming a matched pair before
    advancing past it. *)
Fixpoint merge_pair_greedy (winning : pair) (units : list bytes) : list bytes :=
  match units with
  | [] => []
  | x :: rest =>
      match rest with
      | [] => [x]
      | y :: rest' =>
          if pair_eqb (x, y) winning
          then (fst winning ++ snd winning) :: merge_pair_greedy winning rest'
          else x :: merge_pair_greedy winning rest
      end
  end.

(** [encode(u) ++ [id(S)] ++ encode(v)], with the exceptions raised in that
    order. *)
Definition encode_around (finditer : str -> list str) (tk : Tokenizer)
    (u S v : str) : result (list Z) :=
  ids_u <- encode finditer tk u ;;
  b <- utf8_encode S ;;
  id_S <- lookup_ids (vocab_to_id tk) [b] ;;
  ids_v <- encode finditer tk v ;;
  Ok (ids_u ++ id_S ++ ids_v).

(** ** Sample data *)

(** The vocabulary and merge rules of the merge-rank example:
    [{0: a, 1: b, 2: ab, 3: bc, 4: abc}] and [[(a, b), (b, c), (ab, c)]]. *)
Definition vocab_abc : list (Z * bytes) :=
  [(0, [97]); (1, [98]); (2, [97; 98]); (3, [98; 99]); (4, [97; 98; 99])]%Z.

Definition merges_abc : list pair :=
  [([97], [98]); ([98], [99]); ([97; 98], [99])]%Z.

(** A merge list in which [(a, b)] occurs at positions 0 and 2. *)
Definition merges_dup : list pair :=
  [([97], [98]); ([98], [99]); ([97], [98])]%Z.

(** The 256 single bytes, [{i: bytes([i]) for i in range(256)}]. *)
Definition vocab_bytes : list (Z * bytes) :=
  map (fun i => (Z.of_nat i, [Z.of_nat i])) (seq 0 256).

(** [<|endoftext|>], [<|pad|>] and [<|endoftext|><|pad|>] as code points. *)
Definition endoftext : str :=
  [60; 124; 101; 110; 100; 111; 102; 116; 101; 120; 116; 124; 62]%Z.
Definition pad : str := [60; 124; 112; 97; 100; 124; 62]%Z.
Definition endoftext_pad : str := endoftext ++ pad.

(** A pretokenization pattern that takes a non-empty chunk whole. *)
Definition finditer_whole (chunk : str) : list str :=
  match chunk with
  | [] => []
  | _ :: _ => [chunk]
  end.

(** The 256 single bytes, the merged token [ab] and its rule. *)
Definition vocab_bytes_ab : list (Z * bytes) :=
  vocab_bytes ++ [(256, [97; 98])]%Z.
Definition merges_ab : list pair := [([97], [98])]%Z.

(** The 256 single bytes and [zz] under the id 257: the id 256 is not in
    use, so that [len(vocab)] is the id of an entry. *)
Definition vocab_gap : list (Z * bytes) :=
  vocab_bytes ++ [(257, [122; 122])]%Z.

(** [<A>] and [<B>] as code points. *)
Definition special_A : str := [60; 65; 62]%Z.
Definition special_B : str := [60; 66; 62]%Z.


(** ** [gpt2_bytes_to_unicode] *)

(** [list(range(a, b))] *)
Definition range (a b : Z) : list Z :=
  map (fun i => (a + Z.of_nat i)%Z) (seq 0 (Z.to_nat (b - a))).

(** One iteration of [for b in range(2**8)]: a byte that is not yet in [bs]
    is appended, with the next character above 255. *)
Definition gpt2_bytes_to_unicode_step (state : list Z * list Z * Z) (b : Z)
    : list Z * list Z * Z :=
  let '(bs, cs, n) := state in
  if existsb (Z.eqb b) bs then (bs, cs, n)
  else (bs ++ [b], cs ++ [2 ^ 8 + n], n + 1)%Z.

(** The dict from every byte to a one-character string. *)
Definition gpt2_bytes_to_unicode : list (Z * str) :=
  let bs := (range 33 (126 + 1) ++ range 161 (172 + 1) ++ range 174 (255 + 1))%Z in
  let cs := bs in
  let '(bs, cs, n) :=
    fold_left gpt2_bytes_to_unicode_step (range 0 (2 ^ 8)) (bs, cs, 0%Z) in
  let characters := map (fun n => [n]) cs in
  dict_comprehension Z.eqb (fun bc => fst bc) (fun bc => snd bc)
    (combine bs characters).

(** The code point of the character the table gives a byte, in closed form:
    the 188 printable bytes keep their value, the other 68 are numbered
    from 256 on in increasing order. *)
Definition gpt2_char (b : Z) : Z :=
  (if b <=? 32 then 256 + b
   else if (127 <=? b) && (b <=? 160) then b + 162
   else if b =? 173 then 323
   else b)%Z.

(** ** [Tokenizer.from_files]

    Opening the two files and parsing the JSON are left to the caller: the
    function below takes the dict that [json.load] returns, in the order of
    the file, and the lines of the merges file. *)

Inductive loader_exception : Type :=
| KeyError_gpt2_byte_decoder (token : str)  (* [gpt2_byte_decoder[token]] *)
| Raised (e : exception).                   (* raised while the tokenizer is built *)

Inductive loaded (A : Type) : Type :=
| Loaded (a : A)
| LoadRaise (e : loader_exception).

Arguments Loaded {A} a.
Arguments LoadRaise {A} e.

Definition load_bind (A B : Type) (r : loaded A) (k : A -> loaded B) : loaded B :=
  match r with
  | Loaded a => k a
  | LoadRaise e => LoadRaise e
  end.

Definition lift (A : Type) (r : result A) : loaded A :=
  match r with
  | Ok a => Loaded a
  | Raise e => LoadRaise (Raised e)
  end.

(** [{v: k for k, v in gpt2_bytes_to_unicode().items()}] *)
Definition gpt2_byte_decoder : list (str * Z) :=
  dict_comprehension str_eqb (fun kv => snd kv) (fun kv => fst kv)
    gpt2_bytes_to_unicode.

(** [bytes([gpt2_byte_decoder[token] for token in item])] *)
Fixpoint gpt2_decode_token (item : str) : loaded bytes :=
  match item with
  | [] => Loaded []
  | token :: rest =>
      match dict_get str_eqb gpt2_byte_decoder [token] with
      | None => LoadRaise (KeyError_gpt2_byte_decoder [token])
      | Some b => load_bind (gpt2_decode_token rest) (fun bs => Loaded (b :: bs))
      end
  end.

(** [chr(c).isspace()] *)
Definition isspace (c : Z) : bool :=
  ((9 <=? c) && (c <=? 13) || (28 <=? c) && (c <=? 32)
   || (c =? 0x85) || (c =? 0xA0) || (c =? 0x1680)
   || (0x2000 <=? c) && (c <=? 0x200A)
   || (c =? 0x2028) || (c =? 0x2029) || (c =? 0x202F) || (c =? 0x205F)
   || (c =? 0x3000))%Z.

(** [line.rstrip()] *)
Fixpoint rstrip (line : str) : str :=
  match line with
  | [] => []
  | c :: rest =>
      match rstrip rest with
      | [] => if isspace c then [] else [c]
      | stripped => c :: stripped
      end
  end.

(** [s.split(" ")] *)
Fixpoint split_space (s : str) : list str :=
  match s with
  | [] => [[]]
  | c :: rest =>
      if (c =? 32)%Z then [] :: split_space rest
      else match split_space rest with
           | [] => [[c]]
           | word :: words => (c :: word) :: words
           end
  end.

(** What one line of the merges file adds to [gpt2_bpe_merges]. *)
Definition parse_merges_line (line : str) : option (str * str) :=
  let cleaned_line := rstrip line in
  match cleaned_line, split_space cleaned_line with
  | _ :: _, [merge_token_1; merge_token_2] => Some (merge_token_1, merge_token_2)
  | _, _ => None
  end.

(** The loop [for line in f]. *)
Definition read_merges (lines : list str) : list (str * str) :=
  flat_map (fun line => match parse_merges_line line with
                        | Some rule => [rule]
                        | None => []
                        end) lines.

(** The dict comprehension that builds [vocab] from [gpt2_vocab.items()]. *)
Fixpoint load_vocab (items : list (str * Z)) (vocab : list (Z * bytes))
    : loaded (list (Z * bytes)) :=
  match items with
  | [] => Loaded vocab
  | (gpt2_vocab_item, gpt2_vocab_index) :: rest =>
      load_bind (gpt2_decode_token gpt2_vocab_item)
        (fun b => load_vocab rest (dict_set Z.eqb vocab gpt2_vocab_index b))
  end.

(** The list comprehension that builds [merges]. *)
Fixpoint load_merges (gpt2_bpe_merges : list (str * str)) : loaded (list pair) :=
  match gpt2_bpe_merges with
  | [] => Loaded []
  | (merge_token_1, merge_token_2) :: rest =>
      load_bind (gpt2_decode_token merge_token_1) (fun left =>
      load_bind (gpt2_decode_token merge_token_2) (fun right =>
      load_bind (load_merges rest) (fun merges =>
      Loaded ((left, right) :: merges))))
  end.

(** [special_tokens] is a list or [None]; [None] and the empty list take the
    same branches, here and in [__init__]. *)
Definition from_files (gpt2_vocab : list (str * Z)) (merges_lines : list str)
    (special_tokens : option (list str)) : loaded Tokenizer :=
  let gpt2_bpe_merges := read_merges merges_lines in
  let special_tokens :=
    match special_tokens with Some l => l | None => [] end in
  load_bind (load_vocab gpt2_vocab []) (fun vocab =>
  load_bind (lift (add_special_tokens vocab special_tokens)) (fun vocab =>
  load_bind (load_merges gpt2_bpe_merges) (fun merges =>
  lift (__init__ vocab merges special_tokens)))).

(** The serialized form that [from_files] reads back: a token is written
    with the characters of [gpt2_bytes_to_unicode], the vocabulary as the
    dict from every token to its id, a merge rule as its two tokens with one
    space between them and a line feed at the end. *)
Definition gpt2_token (b : bytes) : str := map gpt2_char b.

(** [{gpt2_token(v): k for k, v in vocab.items()}]: a dict, so a token is a
    key once; of two ids with the same bytes the later one is kept. *)
Definition gpt2_vocab_of (vocab : list (Z * bytes)) : list (str * Z) :=
  dict_comprehension str_eqb (fun kb => gpt2_token (snd kb))
    (fun kb => fst kb) vocab.

Definition merges_lines_of (merges : list pair) : list str :=
  map (fun rule => gpt2_token (fst rule) ++ [32%Z] ++ gpt2_token (snd rule)
                   ++ [10%Z]) merges.

(** The byte a character of the table stands for, in closed form. *)
Definition gpt2_byte (c : Z) : option Z :=
  (if (33 <=? c) && (c <=? 126) || (161 <=? c) && (c <=? 172)
      || (174 <=? c) && (c <=? 255) then Some c
   else if (256 <=? c) && (c <=? 288) then Some (c - 256)
   else if (289 <=? c) && (c <=? 322) then Some (c - 162)
   else if c =? 323 then Some 173
   else None)%Z.

(** The checks that are run over the whole table. *)
Definition table_entry_ok (b : Z) : bool :=
  match dict_get Z.eqb gpt2_bytes_to_unicode b with
  | Some [c] => Z.eqb c (gpt2_char b)
  | _ => false
  end.

Definition table_char_ok (b : Z) : bool := negb (isspace (gpt2_char b)).

Definition decoder_entry_ok (c : Z) : bool :=
  match dict_get str_eqb gpt2_byte_decoder [c], gpt2_byte c with
  | Some x, Some y => Z.eqb x y
  | None, None => true
  | _, _ => false
  end.

Definition decoder_key_ok (k : str) : bool :=
  match k with
  | [c] => (0 <=? c)%Z && (c <? 324)%Z
  | _ => false
  end.

(** No byte sequence occurs twice. *)
Fixpoint distinct_values (l : list bytes) : bool :=
  match l with
  | [] => true
  | b :: l' => negb (existsb (bytes_eqb b) l') && distinct_values l'
  end.

(** Every entry of the vocabulary is a sequence of bytes. *)
Definition values_are_bytes (vocab : list (Z * bytes)) : bool :=
  forallb (fun kb => forallb is_byte (snd kb)) vocab.

(** Both sides of every rule are sequences of bytes and the right side is
    not empty. *)
Definition rules_are_bytes (merges : list pair) : bool :=
  forallb (fun rule => forallb is_byte (fst rule) && forallb is_byte (snd rule)
                       && nonempty (snd rule)) merges.

(** The chunks of a split take turns: a piece of the text, then a matched
    literal, then a piece of the text, and so on, with a piece of the text
    at both ends. *)
Fixpoint alternates (literals : list str) (chunks : list str) : Prop :=
  match chunks with
  | [] => False
  | [_] => True
  | _ :: separator :: rest => In separator literals /\ alternates literals rest
  end.

Unset Implicit Arguments.

(** * Properties *)

(** * Equality tests *)

Lemma list_eqb_Z_true (l1 l2 : list Z) :
  list_eqb Z.eqb l1 l2 = true <-> l1 = l2.
Proof.
  revert l2; induction l1 as [|x l1 IH]; intros [|y l2]; simpl;
    try (split; [discriminate | congruence]); try tauto.
  rewrite andb_true_iff, Z.eqb_eq, IH.
  split; [intros [-> ->]; reflexivity | intros H; inversion H; auto].
Qed.

Lemma bytes_eqb_true (a b : bytes) : bytes_eqb a b = true <-> a = b.
Proof. apply list_eqb_Z_true. Qed.

Lemma bytes_eqb_refl (a : bytes) : bytes_eqb a a = true.
Proof. apply bytes_eqb_true; reflexivity. Qed.

Lemma str_eqb_true (a b : str) : str_eqb a b = true <-> a = b.
Proof. apply list_eqb_Z_true. Qed.

Lemma pair_eqb_true (p q : pair) : pair_eqb p q = true <-> p = q.
Proof.
  destruct p as [a b], q as [c d]; unfold pair_eqb; simpl.
  rewrite andb_true_iff, !bytes_eqb_true.
  split; [intros [-> ->]; reflexivity | intros H; inversion H; auto].
Qed.

Lemma pair_eqb_refl (p : pair) : pair_eqb p p = true.
Proof. apply pair_eqb_true; reflexivity. Qed.

Lemma Z_eqb_true (a b : Z) : Z.eqb a b = true <-> a = b.
Proof. apply Z.eqb_eq. Qed.

Lemma in_values_true (b : bytes) (vocab : list (Z * bytes)) :
  in_values b vocab = true <-> In b (map snd vocab).
Proof.
  unfold in_values; rewrite existsb_exists; split.
  - intros (x & Hin & Heq); apply bytes_eqb_true in Heq; subst; exact Hin.
  - intros Hin; exists b; split; [exact Hin | apply bytes_eqb_refl].
Qed.

Lemma str_in_true (s : str) (l : list str) : str_in s l = true <-> In s l.
Proof.
  unfold str_in; rewrite existsb_exists; split.
  - intros (x & Hin & Heq); apply str_eqb_true in Heq; subst; exact Hin.
  - intros Hin; exists s; split; [exact Hin | apply str_eqb_true; reflexivity].
Qed.

(** * Dicts *)

Section DictFacts.
Variables K V : Type.
Variable keqb : K -> K -> bool.
Hypothesis keqb_eq : forall a b, keqb a b = true <-> a = b.

Lemma keqb_refl (k : K) : keqb k k = true.
Proof. apply keqb_eq; reflexivity. Qed.

Lemma keqb_neq (a b : K) : a <> b -> keqb a b = false.
Proof.
  intros Hne; destruct (keqb a b) eqn:E; [|reflexivity].
  apply keqb_eq in E; contradiction.
Qed.

Lemma dict_get_set_same (d : list (K * V)) k v :
  dict_get keqb (dict_set keqb d k v) k = Some v.
Proof.
  induction d as [|[k' v'] d IH]; simpl.
  - rewrite keqb_refl; reflexivity.
  - destruct (keqb k' k) eqn:E; simpl; rewrite E; auto.
Qed.

Lemma dict_get_set_other (d : list (K * V)) k v k' :
  k <> k' -> dict_get keqb (dict_set keqb d k v) k' = dict_get keqb d k'.
Proof.
  intros Hne; induction d as [|[k0 v0] d IH]; simpl.
  - rewrite keqb_neq by exact Hne; reflexivity.
  - destruct (keqb k0 k) eqn:E; simpl.
    + apply keqb_eq in E; subst k0.
      rewrite keqb_neq by exact Hne; reflexivity.
    + destruct (keqb k0 k'); auto.
Qed.

Lemma dict_get_In (d : list (K * V)) k v :
  dict_get keqb d k = Some v -> In (k, v) d.
Proof.
  induction d as [|[k0 v0] d IH]; simpl; [discriminate|].
  destruct (keqb k0 k) eqn:E.
  - apply keqb_eq in E; subst; intros H; inversion H; auto.
  - auto.
Qed.

Lemma dict_get_None (d : list (K * V)) k :
  dict_get keqb d k = None <-> ~ In k (map fst d).
Proof.
  induction d as [|[k0 v0] d IH]; simpl; [tauto|].
  destruct (keqb k0 k) eqn:E.
  - apply keqb_eq in E; subst; split; [discriminate | intros H; exfalso; auto].
  - rewrite IH; split; [|tauto].
    intros Hn [Heq|Hin]; [|auto].
    subst; rewrite keqb_refl in E; discriminate.
Qed.

Lemma dict_get_unique (d : list (K * V)) k v :
  NoDup (map fst d) -> In (k, v) d -> dict_get keqb d k = Some v.
Proof.
  induction d as [|[k0 v0] d IH]; simpl; [tauto|].
  intros Hnd [Heq|Hin]; inversion Hnd as [|? ? Hnotin Hnd']; subst.
  - inversion Heq; subst; rewrite keqb_refl; reflexivity.
  - destruct (keqb k0 k) eqn:E; [|auto].
    apply keqb_eq in E; subst k0.
    exfalso; apply Hnotin; apply (in_map fst) in Hin; exact Hin.
Qed.

Lemma dict_comprehension_snoc (X : Type) (key : X -> K) (val : X -> V)
    (items : list X) (x : X) :
  dict_comprehension keqb key val (items ++ [x]) =
  dict_set keqb (dict_comprehension keqb key val items) (key x) (val x).
Proof. unfold dict_comprehension; rewrite fold_left_app; reflexivity. Qed.

Lemma dict_comprehension_get (X : Type) (key : X -> K) (val : X -> V)
    (items : list X) k v :
  dict_get keqb (dict_comprehension keqb key val items) k = Some v ->
  exists x, In x items /\ key x = k /\ val x = v.
Proof.
  induction items as [|x items IH] using rev_ind; [discriminate|].
  rewrite dict_comprehension_snoc.
  destruct (keqb (key x) k) eqn:E.
  - apply keqb_eq in E; subst k; rewrite dict_get_set_same.
    intros H; inversion H; subst.
    exists x; rewrite in_app_iff; simpl; auto.
  - rewrite dict_get_set_other.
    + intros H; destruct (IH H) as (y & Hin & Hk & Hv).
      exists y; rewrite in_app_iff; auto.
    + intros Heq; subst; rewrite keqb_refl in E; discriminate.
Qed.

Lemma dict_comprehension_mem (X : Type) (key : X -> K) (val : X -> V)
    (items : list X) x :
  In x items ->
  exists v, dict_get keqb (dict_comprehension keqb key val items) (key x) = Some v.
Proof.
  induction items as [|y items IH] using rev_ind; [intros []|].
  rewrite dict_comprehension_snoc, in_app_iff.
  destruct (keqb (key y) (key x)) eqn:E.
  - apply keqb_eq in E; rewrite E, dict_get_set_same; eauto.
  - intros [Hin|[Heq|[]]].
    + rewrite dict_get_set_other; [auto|].
      intros Heq; rewrite Heq, keqb_refl in E; discriminate.
    + subst; rewrite keqb_refl in E; discriminate.
Qed.

End DictFacts.

(** * The merge engine *)

(** Induction on lists two items at a time, as the scan advances. *)
Lemma list_pair_ind (A : Type) (P : list A -> Prop) :
  P [] ->
  (forall x, P [x]) ->
  (forall x y l, P l -> P (y :: l) -> P (x :: y :: l)) ->
  forall l, P l.
Proof.
  intros Hnil Hone Hstep l.
  assert (H : P l /\ forall a, P (a :: l)).
  { induction l as [|b l [IH1 IH2]]; split; auto. }
  exact (proj1 H).
Qed.

Lemma skipn_nth_cons (l : list bytes) (i : nat) :
  i < length l -> skipn i l = nth i l [] :: skipn (S i) l.
Proof.
  revert i; induction l as [|x l IH]; intros i Hi; simpl in Hi; [lia|].
  destruct i as [|i]; [reflexivity|].
  cbn [skipn nth]; apply IH; lia.
Qed.

Lemma scan_greedy (fuel : nat) (tokens : list bytes) (bp : pair) :
  forall index acc,
    length tokens <= fuel + index ->
    scan fuel tokens bp (fst bp ++ snd bp) index acc =
    Some (acc ++ merge_pair_greedy bp (skipn index tokens)).
Proof.
  induction fuel as [|fuel IH]; intros index acc Hlen.
  - unfold scan.
    destruct (Nat.ltb_spec index (length tokens)) as [Hlt|Hge]; [lia|].
    rewrite skipn_all2 by lia; simpl; rewrite app_nil_r; reflexivity.
  - cbn [scan].
    destruct (Nat.ltb_spec index (length tokens)) as [Hlt|Hge].
    2:{ rewrite skipn_all2 by lia; simpl; rewrite app_nil_r; reflexivity. }
    rewrite (skipn_nth_cons tokens index Hlt).
    destruct (Nat.ltb_spec (index + 1) (length tokens)) as [Hlt1|Hge1].
    + rewrite (skipn_nth_cons tokens (S index)) by lia.
      replace (nth (S index) tokens []) with (nth (index + 1) tokens [])
        by (f_equal; lia).
      cbn [andb merge_pair_greedy].
      destruct (pair_eqb (nth index tokens [], nth (index + 1) tokens []) bp).
      * rewrite IH by lia.
        replace (index + 2) with (S (S index)) by lia.
        rewrite <- app_assoc; reflexivity.
      * rewrite IH by lia.
        replace (index + 1) with (S index) by lia.
        rewrite (skipn_nth_cons tokens (S index)) by lia.
        replace (nth (S index) tokens []) with (nth (index + 1) tokens [])
          by (f_equal; lia).
        rewrite <- app_assoc; reflexivity.
    + cbn [andb].
      rewrite IH by lia.
      replace (index + 1) with (S index) by lia.
      rewrite skipn_all2 by lia.
      rewrite <- app_assoc; reflexivity.
Qed.

Lemma merge_with_greedy (bp : pair) (tokens : list bytes) :
  merge_with bp tokens = Some (merge_pair_greedy bp tokens).
Proof.
  unfold merge_with; rewrite scan_greedy by lia; reflexivity.
Qed.

Lemma greedy_cons2 (bp : pair) (x y : bytes) (l : list bytes) :
  merge_pair_greedy bp (x :: y :: l) =
  if pair_eqb (x, y) bp
  then (fst bp ++ snd bp) :: merge_pair_greedy bp l
  else x :: merge_pair_greedy bp (y :: l).
Proof. reflexivity. Qed.

Lemma greedy_length_le (bp : pair) (l : list bytes) :
  length (merge_pair_greedy bp l) <= length l.
Proof.
  induction l as [| x | x y l IH1 IH2] using list_pair_ind;
    try (simpl; lia).
  rewrite greedy_cons2.
  destruct (pair_eqb (x, y) bp); cbn [length] in *; lia.
Qed.

Lemma greedy_length_lt (bp : pair) (l : list bytes) :
  In bp (get_pairs l) -> length (merge_pair_greedy bp l) < length l.
Proof.
  induction l as [| x | x y l IH1 IH2] using list_pair_ind;
    [intros [] | intros [] |].
  rewrite greedy_cons2.
  change (get_pairs (x :: y :: l)) with ((x, y) :: get_pairs (y :: l)).
  destruct (pair_eqb (x, y) bp) eqn:E; intros Hin.
  - pose proof (greedy_length_le bp l); simpl; lia.
  - destruct Hin as [Heq|Hin].
    + rewrite Heq, pair_eqb_refl in E; discriminate.
    + specialize (IH2 Hin); cbn [length] in *; lia.
Qed.

Lemma greedy_concat (bp : pair) (l : list bytes) :
  concat (merge_pair_greedy bp l) = concat l.
Proof.
  induction l as [| x | x y l IH1 IH2] using list_pair_ind; try reflexivity.
  rewrite greedy_cons2.
  destruct (pair_eqb (x, y) bp) eqn:E.
  - apply pair_eqb_true in E; subst bp; cbn [concat fst snd].
    rewrite IH1, app_assoc; reflexivity.
  - transitivity (x ++ concat (merge_pair_greedy bp (y :: l)));
      [reflexivity|].
    rewrite IH2; reflexivity.
Qed.

Lemma greedy_units (bp : pair) (l : list bytes) (u : bytes) :
  In u (merge_pair_greedy bp l) -> u = fst bp ++ snd bp \/ In u l.
Proof.
  induction l as [| x | x y l IH1 IH2] using list_pair_ind;
    try (simpl; tauto).
  rewrite greedy_cons2.
  destruct (pair_eqb (x, y) bp).
  - intros [Heq|Hin]; [auto|].
    destruct (IH1 Hin); [auto | right; simpl; auto].
  - intros [Heq|Hin]; [right; simpl; auto|].
    destruct (IH2 Hin); [auto | right; simpl; auto].
Qed.

(** ** The winning pair *)

Lemma min_by_key_in (A : Type) (key : A -> nat) (l : list A) :
  forall best, In (min_by_key key best l) (best :: l).
Proof.
  induction l as [|x l IH]; intros best; simpl; [auto|].
  specialize (IH (if key x <? key best then x else best)).
  destruct (key x <? key best); simpl in IH; tauto.
Qed.

Lemma min_by_key_least (A : Type) (key : A -> nat) (l : list A) :
  forall best x, In x (best :: l) -> key (min_by_key key best l) <= key x.
Proof.
  induction l as [|y l IH]; intros best x Hin.
  - destruct Hin as [->|[]]; simpl; lia.
  - cbn [min_by_key].
    assert (Hbest : key (min_by_key key (if key y <? key best then y else best) l)
                    <= key (if key y <? key best then y else best))
      by (apply IH; simpl; auto).
    destruct Hin as [->|[->|Hin]].
    + destruct (Nat.ltb_spec (key y) (key x)); lia.
    + destruct (Nat.ltb_spec (key x) (key best)); lia.
    + apply IH; simpl; auto.
Qed.

Lemma in_ranks_true (ranks : list (pair * nat)) (p : pair) :
  in_ranks ranks p = true <-> exists r, dict_get pair_eqb ranks p = Some r.
Proof.
  unfold in_ranks; destruct (dict_get pair_eqb ranks p).
  - split; eauto.
  - split; [discriminate | intros [r Hr]; discriminate].
Qed.

Lemma merge_candidates_in (ranks : list (pair * nat)) (tokens : list bytes) p :
  In p (merge_candidates ranks tokens) <->
  In p (get_pairs tokens) /\ exists r, dict_get pair_eqb ranks p = Some r.
Proof.
  unfold merge_candidates; rewrite filter_In, in_ranks_true; reflexivity.
Qed.

Lemma best_pair_of_none (ranks : list (pair * nat)) (tokens : list bytes) :
  best_pair_of ranks tokens = None <->
  forall p, In p (get_pairs tokens) -> dict_get pair_eqb ranks p = None.
Proof.
  unfold best_pair_of; split.
  - destruct (merge_candidates ranks tokens) as [|c cs] eqn:E; [|discriminate].
    intros _ p Hin.
    destruct (dict_get pair_eqb ranks p) as [r|] eqn:Hr; [|reflexivity].
    assert (Hc : In p (merge_candidates ranks tokens))
      by (apply merge_candidates_in; eauto).
    rewrite E in Hc; destruct Hc.
  - intros Hnone.
    destruct (merge_candidates ranks tokens) as [|c cs] eqn:E; [reflexivity|].
    assert (Hc : In c (merge_candidates ranks tokens)) by (rewrite E; simpl; auto).
    apply merge_candidates_in in Hc; destruct Hc as [Hin [r Hr]].
    rewrite (Hnone c Hin) in Hr; discriminate.
Qed.

Lemma best_pair_of_some (ranks : list (pair * nat)) (tokens : list bytes) bp :
  best_pair_of ranks tokens = Some bp ->
  In bp (get_pairs tokens) /\
  exists r, dict_get pair_eqb ranks bp = Some r /\
    forall q r', In q (get_pairs tokens) ->
                 dict_get pair_eqb ranks q = Some r' -> r <= r'.
Proof.
  unfold best_pair_of.
  destruct (merge_candidates ranks tokens) as [|c cs] eqn:E; [discriminate|].
  intros H; injection H as Hbp.
  assert (Hmem : In bp (merge_candidates ranks tokens)).
  { rewrite E, <- Hbp; apply min_by_key_in. }
  apply merge_candidates_in in Hmem; destruct Hmem as [Hin [r Hr]].
  split; [exact Hin|].
  exists r; split; [exact Hr|].
  intros q r' Hq Hr'.
  assert (Hqc : In q (c :: cs)).
  { rewrite <- E; apply merge_candidates_in; eauto. }
  pose proof (min_by_key_least _ (rank_key ranks) cs c q Hqc) as Hle.
  rewrite Hbp in Hle; unfold rank_key in Hle.
  rewrite Hr, Hr' in Hle; exact Hle.
Qed.

(** ** The outer loop *)

Lemma merge_loop_unfold (ranks : list (pair * nat)) (fuel : nat) tokens :
  merge_loop ranks (S fuel) tokens =
  match best_pair_of ranks tokens with
  | None => Some tokens
  | Some bp => merge_loop ranks fuel (merge_pair_greedy bp tokens)
  end.
Proof.
  cbn [merge_loop].
  destruct (best_pair_of ranks tokens) as [bp|]; [|reflexivity].
  rewrite merge_with_greedy; reflexivity.
Qed.

Lemma merge_loop_total (ranks : list (pair * nat)) (fuel : nat) :
  forall tokens,
    length tokens < fuel ->
    exists units,
      merge_loop ranks fuel tokens = Some units /\
      best_pair_of ranks units = None /\
      length units <= length tokens /\
      concat units = concat tokens.
Proof.
  induction fuel as [|fuel IH]; intros tokens Hlen; [lia|].
  rewrite merge_loop_unfold.
  destruct (best_pair_of ranks tokens) as [bp|] eqn:E.
  - apply best_pair_of_some in E; destruct E as [Hin _].
    pose proof (greedy_length_lt bp tokens Hin) as Hlt.
    destruct (IH (merge_pair_greedy bp tokens)) as (units & H1 & H2 & H3 & H4);
      [lia|].
    exists units; repeat split; auto; [lia|].
    rewrite H4; apply greedy_concat.
  - exists tokens; auto.
Qed.

Lemma merge_loop_more_fuel (ranks : list (pair * nat)) (fuel : nat) :
  forall tokens units fuel',
    merge_loop ranks fuel tokens = Some units ->
    fuel <= fuel' ->
    merge_loop ranks fuel' tokens = Some units.
Proof.
  induction fuel as [|fuel IH]; intros tokens units fuel' H Hle;
    [discriminate|].
  destruct fuel' as [|fuel']; [lia|].
  rewrite merge_loop_unfold in *.
  destruct (best_pair_of ranks tokens); [|exact H].
  apply IH with (fuel' := fuel') in H; [exact H | lia].
Qed.

Lemma final_units_total (tk : Tokenizer) (word : list bytes) :
  exists units,
    final_units tk word = Some units /\
    best_pair_of (merge_ranks tk) units = None /\
    length units <= length word /\
    concat units = concat word.
Proof. unfold final_units; apply merge_loop_total; lia. Qed.

(** * The rank table *)

Lemma enumerate_from_snoc (A : Type) (l : list A) (x : A) :
  forall s,
    combine (seq s (length (l ++ [x]))) (l ++ [x]) =
    combine (seq s (length l)) l ++ [(s + length l, x)].
Proof.
  induction l as [|y l IH]; intros s; simpl.
  - rewrite Nat.add_0_r; reflexivity.
  - rewrite IH, Nat.add_succ_r; reflexivity.
Qed.

Lemma enumerate_snoc (A : Type) (l : list A) (x : A) :
  enumerate (l ++ [x]) = enumerate l ++ [(length l, x)].
Proof. unfold enumerate; rewrite enumerate_from_snoc; reflexivity. Qed.

Lemma build_merge_ranks_snoc (merges : list pair) (m : pair) :
  build_merge_ranks (merges ++ [m]) =
  dict_set pair_eqb (build_merge_ranks merges) m (length merges).
Proof.
  unfold build_merge_ranks.
  rewrite enumerate_snoc, dict_comprehension_snoc; reflexivity.
Qed.

Lemma last_index_snoc (p m : pair) (l : list pair) :
  last_index p (l ++ [m]) =
  if pair_eqb m p then Some (length l) else last_index p l.
Proof.
  induction l as [|q l IH]; simpl.
  - destruct (pair_eqb m p); reflexivity.
  - rewrite IH; destruct (pair_eqb m p); reflexivity.
Qed.

Lemma merge_ranks_last_index (merges : list pair) (p : pair) :
  dict_get pair_eqb (build_merge_ranks merges) p = last_index p merges.
Proof.
  induction merges as [|m merges IH] using rev_ind; [reflexivity|].
  rewrite build_merge_ranks_snoc, last_index_snoc.
  destruct (pair_eqb m p) eqn:E.
  - apply pair_eqb_true in E; subst.
    apply dict_get_set_same, pair_eqb_true.
  - rewrite dict_get_set_other; [exact IH | exact pair_eqb_true |].
    intros Heq; subst; rewrite pair_eqb_refl in E; discriminate.
Qed.

Lemma last_index_exists (p : pair) (l : list pair) (j : nat) :
  nth_error l j = Some p -> exists i, last_index p l = Some i.
Proof.
  revert j; induction l as [|q l IH]; intros j Hj.
  - destruct j; discriminate.
  - simpl; destruct (last_index p l) as [i0|] eqn:E0; [eauto|].
    destruct j as [|j]; simpl in Hj.
    + injection Hj as ->; rewrite pair_eqb_refl; eauto.
    + destruct (IH j Hj); discriminate.
Qed.

Lemma last_index_spec (p : pair) (l : list pair) (i : nat) :
  last_index p l = Some i <->
  nth_error l i = Some p /\ forall j, i < j -> nth_error l j <> Some p.
Proof.
  revert i; induction l as [|q l IH]; intros i.
  - simpl; split; [discriminate|].
    intros [H _]; destruct i; discriminate.
  - cbn [last_index].
    destruct (last_index p l) as [k|] eqn:Hk.
    + destruct (proj1 (IH k) eq_refl) as [Hk1 Hk2].
      split.
      * intros H; injection H as <-.
        split; [exact Hk1|].
        intros [|j] Hj; [lia|].
        simpl; apply Hk2; lia.
      * intros [Hn Hlast].
        destruct i as [|i].
        -- exfalso; apply (Hlast (S k)); [lia | exact Hk1].
        -- assert (Hi : Some k = Some i).
           { apply IH; split; [exact Hn|].
             intros j Hj; apply (Hlast (S j)); lia. }
           congruence.
    + assert (Hnone : forall j, nth_error l j <> Some p).
      { intros j Hj; destruct (@last_index_exists _ _ _ Hj); congruence. }
      destruct (pair_eqb q p) eqn:E.
      * apply pair_eqb_true in E; subst q; split.
        -- intros H; injection H as <-; split; [reflexivity|].
           intros [|j] Hj; [lia | simpl; apply Hnone].
        -- intros [Hn _]; destruct i as [|i]; [reflexivity|].
           simpl in Hn; exfalso; exact (Hnone i Hn).
      * split; [discriminate|].
        intros [Hn _]; destruct i as [|i].
        -- simpl in Hn; injection Hn as ->.
           rewrite pair_eqb_refl in E; discriminate.
        -- simpl in Hn; exfalso; exact (Hnone i Hn).
Qed.

Lemma init_merge_ranks vocab0 merges0 specials tk :
  __init__ vocab0 merges0 specials = Ok tk ->
  merge_ranks tk = build_merge_ranks merges0 /\ merges tk = merges0.
Proof.
  unfold __init__; destruct specials as [|s specials].
  - intros H; injection H as <-; auto.
  - destruct (add_special_tokens vocab0 (s :: specials)); simpl; [|discriminate].
    intros H; injection H as <-; auto.
Qed.

Lemma merge_ranks_in_merges (merges : list pair) (p : pair) (r : nat) :
  dict_get pair_eqb (build_merge_ranks merges) p = Some r -> In p merges.
Proof.
  rewrite merge_ranks_last_index, last_index_spec.
  intros [Hn _]; eapply nth_error_In; eassumption.
Qed.

Lemma merges_in_merge_ranks (merges : list pair) (p : pair) :
  In p merges -> in_ranks (build_merge_ranks merges) p = true.
Proof.
  intros Hin; apply in_ranks_true.
  destruct (In_nth_error _ _ Hin) as [i Hi].
  destruct (@last_index_exists _ _ _ Hi) as [k Hk].
  exists k; rewrite merge_ranks_last_index; exact Hk.
Qed.

Lemma merge_ranks_injective (merges : list pair) (p q : pair) (r : nat) :
  dict_get pair_eqb (build_merge_ranks merges) p = Some r ->
  dict_get pair_eqb (build_merge_ranks merges) q = Some r ->
  p = q.
Proof.
  rewrite !merge_ranks_last_index, !last_index_spec.
  intros [Hp _] [Hq _]; congruence.
Qed.

(** * Merge-rank priority *)

(** C2. In every iteration of the merge loop the winning pair is an adjacent
    pair of the current units that is in the rank table and whose rank is
    strictly lower than the rank of every other adjacent pair in the table;
    that pair is the one merged, and the loop stops exactly when no adjacent
    pair has a rank.  With the vocabulary [{0: a, 1: b, 2: ab, 3: bc, 4: abc}]
    and the rules [[(a, b), (b, c), (ab, c)]], the units [[a, b, c]] give the
    ids [[4]]. *)
Theorem lowest_rank_pair_is_merged :
  (forall vocab0 merges0 specials tk tokens,
     __init__ vocab0 merges0 specials = Ok tk ->
     match best_pair_of (merge_ranks tk) tokens with
     | None =>
         (forall p, In p (get_pairs tokens) ->
                    dict_get pair_eqb (merge_ranks tk) p = None) /\
         (forall fuel,
            merge_loop (merge_ranks tk) (S fuel) tokens = Some tokens)
     | Some best_pair =>
         In best_pair (get_pairs tokens) /\
         (exists r,
            dict_get pair_eqb (merge_ranks tk) best_pair = Some r /\
            forall q r',
              In q (get_pairs tokens) ->
              dict_get pair_eqb (merge_ranks tk) q = Some r' ->
              q = best_pair \/ r < r') /\
         (forall fuel,
            merge_loop (merge_ranks tk) (S fuel) tokens =
            merge_loop (merge_ranks tk) fuel
              (merge_pair_greedy best_pair tokens))
     end) /\
  (tk <- __init__ vocab_abc merges_abc [] ;;
   _merge_word tk [[97]; [98]; [99]]%Z) = Ok [4%Z].
Proof.
  split; [|reflexivity].
  intros vocab0 merges0 specials tk tokens Hinit.
  destruct (init_merge_ranks _ _ _ _ Hinit) as [Hranks _].
  destruct (best_pair_of (merge_ranks tk) tokens) as [bp|] eqn:E.
  - destruct (best_pair_of_some _ _ _ E) as [Hin (r & Hr & Hleast)].
    split; [exact Hin|]; split.
    + exists r; split; [exact Hr|].
      intros q r' Hq Hr'.
      pose proof (Hleast q r' Hq Hr') as Hle.
      destruct (Nat.eq_dec r r') as [Heq|Hne]; [left | right; lia].
      subst r'; rewrite Hranks in Hr, Hr'.
      exact (merge_ranks_injective _ _ _ _ Hr' Hr).
    + intros fuel; rewrite merge_loop_unfold, E; reflexivity.
  - split.
    + apply best_pair_of_none; exact E.
    + intros fuel; rewrite merge_loop_unfold, E; reflexivity.
Qed.

Lemma lowest_rank_pair_is_merged_witness :
  exists tk,
    __init__ vocab_abc merges_abc [] = Ok tk /\
    match best_pair_of (merge_ranks tk) [[97]; [98]; [99]]%Z with
    | None => False
    | Some best_pair => In best_pair (get_pairs [[97]; [98]; [99]]%Z)
    end.
Proof.
  eexists; split; [reflexivity|].
  pose proof (proj1 lowest_rank_pair_is_merged vocab_abc merges_abc []
                _ [[97]; [98]; [99]]%Z eq_refl) as H.
  destruct (best_pair_of _ _); [exact (proj1 H) | discriminate (proj2 H 0)].
Defined.

(** * The greedy scan *)

(** C3. One merge round replaces the occurrences of the winning pair by their
    concatenation in a single left-to-right scan that consumes a matched pair
    before advancing; for every rule [(a, a)] the units [[a, a, a]] become
    [[aa, a]] in that round, not [[a, aa]]. *)
Theorem merge_round_scans_left_to_right :
  (forall best_pair tokens,
     merge_with best_pair tokens =
     Some (merge_pair_greedy best_pair tokens)) /\
  (forall vocab0 merges0 specials tk a,
     __init__ vocab0 merges0 specials = Ok tk ->
     In (a, a) merges0 ->
     best_pair_of (merge_ranks tk) [a; a; a] = Some (a, a) /\
     merge_with (a, a) [a; a; a] = Some [a ++ a; a] /\
     (forall fuel,
        merge_loop (merge_ranks tk) (S fuel) [a; a; a] =
        merge_loop (merge_ranks tk) fuel [a ++ a; a]) /\
     (a <> [] -> merge_with (a, a) [a; a; a] <> Some [a; a ++ a])).
Proof.
  split; [exact merge_with_greedy|].
  intros vocab0 merges0 specials tk a Hinit Hrule.
  destruct (init_merge_ranks _ _ _ _ Hinit) as [Hranks _].
  assert (Hin : in_ranks (merge_ranks tk) (a, a) = true).
  { rewrite Hranks; apply merges_in_merge_ranks; exact Hrule. }
  assert (Hbest : best_pair_of (merge_ranks tk) [a; a; a] = Some (a, a)).
  { unfold best_pair_of, merge_candidates; simpl; rewrite Hin; simpl.
    destruct (_ <? _); reflexivity. }
  assert (Hscan : merge_pair_greedy (a, a) [a; a; a] = [a ++ a; a]).
  { simpl; rewrite (pair_eqb_refl (a, a)); reflexivity. }
  repeat split.
  - exact Hbest.
  - rewrite merge_with_greedy, Hscan; reflexivity.
  - intros fuel; rewrite merge_loop_unfold, Hbest, Hscan; reflexivity.
  - intros Hne; rewrite merge_with_greedy, Hscan.
    intros H; injection H as H1 H2.
    apply (f_equal (@length Z)) in H2; rewrite length_app in H2.
    destruct a; [contradiction | simpl in H2; lia].
Qed.

Lemma merge_round_scans_left_to_right_witness :
  exists tk,
    __init__ vocab_bytes [([97], [97])]%Z [] = Ok tk /\
    merge_with ([97], [97])%Z [[97]; [97]; [97]]%Z = Some [[97; 97]; [97]]%Z.
Proof.
  eexists; split; [reflexivity|].
  apply (proj2 merge_round_scans_left_to_right vocab_bytes [([97], [97])]%Z []
           _ [97%Z] eq_refl).
  simpl; auto.
Defined.

(** * Duplicate merge rules *)

(** C8 fails as stated: with the rules [[(a, b), (b, c), (a, b)]] the pair
    [(a, b)] first occurs at position 0 but its rank is 2, so [(b, c)] is
    merged first in [[a, b, c]]. *)
Lemma duplicate_rule_rank_counterexample :
  exists tk,
    __init__ vocab_abc merges_dup [] = Ok tk /\
    first_index ([97], [98])%Z merges_dup = Some 0 /\
    dict_get pair_eqb (merge_ranks tk) ([97], [98])%Z = Some 2 /\
    final_units tk [[97]; [98]; [99]]%Z = Some [[97]; [98; 99]]%Z.
Proof. eexists; repeat split; reflexivity. Qed.

(** C8, amended.  If the same pair occurs at more than one position of the
    merge rules, its rank is the position of its last occurrence: the rank of
    a pair is [i] exactly when the pair is at position [i] and at no later
    position. *)
Theorem rank_is_last_position :
  forall vocab0 merges0 specials tk p,
    __init__ vocab0 merges0 specials = Ok tk ->
    dict_get pair_eqb (merge_ranks tk) p = last_index p merges0 /\
    forall i,
      dict_get pair_eqb (merge_ranks tk) p = Some i <->
      nth_error merges0 i = Some p /\
      forall j, i < j -> nth_error merges0 j <> Some p.
Proof.
  intros vocab0 merges0 specials tk p Hinit.
  destruct (init_merge_ranks _ _ _ _ Hinit) as [-> _].
  split; [apply merge_ranks_last_index|].
  intros i; rewrite merge_ranks_last_index; apply last_index_spec.
Qed.

Lemma rank_is_last_position_witness :
  exists tk,
    __init__ vocab_abc merges_dup [] = Ok tk /\
    dict_get pair_eqb (merge_ranks tk) ([97], [98])%Z =
    last_index ([97], [98])%Z merges_dup.
Proof.
  eexists; split; [reflexivity|].
  exact (proj1 (rank_is_last_position vocab_abc merges_dup [] _
                  ([97], [98])%Z eq_refl)).
Defined.

(** * Termination *)

Lemma lookup_ids_raises (vocab_to_id : list (bytes * Z)) (tokens : list bytes) e :
  lookup_ids vocab_to_id tokens = Raise e ->
  exists token,
    e = KeyError_vocab_to_id token /\ In token tokens /\
    dict_get bytes_eqb vocab_to_id token = None.
Proof.
  induction tokens as [|t tokens IH]; simpl; [discriminate|].
  destruct (dict_get bytes_eqb vocab_to_id t) eqn:E.
  - destruct (lookup_ids vocab_to_id tokens) eqn:El; simpl; [discriminate|].
    intros H; injection H as <-.
    destruct (IH eq_refl) as (token & -> & Hin & Hnone).
    exists token; auto.
  - intros H; injection H as <-; exists t; auto.
Qed.

Lemma merge_word_no_budget_error (tk : Tokenizer) (word : list bytes) :
  _merge_word tk word <> Raise LoopBudgetExhausted.
Proof.
  unfold _merge_word.
  destruct (final_units_total tk word) as (units & -> & _).
  intros H; apply lookup_ids_raises in H.
  destruct H as (token & Habs & _); discriminate.
Qed.

Lemma utf8_encode_char_raises c e :
  utf8_encode_char c = Raise e -> e = UnicodeEncodeError c.
Proof.
  unfold utf8_encode_char.
  repeat match goal with
         | |- context [if ?b then _ else _] => destruct b
         end; try discriminate; intros H; injection H as <-; reflexivity.
Qed.

Lemma utf8_encode_raises s e :
  utf8_encode s = Raise e -> exists c, In c s /\ e = UnicodeEncodeError c.
Proof.
  induction s as [|c s IH]; simpl; [discriminate|].
  destruct (utf8_encode_char c) eqn:Ec; simpl.
  - destruct (utf8_encode s) eqn:Es; simpl; [discriminate|].
    intros H; injection H as <-.
    destruct (IH eq_refl) as (c' & Hin & ->); eauto.
  - intros H; injection H as <-.
    apply utf8_encode_char_raises in Ec; subst; eauto.
Qed.

Lemma pretokenize_item_raises finditer tk text e :
  In (Raise e) (pretokenize finditer tk text) -> exists c, e = UnicodeEncodeError c.
Proof.
  unfold pretokenize; rewrite in_flat_map.
  intros (chunk & _ & Hin); unfold pretokenize_chunk in Hin.
  destruct (str_in chunk (special_tokens tk)).
  - destruct Hin as [Heq|[]].
    destruct (utf8_encode chunk) eqn:E; simpl in Heq; [discriminate|].
    injection Heq as ->; apply utf8_encode_raises in E.
    destruct E as (c & _ & ->); eauto.
  - apply in_map_iff in Hin; destruct Hin as (word & Heq & _).
    destruct (utf8_encode word) eqn:E; simpl in Heq; [discriminate|].
    injection Heq as ->; apply utf8_encode_raises in E.
    destruct E as (c & _ & ->); eauto.
Qed.

Lemma sum_merge_word_no_budget_error tk (items : list (result (list bytes))) :
  (forall e, In (Raise e) items -> e <> LoopBudgetExhausted) ->
  forall start, sum_merge_word tk start items <> Raise LoopBudgetExhausted.
Proof.
  induction items as [|item items IH]; intros Hitems start; simpl;
    [discriminate|].
  destruct item as [word|e]; simpl.
  - pose proof (merge_word_no_budget_error tk word) as Hw.
    destruct (_merge_word tk word) as [ids|e]; simpl.
    + apply IH; intros e He; apply Hitems; simpl; auto.
    + congruence.
  - intros H; injection H as ->; apply (Hitems LoopBudgetExhausted); simpl; auto.
Qed.

(** C9.  Every call is a finite computation.  Each merge round strictly
    decreases the number of units and the inner scan ends within
    [len(tokens)] steps, so the merge loop of [_merge_word] ends within
    [len(word) + 1] iterations for every word, with no adjacent pair left in
    the rank table; [_merge_word] and [encode] therefore never exhaust the
    loop budget, and [decode] and construction are structural recursions that
    return a value or raise. *)
Theorem merge_loop_terminates :
  (forall (tk : Tokenizer) tokens best_pair new_tokens,
     best_pair_of (merge_ranks tk) tokens = Some best_pair ->
     merge_with best_pair tokens = Some new_tokens ->
     length new_tokens < length tokens) /\
  (forall best_pair tokens, merge_with best_pair tokens <> None) /\
  (forall (tk : Tokenizer) word,
     exists units,
       final_units tk word = Some units /\
       best_pair_of (merge_ranks tk) units = None /\
       length units <= length word /\
       forall fuel,
         length word < fuel ->
         merge_loop (merge_ranks tk) fuel word = Some units) /\
  (forall (tk : Tokenizer) word,
     _merge_word tk word <> Raise LoopBudgetExhausted) /\
  (forall finditer (tk : Tokenizer) text,
     encode finditer tk text <> Raise LoopBudgetExhausted) /\
  (forall (tk : Tokenizer) ids,
     (exists text, decode tk ids = Ok text) \/
     (exists id, decode tk ids = Raise (KeyError_vocab id))) /\
  (forall vocab0 merges0 specials,
     (exists tk, __init__ vocab0 merges0 specials = Ok tk) \/
     (exists c, __init__ vocab0 merges0 specials = Raise (UnicodeEncodeError c))).
Proof.
  repeat split.
  - intros tk tokens bp new_tokens Hbest Hscan.
    rewrite merge_with_greedy in Hscan; injection Hscan as <-.
    apply greedy_length_lt.
    exact (proj1 (best_pair_of_some _ _ _ Hbest)).
  - intros bp tokens; rewrite merge_with_greedy; discriminate.
  - intros tk word.
    destruct (final_units_total tk word) as (units & H1 & H2 & H3 & _).
    exists units; repeat split; auto.
    intros fuel Hfuel.
    apply merge_loop_more_fuel with (fuel := S (length word)); [exact H1 | lia].
  - exact merge_word_no_budget_error.
  - intros finditer tk text; unfold encode.
    apply sum_merge_word_no_budget_error.
    intros e He; apply pretokenize_item_raises in He.
    destruct He as [c ->]; discriminate.
  - intros tk ids; unfold decode.
    destruct (join_vocab (vocab tk) ids) as [bs|e] eqn:E; simpl; [eauto|].
    right; revert e E; induction ids as [|id ids IH]; simpl; [discriminate|].
    intros e; destruct (dict_get Z.eqb (vocab tk) id).
    + destruct (join_vocab (vocab tk) ids) as [bs|e']; simpl; [discriminate|].
      intros H; injection H as <-; destruct (IH e' eq_refl) as [id' Hid'].
      exists id'; exact Hid'.
    + intros H; injection H as <-; eauto.
  - intros vocab0 merges0 specials; unfold __init__.
    destruct specials as [|s specials]; [eauto|].
    destruct (add_special_tokens vocab0 (s :: specials)) as [vocab'|e] eqn:E;
      simpl; [eauto|].
    right.
    assert (Hgen : forall l v e0, add_special_tokens v l = Raise e0 ->
                                  exists c, e0 = UnicodeEncodeError c).
    { induction l as [|t l IH]; intros v e0; simpl; [discriminate|].
      destruct (utf8_encode t) eqn:Et; simpl.
      - apply IH.
      - intros H; injection H as <-.
        apply utf8_encode_raises in Et; destruct Et as (c & _ & ->); eauto. }
    destruct (Hgen _ _ _ E) as [c ->]; eauto.
Qed.

Lemma merge_loop_terminates_witness :
  exists tk,
    __init__ vocab_abc merges_abc [] = Ok tk /\
    length [[97; 98]; [99]]%Z < length [[97]; [98]; [99]]%Z.
Proof.
  eexists; split; [reflexivity|].
  apply (proj1 merge_loop_terminates
           {| vocab := vocab_abc; merges := merges_abc; special_tokens := [];
              split_pattern := None;
              merge_ranks := build_merge_ranks merges_abc;
              vocab_size := 5%Z;
              vocab_to_id := build_vocab_to_id vocab_abc |}
           [[97]; [98]; [99]]%Z ([97], [98])%Z); reflexivity.
Defined.

(** * UTF-8 *)

Local Open Scope Z_scope.

(** Replace every integer comparison of the goal by its value, when linear
    arithmetic settles it. *)
Ltac settle_comparisons :=
  repeat match goal with
    | |- context [?a <? ?b] =>
        first [ replace (a <? b) with true by (symmetry; apply Z.ltb_lt; lia)
              | replace (a <? b) with false by (symmetry; apply Z.ltb_ge; lia) ]
    | |- context [?a <=? ?b] =>
        first [ replace (a <=? b) with true by (symmetry; apply Z.leb_le; lia)
              | replace (a <=? b) with false by (symmetry; apply Z.leb_gt; lia) ]
    | |- context [?a =? ?b] =>
        first [ replace (a =? b) with true by (symmetry; apply Z.eqb_eq; lia)
              | replace (a =? b) with false by (symmetry; apply Z.eqb_neq; lia) ]
    end.

Ltac split_comparisons :=
  repeat match goal with
    | H : context [?a <? ?b] |- _ => destruct (Z.ltb_spec a b)
    | H : context [?a <=? ?b] |- _ => destruct (Z.leb_spec a b)
    | H : context [?a =? ?b] |- _ => destruct (Z.eqb_spec a b)
    end.

Lemma utf8_encode_char_cases (c : Z) (b : bytes) :
  utf8_encode_char c = Ok b ->
  (0 <= c < 0x80 /\ b = [c]) \/
  (0x80 <= c < 0x800 /\ b = [0xC0 + c / 64; 0x80 + c mod 64]) \/
  (0x800 <= c < 0x10000 /\ (c < 0xD800 \/ 0xDFFF < c) /\
   b = [0xE0 + c / 4096; 0x80 + (c / 64) mod 64; 0x80 + c mod 64]) \/
  (0x10000 <= c < 0x110000 /\
   b = [0xF0 + c / 262144; 0x80 + (c / 4096) mod 64;
        0x80 + (c / 64) mod 64; 0x80 + c mod 64]).
Proof.
  unfold utf8_encode_char; intros H.
  split_comparisons; cbn [andb] in H; try discriminate;
    injection H as <-; auto 10 with zarith.
  all: try (right; right; left; repeat split; auto; lia).
Qed.

Lemma utf8_decode_encode_char (c : Z) (b rest : bytes) :
  utf8_encode_char c = Ok b ->
  utf8_decode_replace (b ++ rest) = c :: utf8_decode_replace rest.
Proof.
  intros H; apply utf8_encode_char_cases in H.
  destruct H as [[Hc ->] | [[Hc ->] | [(Hc & Hs & ->) | [Hc ->]]]];
    cbn [app utf8_decode_replace];
    unfold second_byte_ok, is_continuation;
    Z.div_mod_to_equations;
    settle_comparisons;
    repeat match goal with
      | |- context [?a =? ?b] => destruct (Z.eqb_spec a b); settle_comparisons
      end;
    cbn [andb];
    f_equal; lia.
Qed.

Lemma utf8_decode_encode (s : str) (bs : bytes) :
  utf8_encode s = Ok bs -> utf8_decode_replace bs = s.
Proof.
  revert bs; induction s as [|c s IH]; intros bs; simpl.
  - intros H; injection H as <-; reflexivity.
  - destruct (utf8_encode_char c) as [b|] eqn:Ec; simpl; [|discriminate].
    destruct (utf8_encode s) as [bs'|] eqn:Es; simpl; [|discriminate].
    intros H; injection H as <-.
    rewrite (utf8_decode_encode_char c b bs' Ec), (IH bs' eq_refl).
    reflexivity.
Qed.

Ltac case_comparisons :=
  repeat match goal with
    | |- context [?a <? ?b] => destruct (Z.ltb_spec a b); try lia
    | |- context [?a <=? ?b] => destruct (Z.leb_spec a b); try lia
    | |- context [?a =? ?b] => destruct (Z.eqb_spec a b); try lia
    end.

Lemma is_continuation_true (b : Z) :
  is_continuation b = true -> 0x80 <= b <= 0xBF.
Proof.
  unfold is_continuation; rewrite andb_true_iff, !Z.leb_le; tauto.
Qed.

Lemma second_byte_ok_true (b0 b1 : Z) :
  second_byte_ok b0 b1 = true ->
  0x80 <= b1 <= 0xBF /\
  (b0 = 0xE0 -> 0xA0 <= b1) /\ (b0 = 0xED -> b1 <= 0x9F) /\
  (b0 = 0xF0 -> 0x90 <= b1) /\ (b0 = 0xF4 -> b1 <= 0x8F).
Proof.
  unfold second_byte_ok, is_continuation.
  destruct (Z.eqb_spec b0 0xE0); [|destruct (Z.eqb_spec b0 0xED);
    [|destruct (Z.eqb_spec b0 0xF0); [|destruct (Z.eqb_spec b0 0xF4)]]];
    rewrite andb_true_iff, !Z.leb_le; lia.
Qed.

Lemma utf8_encode_char_1 (b0 : Z) :
  0 <= b0 < 0x80 -> utf8_encode_char b0 = Ok [b0].
Proof. intros H; unfold utf8_encode_char; case_comparisons; reflexivity. Qed.

Lemma utf8_encode_char_2 (b0 b1 : Z) :
  0xC2 <= b0 < 0xE0 -> 0x80 <= b1 <= 0xBF ->
  utf8_encode_char ((b0 - 0xC0) * 64 + (b1 - 0x80)) = Ok [b0; b1].
Proof.
  intros H0 H1; unfold utf8_encode_char; case_comparisons.
  repeat f_equal; Z.div_mod_to_equations; lia.
Qed.

Lemma utf8_encode_char_3 (b0 b1 b2 : Z) :
  0xE0 <= b0 < 0xF0 -> 0x80 <= b1 <= 0xBF -> 0x80 <= b2 <= 0xBF ->
  (b0 = 0xE0 -> 0xA0 <= b1) -> (b0 = 0xED -> b1 <= 0x9F) ->
  utf8_encode_char ((b0 - 0xE0) * 4096 + (b1 - 0x80) * 64 + (b2 - 0x80)) =
  Ok [b0; b1; b2].
Proof.
  intros H0 H1 H2 Hlo Hhi; unfold utf8_encode_char; case_comparisons;
    cbn [andb]; repeat f_equal; Z.div_mod_to_equations; lia.
Qed.

Lemma utf8_encode_char_4 (b0 b1 b2 b3 : Z) :
  0xF0 <= b0 < 0xF5 -> 0x80 <= b1 <= 0xBF -> 0x80 <= b2 <= 0xBF ->
  0x80 <= b3 <= 0xBF ->
  (b0 = 0xF0 -> 0x90 <= b1) -> (b0 = 0xF4 -> b1 <= 0x8F) ->
  utf8_encode_char ((b0 - 0xF0) * 262144 + (b1 - 0x80) * 4096
                    + (b2 - 0x80) * 64 + (b3 - 0x80)) =
  Ok [b0; b1; b2; b3].
Proof.
  intros H0 H1 H2 H3 Hlo Hhi; unfold utf8_encode_char; case_comparisons;
    cbn [andb]; repeat f_equal; Z.div_mod_to_equations; lia.
Qed.

(** What the decoder does with the first bytes of its input: it either
    emits U+FFFD, or it consumes the encoding of one code point. *)
Lemma utf8_decode_step (b0 : Z) (rest : bytes) :
  0 <= b0 ->
  (exists tl, utf8_decode_replace (b0 :: rest) = REPLACEMENT_CHARACTER :: tl) \/
  (exists c k rest',
     b0 :: rest = k ++ rest' /\
     (length rest' <= length rest)%nat /\
     utf8_decode_replace (b0 :: rest) = c :: utf8_decode_replace rest' /\
     utf8_encode_char c = Ok k).
Proof.
  intros Hb0; cbn [utf8_decode_replace].
  destruct (Z.ltb_spec b0 0x80).
  { right; exists b0, [b0], rest; repeat split; auto.
    apply utf8_encode_char_1; lia. }
  destruct (Z.ltb_spec b0 0xC2); [left; eauto|].
  destruct (Z.ltb_spec b0 0xE0).
  { destruct rest as [|b1 r1]; [left; eauto|].
    destruct (is_continuation b1) eqn:E1; [|left; eauto].
    apply is_continuation_true in E1.
    right; eexists; exists [b0; b1], r1; repeat split; simpl; auto.
    apply utf8_encode_char_2; lia. }
  destruct (Z.ltb_spec b0 0xF0).
  { destruct rest as [|b1 r1]; [left; eauto|].
    destruct (second_byte_ok b0 b1) eqn:E1; [|left; eauto].
    apply second_byte_ok_true in E1.
    destruct r1 as [|b2 r2]; [left; eauto|].
    destruct (is_continuation b2) eqn:E2; [|left; eauto].
    apply is_continuation_true in E2.
    right; eexists; exists [b0; b1; b2], r2; repeat split; simpl; auto.
    apply utf8_encode_char_3; lia. }
  destruct (Z.ltb_spec b0 0xF5); [|left; eauto].
  destruct rest as [|b1 r1]; [left; eauto|].
  destruct (second_byte_ok b0 b1) eqn:E1; [|left; eauto].
  apply second_byte_ok_true in E1.
  destruct r1 as [|b2 r2]; [left; eauto|].
  destruct (is_continuation b2) eqn:E2; [|left; eauto].
  apply is_continuation_true in E2.
  destruct r2 as [|b3 r3]; [left; eauto|].
  destruct (is_continuation b3) eqn:E3; [|left; eauto].
  apply is_continuation_true in E3.
  right; eexists; exists [b0; b1; b2; b3], r3; repeat split; simpl; auto.
  apply utf8_encode_char_4; lia.
Qed.

Lemma forallb_is_byte_app (a b : bytes) :
  forallb is_byte (a ++ b) = true ->
  forallb is_byte a = true /\ forallb is_byte b = true.
Proof. rewrite forallb_app, andb_true_iff; tauto. Qed.

(** Bytes that decode without a replacement character are the encoding of
    what they decode to. *)
Lemma utf8_decode_without_replacement (bs : bytes) :
  forallb is_byte bs = true ->
  ~ In REPLACEMENT_CHARACTER (utf8_decode_replace bs) ->
  utf8_encode (utf8_decode_replace bs) = Ok bs.
Proof.
  remember (length bs) as n eqn:Hn.
  assert (Hlen : (length bs <= n)%nat) by lia; clear Hn.
  revert bs Hlen; induction n as [|n IH]; intros bs Hlen Hbytes Hclean.
  - destruct bs; [reflexivity | simpl in Hlen; lia].
  - destruct bs as [|b0 rest]; [reflexivity|].
    assert (Hb0 : 0 <= b0).
    { simpl in Hbytes; apply andb_true_iff in Hbytes.
      destruct Hbytes as [Hb _]; unfold is_byte in Hb.
      apply andb_true_iff in Hb; destruct Hb as [Hb _].
      apply Z.leb_le in Hb; exact Hb. }
    destruct (utf8_decode_step b0 rest Hb0)
      as [[tl Htl] | (c & k & rest' & Hsplit & Hshort & Hdec & Henc)].
    + exfalso; apply Hclean; rewrite Htl; simpl; auto.
    + rewrite Hdec in Hclean |- *.
      rewrite Hsplit in Hbytes; apply forallb_is_byte_app in Hbytes.
      cbn [utf8_encode]; rewrite Henc; cbn [bind].
      rewrite IH; [rewrite Hsplit; reflexivity | | tauto |].
      * simpl in Hlen; lia.
      * intros Hin; apply Hclean; simpl; auto.
Qed.

Lemma utf8_encode_char_bytes (c : Z) (b : bytes) :
  utf8_encode_char c = Ok b ->
  forallb is_byte b = true /\ (1 <= length b)%nat.
Proof.
  intros H; apply utf8_encode_char_cases in H.
  destruct H as [[Hc ->] | [[Hc ->] | [(Hc & Hs & ->) | [Hc ->]]]];
    (split; [|simpl; lia]);
    cbn [forallb]; unfold is_byte; rewrite ?andb_true_iff;
    rewrite ?Z.leb_le, ?Z.ltb_lt; Z.div_mod_to_equations; repeat split; lia.
Qed.

Lemma utf8_encode_bytes (s : str) (bs : bytes) :
  utf8_encode s = Ok bs ->
  forallb is_byte bs = true /\ (length s <= length bs)%nat.
Proof.
  revert bs; induction s as [|c s IH]; intros bs; simpl.
  - intros H; injection H as <-; auto.
  - destruct (utf8_encode_char c) as [b|] eqn:Ec; simpl; [|discriminate].
    destruct (utf8_encode s) as [bs'|] eqn:Es; simpl; [|discriminate].
    intros H; injection H as <-.
    destruct (utf8_encode_char_bytes c b Ec) as [Hb Hl].
    destruct (IH bs' eq_refl) as [Hbs Hls].
    rewrite forallb_app, length_app, Hb, Hbs; split; [reflexivity | lia].
Qed.

Lemma utf8_encode_app (s1 s2 : str) :
  utf8_encode (s1 ++ s2) =
  (b1 <- utf8_encode s1 ;; b2 <- utf8_encode s2 ;; Ok (b1 ++ b2)).
Proof.
  induction s1 as [|c s1 IH]; simpl.
  - destruct (utf8_encode s2); reflexivity.
  - destruct (utf8_encode_char c) as [b|]; simpl; [|reflexivity].
    rewrite IH.
    destruct (utf8_encode s1) as [b1|]; simpl; [|reflexivity].
    destruct (utf8_encode s2) as [b2|]; simpl; [|reflexivity].
    rewrite app_assoc; reflexivity.
Qed.

Lemma utf8_encode_scalar (s : str) :
  forallb is_scalar_value s = true -> exists bs, utf8_encode s = Ok bs.
Proof.
  induction s as [|c s IH]; simpl; [eauto|].
  rewrite andb_true_iff; intros [Hc Hs].
  destruct (IH Hs) as [bs ->].
  assert (Hex : exists b, utf8_encode_char c = Ok b).
  { unfold is_scalar_value in Hc; unfold utf8_encode_char.
    apply orb_true_iff in Hc.
    rewrite !andb_true_iff, !Z.leb_le, !Z.ltb_lt in Hc.
    case_comparisons; cbn [andb]; eauto; lia. }
  destruct Hex as [b ->]; simpl; eauto.
Qed.

Local Close Scope Z_scope.

(** * The reverse lookup *)

Lemma vocab_to_id_some (vocab : list (Z * bytes)) (b : bytes) (k : Z) :
  dict_get bytes_eqb (build_vocab_to_id vocab) b = Some k -> In (k, b) vocab.
Proof.
  intros H; apply (dict_comprehension_get _ _ _ bytes_eqb_true) in H.
  destruct H as ([k' b'] & Hin & Hk & Hv); simpl in *; subst; exact Hin.
Qed.

Lemma vocab_to_id_mem (vocab : list (Z * bytes)) (b : bytes) :
  In b (map snd vocab) ->
  exists k, dict_get bytes_eqb (build_vocab_to_id vocab) b = Some k.
Proof.
  rewrite in_map_iff; intros ([k' b'] & Hb & Hin); simpl in Hb; subst b'.
  exact (dict_comprehension_mem _ _ _ bytes_eqb_true _ _ _ _ _ Hin).
Qed.

Lemma vocab_to_id_none (vocab : list (Z * bytes)) (b : bytes) :
  dict_get bytes_eqb (build_vocab_to_id vocab) b = None <->
  ~ In b (map snd vocab).
Proof.
  split.
  - intros Hnone Hin; destruct (vocab_to_id_mem vocab b Hin); congruence.
  - intros Hnot.
    destruct (dict_get bytes_eqb (build_vocab_to_id vocab) b) as [k|] eqn:E;
      [|reflexivity].
    apply vocab_to_id_some in E.
    exfalso; apply Hnot; apply (in_map snd) in E; exact E.
Qed.

Lemma init_vocab_to_id vocab0 merges0 specials tk :
  __init__ vocab0 merges0 specials = Ok tk ->
  vocab_to_id tk = build_vocab_to_id (vocab tk).
Proof.
  unfold __init__; destruct specials as [|s specials].
  - intros H; injection H as <-; reflexivity.
  - destruct (add_special_tokens vocab0 (s :: specials)); simpl; [|discriminate].
    intros H; injection H as <-; reflexivity.
Qed.

Lemma lookup_ids_ok (vocab : list (Z * bytes)) (units : list bytes) :
  (forall u, In u units -> In u (map snd vocab)) ->
  exists ids,
    lookup_ids (build_vocab_to_id vocab) units = Ok ids /\
    Forall2 (fun u id => In (id, u) vocab) units ids.
Proof.
  induction units as [|u units IH]; intros Hall; simpl.
  - exists []; split; [reflexivity | constructor].
  - destruct (vocab_to_id_mem vocab u (Hall u (or_introl eq_refl))) as [k Hk].
    rewrite Hk.
    destruct IH as (ids & -> & Hids); [intros; apply Hall; simpl; auto|].
    exists (k :: ids); split; [reflexivity|].
    constructor; [apply vocab_to_id_some; exact Hk | exact Hids].
Qed.

Lemma lookup_ids_absent (vocab_to_id : list (bytes * Z)) (units : list bytes) u :
  In u units -> dict_get bytes_eqb vocab_to_id u = None ->
  exists u', lookup_ids vocab_to_id units = Raise (KeyError_vocab_to_id u').
Proof.
  induction units as [|x units IH]; intros Hin Hnone; [destruct Hin|].
  simpl; destruct (dict_get bytes_eqb vocab_to_id x) eqn:E; [|eauto].
  destruct Hin as [->|Hin]; [congruence|].
  destruct (IH Hin Hnone) as [u' ->]; simpl; eauto.
Qed.

(** C7.  Mapping the final units of a pretoken to ids raises the lookup
    error of [vocab_to_id] (the specification's [UnknownTokenError]) exactly
    when some final unit is not a byte sequence of the vocabulary, and the
    error names such a unit; when every final unit is in the vocabulary,
    [_merge_word] returns their ids. *)
Theorem unknown_token_iff_final_unit_absent :
  forall vocab0 merges0 specials tk word,
    __init__ vocab0 merges0 specials = Ok tk ->
    exists units,
      final_units tk word = Some units /\
      (forall e,
         _merge_word tk word = Raise e ->
         exists u,
           e = KeyError_vocab_to_id u /\ In u units /\
           ~ In u (map snd (vocab tk))) /\
      (forall u,
         In u units -> ~ In u (map snd (vocab tk)) ->
         exists u', _merge_word tk word = Raise (KeyError_vocab_to_id u')) /\
      ((forall u, In u units -> In u (map snd (vocab tk))) ->
       exists ids,
         _merge_word tk word = Ok ids /\
         Forall2 (fun u id => In (id, u) (vocab tk)) units ids).
Proof.
  intros vocab0 merges0 specials tk word Hinit.
  pose proof (init_vocab_to_id _ _ _ _ Hinit) as Hv2i.
  destruct (final_units_total tk word) as (units & Hunits & _).
  exists units; split; [exact Hunits|].
  unfold _merge_word; rewrite Hunits, Hv2i.
  repeat split.
  - intros e He; apply lookup_ids_raises in He.
    destruct He as (u & -> & Hin & Hnone).
    exists u; repeat split; auto.
    apply vocab_to_id_none; exact Hnone.
  - intros u Hin Habs.
    apply (lookup_ids_absent _ _ u Hin).
    apply vocab_to_id_none; exact Habs.
  - apply lookup_ids_ok.
Qed.

Lemma unknown_token_iff_final_unit_absent_witness :
  exists tk units,
    __init__ vocab_abc merges_abc [] = Ok tk /\
    final_units tk [[97]; [98]; [99]]%Z = Some units.
Proof.
  eexists.
  destruct (unknown_token_iff_final_unit_absent vocab_abc merges_abc [] _
              [[97]; [98]; [99]]%Z eq_refl) as (units & Hunits & _).
  exists units; split; [reflexivity | exact Hunits].
Defined.

(** * Decoding *)

Lemma join_vocab_raises (vocab : list (Z * bytes)) (ids : list Z) e :
  join_vocab vocab ids = Raise e ->
  exists id, e = KeyError_vocab id /\ In id ids /\ dict_get Z.eqb vocab id = None.
Proof.
  induction ids as [|id ids IH]; simpl; [discriminate|].
  destruct (dict_get Z.eqb vocab id) eqn:E.
  - destruct (join_vocab vocab ids); simpl; [discriminate|].
    intros H; injection H as <-.
    destruct (IH eq_refl) as (id' & -> & Hin & Hnone); eauto 6.
  - intros H; injection H as <-; eauto 6.
Qed.

Lemma join_vocab_absent (vocab : list (Z * bytes)) (ids : list Z) id :
  In id ids -> dict_get Z.eqb vocab id = None ->
  exists id', join_vocab vocab ids = Raise (KeyError_vocab id').
Proof.
  induction ids as [|x ids IH]; intros Hin Hnone; [destruct Hin|].
  simpl; destruct (dict_get Z.eqb vocab x) eqn:E; [|eauto].
  destruct Hin as [->|Hin]; [congruence|].
  destruct (IH Hin Hnone) as [id' ->]; simpl; eauto.
Qed.

Lemma join_vocab_ok (vocab : list (Z * bytes)) (ids : list Z) :
  (forall id, In id ids -> dict_get Z.eqb vocab id <> None) ->
  exists bs, join_vocab vocab ids = Ok bs.
Proof.
  induction ids as [|id ids IH]; intros Hall; simpl; [eauto|].
  destruct (dict_get Z.eqb vocab id) eqn:E.
  - destruct IH as [bs ->]; [intros; apply Hall; simpl; auto|].
    simpl; eauto.
  - exfalso; apply (Hall id); simpl; auto.
Qed.

(** C6.  [decode(ids)] raises the lookup error of [vocab] (the
    specification's [UnknownIdError]) if and only if some id of [ids] has no
    vocabulary entry, as [decode([999999])] does with the 256 single bytes;
    when every id is present it returns a string.  Bytes that are not valid
    UTF-8 never make it fail: well-formed bytes decode to the string they
    encode, and any other byte sequence decodes to a string that contains the
    replacement character U+FFFD. *)
Theorem decode_raises_iff_unknown_id :
  (forall tk ids e,
     decode tk ids = Raise e ->
     exists id,
       e = KeyError_vocab id /\ In id ids /\
       dict_get Z.eqb (vocab tk) id = None) /\
  (forall tk ids id,
     In id ids -> dict_get Z.eqb (vocab tk) id = None ->
     exists id', decode tk ids = Raise (KeyError_vocab id')) /\
  (forall tk ids,
     (forall id, In id ids -> dict_get Z.eqb (vocab tk) id <> None) ->
     exists bs,
       join_vocab (vocab tk) ids = Ok bs /\
       decode tk ids = Ok (utf8_decode_replace bs)) /\
  (forall s bs, utf8_encode s = Ok bs -> utf8_decode_replace bs = s) /\
  (forall bs,
     forallb is_byte bs = true ->
     (forall s, utf8_encode s <> Ok bs) ->
     In REPLACEMENT_CHARACTER (utf8_decode_replace bs)) /\
  (tk <- __init__ vocab_bytes [] [] ;; decode tk [999999%Z]) =
    Raise (KeyError_vocab 999999) /\
  (tk <- __init__ vocab_bytes [] [] ;; decode tk [255; 65; 226; 130]%Z) =
    Ok [REPLACEMENT_CHARACTER; 65%Z; REPLACEMENT_CHARACTER].
Proof.
  split; [|split; [|split; [|split; [|split; [|split]]]]].
  - intros tk ids e; unfold decode.
    destruct (join_vocab (vocab tk) ids) eqn:E; simpl; [discriminate|].
    intros H; injection H as <-; apply join_vocab_raises; exact E.
  - intros tk ids id Hin Hnone; unfold decode.
    destruct (join_vocab_absent _ _ _ Hin Hnone) as [id' ->]; simpl; eauto.
  - intros tk ids Hall; unfold decode.
    destruct (join_vocab_ok _ _ Hall) as [bs ->]; simpl; eauto.
  - exact utf8_decode_encode.
  - intros bs Hbytes Hill.
    destruct (in_dec Z.eq_dec REPLACEMENT_CHARACTER (utf8_decode_replace bs))
      as [Hin|Hnot]; [exact Hin|].
    exfalso; apply (Hill (utf8_decode_replace bs)).
    apply utf8_decode_without_replacement; assumption.
  - vm_compute; reflexivity.
  - vm_compute; reflexivity.
Qed.

Lemma decode_raises_iff_unknown_id_witness :
  exists tk,
    __init__ vocab_bytes [] [] = Ok tk /\
    exists id', decode tk [65; 999999]%Z = Raise (KeyError_vocab id').
Proof.
  eexists; split; [reflexivity|].
  apply (proj1 (proj2 decode_raises_iff_unknown_id) _ _ 999999%Z);
    [simpl; auto | vm_compute; reflexivity].
Defined.

(** * Literal matching *)

Lemma starts_with_iff (lit s : str) :
  starts_with lit s = true <-> exists rest, s = lit ++ rest.
Proof.
  revert s; induction lit as [|a lit IH]; intros s; simpl.
  - split; [intros _; exists s; reflexivity | reflexivity].
  - destruct s as [|b s].
    + split; [discriminate | intros [rest H]; discriminate].
    + rewrite andb_true_iff, Z.eqb_eq, IH; split.
      * intros [-> [rest ->]]; exists rest; reflexivity.
      * intros [rest H]; injection H as -> ->; split; eauto.
Qed.

Lemma starts_with_app (lit rest : str) : starts_with lit (lit ++ rest) = true.
Proof. apply starts_with_iff; eauto. Qed.

Lemma starts_with_length (lit s : str) :
  starts_with lit s = true -> length lit <= length s.
Proof.
  rewrite starts_with_iff; intros [rest ->]; rewrite length_app; lia.
Qed.

Lemma starts_with_nil (lit : str) : starts_with lit [] = true -> lit = [].
Proof. destruct lit; [reflexivity | discriminate]. Qed.

Lemma starts_with_longer (lit s rest : str) :
  starts_with lit s = true -> starts_with lit (s ++ rest) = true.
Proof.
  rewrite !starts_with_iff; intros [r ->].
  exists (r ++ rest); rewrite app_assoc; reflexivity.
Qed.

Lemma first_match_some (literals : list str) (s lit : str) :
  first_match literals s = Some lit ->
  In lit literals /\ starts_with lit s = true.
Proof.
  unfold first_match; intros H.
  apply (find_some (fun l => starts_with l s)) in H; exact H.
Qed.

Lemma first_match_none (literals : list str) (s : str) :
  first_match literals s = None <->
  forall lit, In lit literals -> starts_with lit s = false.
Proof.
  unfold first_match; split.
  - intros H lit Hin.
    exact (find_none (fun l => starts_with l s) _ H lit Hin).
  - intros H; induction literals as [|x l IH]; [reflexivity|].
    simpl; rewrite (H x (or_introl eq_refl)).
    apply IH; intros lit Hin; apply H; simpl; auto.
Qed.

Lemma first_match_nonempty (literals : list str) (s lit : str) :
  first_match (filter nonempty literals) s = Some lit ->
  exists c lit', lit = c :: lit' /\ starts_with lit s = true.
Proof.
  intros H; apply first_match_some in H; destruct H as [Hin Hs].
  apply filter_In in Hin; destruct Hin as [_ Hne].
  destruct lit as [|c lit']; [discriminate|]; eauto.
Qed.

(** * Sorting by descending length *)

Lemma insert_by_len_in (x y : str) (l : list str) :
  In y (insert_by_len x l) <-> y = x \/ In y l.
Proof.
  induction l as [|z l IH]; simpl.
  - split; intros [H|H]; auto.
  - destruct (length z <=? length x); simpl; [split; intros [H|H]; auto|].
    rewrite IH; tauto.
Qed.

Lemma sorted_len_reverse_in (y : str) (l : list str) :
  In y (sorted_len_reverse l) <-> In y l.
Proof.
  induction l as [|x l IH]; simpl; [tauto|].
  rewrite insert_by_len_in, IH; split; intros [H|H]; auto.
Qed.

Lemma insert_by_len_sorted (x : str) (l : list str) :
  StronglySorted longer_first l ->
  StronglySorted longer_first (insert_by_len x l).
Proof.
  induction 1 as [|z l Hs IH Hz]; simpl.
  - constructor; [constructor | constructor].
  - destruct (Nat.leb_spec (length z) (length x)) as [Hle|Hgt].
    + constructor; [constructor; assumption|].
      constructor; [exact Hle|].
      rewrite Forall_forall in *; intros y Hy.
      specialize (Hz y Hy); unfold longer_first in *; lia.
    + constructor; [exact IH|].
      rewrite Forall_forall in *; intros y Hy.
      apply insert_by_len_in in Hy; destruct Hy as [->|Hy];
        [unfold longer_first; lia | exact (Hz y Hy)].
Qed.

Lemma sorted_len_reverse_sorted (l : list str) :
  StronglySorted longer_first (sorted_len_reverse l).
Proof.
  induction l as [|x l IH]; simpl;
    [constructor | apply insert_by_len_sorted; exact IH].
Qed.

(** On a list sorted by descending length, the first item that satisfies a
    test is at least as long as every item that satisfies it. *)
Lemma find_longest (f : str -> bool) (l : list str) (x : str) :
  StronglySorted longer_first l -> In x l -> f x = true ->
  exists y, find f l = Some y /\ f y = true /\ In y l /\ length x <= length y.
Proof.
  induction 1 as [|z l Hs IH Hz]; intros Hin Hfx; [destruct Hin|].
  simpl; destruct (f z) eqn:Efz.
  - exists z; repeat split; simpl; auto.
    destruct Hin as [->|Hin]; [lia|].
    rewrite Forall_forall in Hz; exact (Hz x Hin).
  - destruct Hin as [->|Hin]; [congruence|].
    destruct (IH Hin Hfx) as (y & Hy1 & Hy2 & Hy3 & Hy4).
    exists y; simpl; auto.
Qed.

Lemma first_match_longest (specials : list str) (L s : str) :
  In L specials -> starts_with L s = true ->
  exists T,
    first_match (sorted_len_reverse specials) s = Some T /\
    starts_with T s = true /\ In T specials /\ length L <= length T.
Proof.
  intros Hin Hs.
  destruct (find_longest (fun lit => starts_with lit s)
              (sorted_len_reverse specials) L
              (sorted_len_reverse_sorted specials)
              (proj2 (sorted_len_reverse_in L specials) Hin) Hs)
    as (T & H1 & H2 & H3 & H4).
  exists T; repeat split; auto.
  apply sorted_len_reverse_in; exact H3.
Qed.

Lemma prefix_same_length (a b r1 r2 : str) :
  a ++ r1 = b ++ r2 -> length a = length b -> a = b.
Proof.
  revert b; induction a as [|x a IH]; intros [|y b] H Hl;
    try discriminate; [reflexivity|].
  simpl in *; injection H as -> H; f_equal; apply IH; [exact H | lia].
Qed.

(** The token chosen at a position where [S] matches is [S] itself unless a
    longer token matches there too. *)
Lemma first_match_exact (specials : list str) (S v : str) :
  In S specials ->
  (forall T, In T specials -> starts_with T (S ++ v) = true ->
             length T <= length S) ->
  first_match (sorted_len_reverse specials) (S ++ v) = Some S.
Proof.
  intros Hin Hlongest.
  destruct (first_match_longest specials S (S ++ v) Hin (starts_with_app S v))
    as (T & HT & Hpre & HinT & Hlen).
  rewrite HT; f_equal.
  pose proof (Hlongest T HinT Hpre) as Hle.
  apply starts_with_iff in Hpre; destruct Hpre as [r Hr].
  symmetry; eapply prefix_same_length; [exact Hr | lia].
Qed.

(** * Splitting on the special tokens *)

Lemma re_split_go_skip (literals : list str) (k : str) :
  forall chunk rest,
    re_split_go literals (length k) chunk (k ++ rest) =
    re_split_go literals 0 chunk rest.
Proof.
  induction k as [|c k IH]; intros chunk rest; [reflexivity|].
  simpl; apply IH.
Qed.

Lemma re_split_go_0 (literals : list str) (chunk s : str) :
  re_split_go literals 0 chunk s =
  match first_match literals s with
  | Some (l0 :: lit') =>
      match s with
      | [] => [chunk]
      | _ :: s' =>
          chunk :: (l0 :: lit') :: re_split_go literals (length lit') [] s'
      end
  | Some [] =>
      match s with
      | [] => [chunk; []; []]
      | c :: s' =>
          match first_match (filter nonempty literals) s with
          | Some lit' =>
              chunk :: [] :: [] :: lit'
                :: re_split_go literals (length lit' - 1) [] s'
          | None => chunk :: [] :: re_split_go literals 0 [c] s'
          end
      end
  | None =>
      match s with
      | [] => [chunk]
      | c :: s' => re_split_go literals 0 (chunk ++ [c]) s'
      end
  end.
Proof. destruct s; reflexivity. Qed.

Lemma re_split_go_match (literals : list str) (chunk S v : str) :
  S <> [] ->
  first_match literals (S ++ v) = Some S ->
  re_split_go literals 0 chunk (S ++ v) =
  chunk :: S :: re_split_go literals 0 [] v.
Proof.
  intros Hne Hm; rewrite re_split_go_0, Hm.
  destruct S as [|c S']; [contradiction|].
  simpl; rewrite re_split_go_skip; reflexivity.
Qed.

Lemma re_split_go_end (literals : list str) (chunk : str) :
  first_match literals [] = None ->
  re_split_go literals 0 chunk [] = [chunk].
Proof. intros H; rewrite re_split_go_0, H; reflexivity. Qed.

Lemma matches_within_false (literals : list str) (n : nat) (s : str) :
  matches_within literals n s = false ->
  n <= length s ->
  forall i, i < n -> first_match literals (skipn i s) = None.
Proof.
  revert s; induction n as [|n IH]; intros s H Hlen i Hi; [lia|].
  destruct s as [|c s]; [simpl in Hlen; lia|].
  simpl in H; apply orb_false_iff in H; destruct H as [H0 Hrest].
  destruct i as [|i].
  - simpl; apply first_match_none; intros lit Hin.
    destruct (starts_with lit (c :: s)) eqn:E; [|reflexivity].
    assert (Hex : existsb (fun lit => starts_with lit (c :: s)) literals = true)
      by (apply existsb_exists; eauto).
    congruence.
  - simpl; apply IH; [exact Hrest | simpl in Hlen; lia | lia].
Qed.

Lemma re_split_go_no_match (literals : list str) (u : str) :
  forall chunk rest,
    (forall i, i < length u ->
               first_match literals (skipn i (u ++ rest)) = None) ->
    re_split_go literals 0 chunk (u ++ rest) =
    re_split_go literals 0 (chunk ++ u) rest.
Proof.
  induction u as [|c u IH]; intros chunk rest Hno.
  - rewrite app_nil_r; reflexivity.
  - pose proof (Hno 0 ltac:(simpl; lia)) as H0; cbn [skipn] in H0.
    rewrite re_split_go_0, H0.
    simpl; rewrite IH.
    + rewrite <- app_assoc; reflexivity.
    + intros i Hi; apply (Hno (S i)); simpl; lia.
Qed.

Lemma contains_literal_false (literals : list str) (s : str) :
  contains_literal literals s = false ->
  forall i, first_match literals (skipn i s) = None.
Proof.
  induction s as [|c s IH]; simpl; intros H i.
  - rewrite orb_false_r in H.
    rewrite skipn_nil; apply first_match_none; intros lit Hin.
    destruct (starts_with lit []) eqn:E; [|reflexivity].
    assert (Hex : existsb (fun lit => starts_with lit []) literals = true)
      by (apply existsb_exists; eauto).
    congruence.
  - apply orb_false_iff in H; destruct H as [H0 Hrest].
    destruct i as [|i]; [|simpl; apply IH; exact Hrest].
    simpl; apply first_match_none; intros lit Hin.
    destruct (starts_with lit (c :: s)) eqn:E; [|reflexivity].
    assert (Hex : existsb (fun lit => starts_with lit (c :: s)) literals = true)
      by (apply existsb_exists; eauto).
    congruence.
Qed.

Lemma first_match_sorted_none (specials : list str) (s : str) :
  first_match specials s = None ->
  first_match (sorted_len_reverse specials) s = None.
Proof.
  rewrite !first_match_none; intros H lit Hin.
  apply H; apply sorted_len_reverse_in; exact Hin.
Qed.

(** Text with no literal in it is one chunk. *)
Lemma re_split_plain (literals : list str) (s : str) :
  (forall i, first_match literals (skipn i s) = None) ->
  re_split literals s = [s].
Proof.
  intros Hno; unfold re_split.
  rewrite <- (app_nil_r s) at 1.
  rewrite re_split_go_no_match.
  - apply re_split_go_end.
    specialize (Hno (length s)); rewrite skipn_all in Hno; exact Hno.
  - intros i _; rewrite app_nil_r; apply Hno.
Qed.

(** The chunks and separators, put together, give the text back. *)
Lemma re_split_go_concat (literals : list str) (s : str) :
  forall skip chunk,
    concat (re_split_go literals skip chunk s) = chunk ++ skipn skip s.
Proof.
  induction s as [|c s IH]; intros skip chunk.
  - destruct skip as [|k]; [|simpl; rewrite app_nil_r; reflexivity].
    rewrite re_split_go_0.
    destruct (first_match literals []) as [[|l0 lit']|]; simpl;
      rewrite ?app_nil_r; reflexivity.
  - destruct skip as [|k]; [|simpl; apply IH].
    rewrite re_split_go_0.
    destruct (first_match literals (c :: s)) as [[|l0 lit']|] eqn:E.
    + destruct (first_match (filter nonempty literals) (c :: s)) as [lit|] eqn:E2.
      * destruct (first_match_nonempty _ _ _ E2) as (c' & l' & -> & Hpre).
        apply starts_with_iff in Hpre; destruct Hpre as [r Hr].
        injection Hr as <- ->.
        cbn [concat app length Nat.sub]; rewrite Nat.sub_0_r, IH.
        rewrite skipn_app, skipn_all, Nat.sub_diag; reflexivity.
      * cbn [concat app]; rewrite IH; reflexivity.
    + apply first_match_some in E; destruct E as [_ Hpre].
      apply starts_with_iff in Hpre; destruct Hpre as [r Hr].
      injection Hr as <- ->.
      cbn [concat app]; rewrite IH.
      rewrite skipn_app, skipn_all, Nat.sub_diag; reflexivity.
    + rewrite IH, <- app_assoc; reflexivity.
Qed.

Lemma re_split_concat (literals : list str) (text : str) :
  concat (re_split literals text) = text.
Proof. unfold re_split; rewrite re_split_go_concat; reflexivity. Qed.

(** * Construction *)

Lemma init_fields vocab0 merges0 specials tk :
  __init__ vocab0 merges0 specials = Ok tk ->
  special_tokens tk = specials /\
  split_pattern tk =
    match specials with
    | [] => None
    | _ :: _ => Some (sorted_len_reverse specials)
    end /\
  add_special_tokens vocab0 specials = Ok (vocab tk).
Proof.
  unfold __init__; destruct specials as [|s specials].
  - intros H; injection H as <-; auto.
  - destruct (add_special_tokens vocab0 (s :: specials)); simpl; [|discriminate].
    intros H; injection H as <-; auto.
Qed.

Lemma add_special_tokens_encodes (specials : list str) :
  forall vocab vocab',
    add_special_tokens vocab specials = Ok vocab' ->
    forall s, In s specials -> exists b, utf8_encode s = Ok b.
Proof.
  induction specials as [|t specials IH]; intros vocab vocab' H s Hin;
    [destruct Hin|].
  simpl in H; destruct (utf8_encode t) as [b|] eqn:Et; simpl in H;
    [|discriminate].
  destruct Hin as [<-|Hin]; [eauto|].
  exact (IH _ _ H s Hin).
Qed.

Lemma text_chunks_concat (tk : Tokenizer) (text : str) :
  concat (text_chunks tk text) = text.
Proof.
  unfold text_chunks; destruct (split_pattern tk).
  - apply re_split_concat.
  - simpl; apply app_nil_r.
Qed.

(** * Words *)

Lemma lookup_ids_length (vocab_to_id : list (bytes * Z)) (tokens : list bytes) ids :
  lookup_ids vocab_to_id tokens = Ok ids -> length ids = length tokens.
Proof.
  revert ids; induction tokens as [|t tokens IH]; intros ids; simpl.
  - intros H; injection H as <-; reflexivity.
  - destruct (dict_get bytes_eqb vocab_to_id t); [|discriminate].
    destruct (lookup_ids vocab_to_id tokens) as [ids'|]; simpl; [|discriminate].
    intros H; injection H as <-; simpl; f_equal; apply IH; reflexivity.
Qed.

Lemma merge_word_single (tk : Tokenizer) (b : bytes) :
  _merge_word tk [b] = lookup_ids (vocab_to_id tk) [b].
Proof. reflexivity. Qed.

Lemma merge_word_length (tk : Tokenizer) (word : list bytes) ids :
  _merge_word tk word = Ok ids -> length ids <= length word.
Proof.
  unfold _merge_word.
  destruct (final_units_total tk word) as (units & -> & _ & Hlen & _).
  intros H; apply lookup_ids_length in H; lia.
Qed.

(** * Summing over the pretokens *)

Lemma sum_merge_word_start (tk : Tokenizer) (items : list (result (list bytes))) :
  forall start,
    sum_merge_word tk start items =
    (ids <- sum_merge_word tk [] items ;; Ok (start ++ ids)).
Proof.
  induction items as [|item items IH]; intros start; simpl.
  - rewrite app_nil_r; reflexivity.
  - destruct item as [word|e]; simpl; [|reflexivity].
    destruct (_merge_word tk word) as [ids|e]; simpl; [|reflexivity].
    rewrite IH, (IH ids).
    destruct (sum_merge_word tk [] items); simpl; [|reflexivity].
    rewrite app_assoc; reflexivity.
Qed.

Lemma sum_merge_word_app (tk : Tokenizer) (l1 l2 : list (result (list bytes))) :
  sum_merge_word tk [] (l1 ++ l2) =
  (ids1 <- sum_merge_word tk [] l1 ;;
   ids2 <- sum_merge_word tk [] l2 ;;
   Ok (ids1 ++ ids2)).
Proof.
  induction l1 as [|item l1 IH]; simpl.
  - destruct (sum_merge_word tk [] l2); reflexivity.
  - destruct item as [word|e]; simpl; [|reflexivity].
    destruct (_merge_word tk word) as [ids|e]; simpl; [|reflexivity].
    rewrite sum_merge_word_start, IH, (sum_merge_word_start tk l1 ids).
    destruct (sum_merge_word tk [] l1); simpl; [|reflexivity].
    destruct (sum_merge_word tk [] l2); simpl; [|reflexivity].
    rewrite app_assoc; reflexivity.
Qed.

Section Chunks.
Variable finditer : str -> list str.

Lemma encode_chunks (tk : Tokenizer) (chunks : list str) :
  sum_merge_word tk [] (flat_map (pretokenize_chunk finditer tk) chunks) =
  match chunks with
  | [] => Ok []
  | chunk :: rest =>
      ids1 <- chunk_ids finditer tk chunk ;;
      ids2 <- sum_merge_word tk []
                (flat_map (pretokenize_chunk finditer tk) rest) ;;
      Ok (ids1 ++ ids2)
  end.
Proof.
  destruct chunks as [|chunk rest]; [reflexivity|].
  simpl; apply sum_merge_word_app.
Qed.

Lemma chunk_ids_special (tk : Tokenizer) (chunk : str) (b : bytes) :
  In chunk (special_tokens tk) ->
  utf8_encode chunk = Ok b ->
  chunk_ids finditer tk chunk = lookup_ids (vocab_to_id tk) [b].
Proof.
  intros Hin Hb; unfold chunk_ids, pretokenize_chunk.
  rewrite (proj2 (str_in_true chunk (special_tokens tk)) Hin), Hb.
  cbn [bind sum_merge_word]; rewrite merge_word_single.
  generalize (lookup_ids (vocab_to_id tk) [b]); intros [ids|e]; reflexivity.
Qed.

Hypothesis finditer_splits : splits_text finditer.

Lemma sum_empty_words (tk : Tokenizer) (words : list str) :
  concat words = [] ->
  sum_merge_word tk []
    (map (fun word => bs <- utf8_encode word ;; Ok (map (fun b => [b]) bs))
       words) = Ok [].
Proof.
  induction words as [|w words IH]; intros Hc; [reflexivity|].
  simpl in Hc; apply app_eq_nil in Hc; destruct Hc as [-> Hc].
  simpl; rewrite sum_merge_word_start, (IH Hc); reflexivity.
Qed.

Lemma chunk_ids_empty (tk : Tokenizer) :
  ~ In [] (special_tokens tk) -> chunk_ids finditer tk [] = Ok [].
Proof.
  intros Hnot; unfold chunk_ids, pretokenize_chunk.
  destruct (str_in [] (special_tokens tk)) eqn:E.
  - apply str_in_true in E; contradiction.
  - apply sum_empty_words, finditer_splits.
Qed.

End Chunks.

(** * Longest special token first *)

Lemma forallb_nonempty (specials : list str) :
  forallb nonempty specials = true -> ~ In [] specials.
Proof.
  rewrite forallb_forall; intros H Hin; specialize (H [] Hin); discriminate.
Qed.

Lemma first_match_at_end (specials : list str) :
  ~ In [] specials -> first_match (sorted_len_reverse specials) [] = None.
Proof.
  intros Hnot; apply first_match_none; intros lit Hin.
  destruct (starts_with lit []) eqn:E; [|reflexivity].
  apply starts_with_nil in E; subst lit.
  destruct (Hnot (proj1 (sorted_len_reverse_in _ _) Hin)).
Qed.

Lemma split_special_alone (specials : list str) (L : str) :
  ~ In [] specials -> In L specials ->
  re_split (sorted_len_reverse specials) L = [[]; L; []].
Proof.
  intros Hnot Hin; unfold re_split.
  assert (Hne : L <> []) by (intros ->; contradiction).
  rewrite <- (app_nil_r L) at 1.
  rewrite re_split_go_match; [| exact Hne |].
  - rewrite re_split_go_end by (apply first_match_at_end; exact Hnot).
    reflexivity.
  - apply first_match_exact; [exact Hin|].
    intros T _ HT; rewrite app_nil_r in HT.
    apply starts_with_length; exact HT.
Qed.

Lemma encode_special_alone finditer vocab0 merges0 specials tk L :
  splits_text finditer ->
  __init__ vocab0 merges0 specials = Ok tk ->
  forallb nonempty specials = true ->
  In L specials ->
  text_chunks tk L = [[]; L; []] /\
  exists b,
    utf8_encode L = Ok b /\
    encode finditer tk L = lookup_ids (vocab_to_id tk) [b].
Proof.
  intros Hsplit Hinit Hne Hin.
  destruct (init_fields _ _ _ _ Hinit) as (Hsp & Hpat & Hadd).
  pose proof (forallb_nonempty _ Hne) as Hnot.
  assert (Hchunks : text_chunks tk L = [[]; L; []]).
  { unfold text_chunks; rewrite Hpat.
    destruct specials as [|s0 specials']; [destruct Hin|].
    apply split_special_alone; assumption. }
  split; [exact Hchunks|].
  destruct (add_special_tokens_encodes _ _ _ Hadd L Hin) as [b Hb].
  exists b; split; [exact Hb|].
  unfold encode, pretokenize; rewrite Hchunks.
  rewrite encode_chunks, chunk_ids_empty by (auto; rewrite Hsp; exact Hnot).
  rewrite encode_chunks, (chunk_ids_special finditer tk L b)
    by (auto; rewrite Hsp; exact Hin).
  rewrite encode_chunks, chunk_ids_empty by (auto; rewrite Hsp; exact Hnot).
  cbn [bind flat_map sum_merge_word].
  generalize (lookup_ids (vocab_to_id tk) [b]); intros [ids|e]; simpl;
    [rewrite app_nil_r|]; reflexivity.
Qed.

(** C5.  Special tokens are matched longest-first: the alternatives of the
    split pattern are the special tokens in descending order of length, so
    at a position where a special token matches, the token chosen is at
    least as long as it, and a shorter token that is a prefix of a longer one
    does not pre-empt it.  With [<|endoftext|>] and [<|endoftext|><|pad|>]
    both configured, text equal to the longer literal is encoded as the
    single id of the longer token. *)
Theorem longest_special_token_first :
  (forall vocab0 merges0 specials tk,
     __init__ vocab0 merges0 specials = Ok tk ->
     specials <> [] ->
     exists literals,
       split_pattern tk = Some literals /\
       StronglySorted longer_first literals /\
       (forall s, In s literals <-> In s specials)) /\
  (forall specials L s,
     In L specials -> starts_with L s = true ->
     exists T,
       first_match (sorted_len_reverse specials) s = Some T /\
       starts_with T s = true /\ In T specials /\ length L <= length T) /\
  (forall finditer vocab0 merges0 specials tk L,
     splits_text finditer ->
     __init__ vocab0 merges0 specials = Ok tk ->
     forallb nonempty specials = true ->
     In L specials ->
     text_chunks tk L = [[]; L; []] /\
     exists b,
       utf8_encode L = Ok b /\
       encode finditer tk L = lookup_ids (vocab_to_id tk) [b]) /\
  (forall finditer,
     splits_text finditer ->
     exists tk,
       __init__ vocab_bytes [] [endoftext; endoftext_pad] = Ok tk /\
       dict_get Z.eqb (vocab tk) 256%Z = Some endoftext /\
       dict_get Z.eqb (vocab tk) 257%Z = Some endoftext_pad /\
       encode finditer tk endoftext_pad = Ok [257%Z]).
Proof.
  split; [|split; [|split]].
  - intros vocab0 merges0 specials tk Hinit Hne.
    destruct (init_fields _ _ _ _ Hinit) as (_ & Hpat & _).
    destruct specials as [|s0 specials']; [contradiction|].
    exists (sorted_len_reverse (s0 :: specials')); repeat split.
    + exact Hpat.
    + apply sorted_len_reverse_sorted.
    + apply sorted_len_reverse_in.
    + apply sorted_len_reverse_in.
  - exact first_match_longest.
  - exact encode_special_alone.
  - intros finditer Hsplit.
    destruct (__init__ vocab_bytes [] [endoftext; endoftext_pad])
      as [tk|e] eqn:Hinit; [|vm_compute in Hinit; discriminate].
    exists tk; split; [reflexivity|].
    destruct (encode_special_alone finditer _ _ _ tk endoftext_pad
                Hsplit Hinit eq_refl (or_intror (or_introl eq_refl)))
      as (_ & b & Hb & Henc).
    rewrite Henc.
    vm_compute in Hb; injection Hb as <-.
    vm_compute in Hinit; injection Hinit as <-.
    repeat split; vm_compute; reflexivity.
Qed.

Lemma finditer_whole_splits : splits_text finditer_whole.
Proof. intros [|c s]; simpl; [|rewrite app_nil_r]; reflexivity. Qed.

Lemma longest_special_token_first_witness :
  exists tk b,
    __init__ vocab_bytes [] [endoftext; endoftext_pad] = Ok tk /\
    utf8_encode endoftext_pad = Ok b /\
    encode finditer_whole tk endoftext_pad = lookup_ids (vocab_to_id tk) [b].
Proof.
  eexists.
  destruct (proj1 (proj2 (proj2 longest_special_token_first))
              finditer_whole vocab_bytes [] [endoftext; endoftext_pad] _
              endoftext_pad finditer_whole_splits eq_refl eq_refl
              (or_intror (or_introl eq_refl))) as (_ & b & Hb & Henc).
  exists b; split; [reflexivity | split; [exact Hb | exact Henc]].
Defined.

(** * Special tokens inside text *)

Lemma no_longer_match_true (specials : list str) (S s : str) :
  no_longer_match specials S s = true ->
  forall T, In T specials -> starts_with T s = true -> length T <= length S.
Proof.
  unfold no_longer_match; rewrite forallb_forall; intros H T Hin HT.
  specialize (H T Hin); rewrite HT in H; simpl in H.
  apply Nat.leb_le; exact H.
Qed.

Lemma split_around_special (specials : list str) (u S v : str) :
  In S specials ->
  matches_within specials (length u) (u ++ S ++ v) = false ->
  no_longer_match specials S (S ++ v) = true ->
  contains_literal specials v = false ->
  re_split (sorted_len_reverse specials) (u ++ S ++ v) = [u; S; v] /\
  re_split (sorted_len_reverse specials) u = [u] /\
  re_split (sorted_len_reverse specials) v = [v].
Proof.
  intros Hin Hu Hlong Hv.
  pose proof (contains_literal_false _ _ Hv) as Hv'.
  assert (Hend : first_match specials [] = None).
  { specialize (Hv' (length v)); rewrite skipn_all in Hv'; exact Hv'. }
  assert (HS : S <> []).
  { intros ->; rewrite first_match_none in Hend.
    specialize (Hend [] Hin); discriminate. }
  assert (Hbefore : forall i, i < length u ->
            first_match specials (skipn i (u ++ S ++ v)) = None).
  { apply matches_within_false; [exact Hu | rewrite length_app; lia]. }
  assert (Hplain_v : re_split (sorted_len_reverse specials) v = [v]).
  { apply re_split_plain; intros i; apply first_match_sorted_none, Hv'. }
  split; [|split; [|exact Hplain_v]].
  - unfold re_split; rewrite re_split_go_no_match
      by (intros i Hi; apply first_match_sorted_none, Hbefore; exact Hi).
    rewrite re_split_go_match; [| exact HS |].
    + fold (re_split (sorted_len_reverse specials) v); rewrite Hplain_v.
      reflexivity.
    + apply first_match_exact; [exact Hin|].
      apply no_longer_match_true; exact Hlong.
  - apply re_split_plain; intros i; apply first_match_sorted_none.
    destruct (Nat.lt_ge_cases i (length u)) as [Hi|Hi].
    + specialize (Hbefore i Hi).
      rewrite first_match_none in Hbefore |- *; intros lit Hlit.
      specialize (Hbefore lit Hlit).
      destruct (starts_with lit (skipn i u)) eqn:E; [|reflexivity].
      apply starts_with_longer with (rest := S ++ v) in E.
      rewrite skipn_app in Hbefore.
      replace (i - length u) with 0 in Hbefore by lia.
      simpl in Hbefore; congruence.
    + rewrite skipn_all2 by lia; exact Hend.
Qed.

(** C4 fails as stated, in two ways.  With [<|endoftext|>] and
    [<|endoftext|><|pad|>] configured, [u] empty and [v = <|pad|>] hold no
    special token, yet [u + <|endoftext|> + v] is encoded as the single id
    257 of the longer token and not as [encode(u) ++ [256] ++ encode(v)].
    With the one special token [aa], [u = a] and [v] empty hold no special
    token, yet in [u + aa + v = aaa] the token is found one position early
    and the ids are [[256, 97]], not [[97, 256]]. *)
Lemma special_token_neighbours_counterexample :
  (exists tk,
     __init__ vocab_bytes [] [endoftext; endoftext_pad] = Ok tk /\
     In endoftext (special_tokens tk) /\
     contains_literal (special_tokens tk) [] = false /\
     contains_literal (special_tokens tk) pad = false /\
     encode finditer_whole tk ([] ++ endoftext ++ pad) = Ok [257%Z] /\
     encode_around finditer_whole tk [] endoftext pad =
       Ok [256; 60; 124; 112; 97; 100; 124; 62]%Z) /\
  (exists tk,
     __init__ vocab_bytes [] [[97; 97]%Z] = Ok tk /\
     In [97; 97]%Z (special_tokens tk) /\
     contains_literal (special_tokens tk) [97%Z] = false /\
     contains_literal (special_tokens tk) [] = false /\
     encode finditer_whole tk ([97] ++ [97; 97] ++ [])%Z = Ok [256; 97]%Z /\
     encode_around finditer_whole tk [97%Z] [97; 97]%Z [] = Ok [97; 256]%Z).
Proof.
  split; eexists; (split; [reflexivity|]); (split; [simpl; auto|]);
    repeat split; vm_compute; reflexivity.
Qed.

(** C4, amended.  For every configured special token [S] and all strings
    [u] and [v] such that no special token matches in [u + S + v] at a
    position inside [u], no special token longer than [S] matches where [S]
    starts, and [v] holds no special token, [encode(u + S + v)] equals
    [encode(u) ++ [id(S)] ++ encode(v)]: [S] is emitted as one vocabulary id
    and the encodings of [u] and [v] are unaffected. *)
Theorem special_token_is_isolated :
  forall finditer vocab0 merges0 specials tk S u v,
    __init__ vocab0 merges0 specials = Ok tk ->
    In S specials ->
    matches_within specials (length u) (u ++ S ++ v) = false ->
    no_longer_match specials S (S ++ v) = true ->
    contains_literal specials v = false ->
    encode finditer tk (u ++ S ++ v) = encode_around finditer tk u S v.
Proof.
  intros finditer vocab0 merges0 specials tk S u v Hinit Hin Hu Hlong Hv.
  destruct (init_fields _ _ _ _ Hinit) as (Hsp & Hpat & Hadd).
  destruct (split_around_special specials u S v Hin Hu Hlong Hv)
    as (Huv & Hu' & Hv').
  destruct (add_special_tokens_encodes _ _ _ Hadd S Hin) as [b Hb].
  assert (Hpat' : split_pattern tk = Some (sorted_len_reverse specials)).
  { rewrite Hpat; destruct specials; [destruct Hin | reflexivity]. }
  unfold encode_around, encode, pretokenize, text_chunks.
  rewrite Hpat', Huv, Hu', Hv', Hb.
  rewrite !encode_chunks.
  rewrite (chunk_ids_special finditer tk S b) by (auto; rewrite Hsp; exact Hin).
  cbn [flat_map sum_merge_word bind].
  destruct (chunk_ids finditer tk u) as [ids_u|e]; cbn [bind]; [|reflexivity].
  rewrite app_nil_r.
  generalize (lookup_ids (vocab_to_id tk) [b]); intros [id_S|e]; cbn [bind];
    [|reflexivity].
  destruct (chunk_ids finditer tk v) as [ids_v|e]; cbn [bind]; [|reflexivity].
  rewrite app_nil_r; reflexivity.
Qed.

Lemma special_token_is_isolated_witness :
  exists tk,
    __init__ vocab_bytes [] [endoftext; endoftext_pad] = Ok tk /\
    encode finditer_whole tk ([97; 98] ++ endoftext ++ [99])%Z =
    encode_around finditer_whole tk [97; 98]%Z endoftext [99%Z].
Proof.
  eexists; split; [reflexivity|].
  apply (special_token_is_isolated finditer_whole vocab_bytes []
           [endoftext; endoftext_pad] _ endoftext [97; 98]%Z [99%Z]).
  - reflexivity.
  - simpl; auto.
  - vm_compute; reflexivity.
  - vm_compute; reflexivity.
  - vm_compute; reflexivity.
Defined.

(** * Length of the encoding *)

Section LengthBound.
Variable finditer : str -> list str.
Hypothesis finditer_splits : splits_text finditer.
Variable tk : Tokenizer.

Lemma words_length_bound (words : list str) :
  forall ids,
    sum_merge_word tk []
      (map (fun word => bs <- utf8_encode word ;; Ok (map (fun b => [b]) bs))
         words) = Ok ids ->
    exists bs,
      utf8_encode (concat words) = Ok bs /\ length ids <= length bs.
Proof.
  induction words as [|w words IH]; intros ids.
  - simpl; intros H; injection H as <-; exists []; auto.
  - cbn [map sum_merge_word concat].
    destruct (utf8_encode w) as [bw|] eqn:Ew; cbn [bind]; [|discriminate].
    destruct (_merge_word tk (map (fun b => [b]) bw)) as [idw|] eqn:Em;
      cbn [bind]; [|discriminate].
    rewrite sum_merge_word_start.
    destruct (sum_merge_word tk [] _) as [r|] eqn:Er; cbn [bind];
      [|discriminate].
    intros H; injection H as <-.
    destruct (IH r eq_refl) as (bs' & Hbs' & Hlen).
    exists (bw ++ bs'); split.
    + rewrite utf8_encode_app, Ew, Hbs'; reflexivity.
    + apply merge_word_length in Em; rewrite length_map in Em.
      rewrite !length_app; simpl; lia.
Qed.

Lemma chunk_length_bound (chunk : str) (ids : list Z) :
  (In chunk (special_tokens tk) -> chunk <> []) ->
  chunk_ids finditer tk chunk = Ok ids ->
  exists bs, utf8_encode chunk = Ok bs /\ length ids <= length bs.
Proof.
  intros Hne; unfold chunk_ids, pretokenize_chunk.
  destruct (str_in chunk (special_tokens tk)) eqn:E.
  - apply str_in_true in E; specialize (Hne E).
    cbn [sum_merge_word].
    destruct (utf8_encode chunk) as [b|] eqn:Eb; cbn [bind]; [|discriminate].
    destruct (_merge_word tk [b]) as [idw|] eqn:Em; cbn [bind]; [|discriminate].
    intros H; injection H as <-.
    exists b; split; [reflexivity|].
    apply merge_word_length in Em; simpl in Em |- *.
    destruct (utf8_encode_bytes _ _ Eb) as [_ Hlen].
    destruct chunk; [contradiction | simpl in Hlen; lia].
  - intros H; apply words_length_bound in H.
    rewrite finditer_splits in H; exact H.
Qed.

Lemma chunks_length_bound (chunks : list str) :
  (forall chunk, In chunk chunks -> In chunk (special_tokens tk) -> chunk <> []) ->
  forall ids,
    sum_merge_word tk [] (flat_map (pretokenize_chunk finditer tk) chunks)
      = Ok ids ->
    exists bs, utf8_encode (concat chunks) = Ok bs /\ length ids <= length bs.
Proof.
  induction chunks as [|chunk chunks IH]; intros Hne ids.
  - simpl; intros H; injection H as <-; exists []; auto.
  - rewrite encode_chunks.
    destruct (chunk_ids finditer tk chunk) as [ids1|] eqn:E1; cbn [bind];
      [|discriminate].
    destruct (sum_merge_word tk [] _) as [ids2|] eqn:E2; cbn [bind];
      [|discriminate].
    intros H; injection H as <-.
    destruct (chunk_length_bound chunk ids1 (Hne chunk (or_introl eq_refl)) E1)
      as (b1 & Hb1 & Hl1).
    destruct (IH (fun c Hc => Hne c (or_intror Hc)) ids2 eq_refl)
      as (b2 & Hb2 & Hl2).
    exists (b1 ++ b2); split.
    + cbn [concat]; rewrite utf8_encode_app, Hb1, Hb2; reflexivity.
    + rewrite !length_app; lia.
Qed.

End LengthBound.

(** C10 fails as stated: when the empty string is configured as a special
    token, the empty text is encoded as three ids and the one-byte text [a]
    as five. *)
Lemma empty_special_token_counterexample :
  exists tk,
    __init__ vocab_bytes [] [[]] = Ok tk /\
    utf8_encode [] = Ok [] /\
    encode finditer_whole tk [] = Ok [256; 256; 256]%Z /\
    utf8_encode [97%Z] = Ok [97%Z] /\
    encode finditer_whole tk [97%Z] = Ok [256; 256; 97; 256; 256]%Z.
Proof. eexists; repeat split; vm_compute; reflexivity. Qed.

(** C10, amended.  For every tokenizer none of whose special tokens is the
    empty string and every string [t] that [encode] accepts,
    [len(encode(t))] is at most the number of bytes of the UTF-8 encoding of
    [t]. *)
Theorem encode_length_at_most_bytes :
  forall finditer vocab0 merges0 specials tk t ids,
    splits_text finditer ->
    __init__ vocab0 merges0 specials = Ok tk ->
    forallb nonempty specials = true ->
    encode finditer tk t = Ok ids ->
    exists bs, utf8_encode t = Ok bs /\ length ids <= length bs.
Proof.
  intros finditer vocab0 merges0 specials tk t ids Hsplit Hinit Hne Henc.
  destruct (init_fields _ _ _ _ Hinit) as (Hsp & _ & _).
  unfold encode, pretokenize in Henc.
  apply (chunks_length_bound finditer Hsplit) in Henc.
  - rewrite text_chunks_concat in Henc; exact Henc.
  - intros chunk _ Hin ->; rewrite Hsp in Hin.
    exact (forallb_nonempty _ Hne Hin).
Qed.

Lemma encode_length_at_most_bytes_witness :
  exists tk ids bs,
    __init__ vocab_abc merges_abc [endoftext] = Ok tk /\
    encode finditer_whole tk ([97; 98; 99] ++ endoftext)%Z = Ok ids /\
    utf8_encode ([97; 98; 99] ++ endoftext)%Z = Ok bs /\
    length ids <= length bs.
Proof.
  eexists; eexists.
  destruct (encode_length_at_most_bytes finditer_whole vocab_abc merges_abc
              [endoftext] _ ([97; 98; 99] ++ endoftext)%Z _
              finditer_whole_splits eq_refl eq_refl eq_refl)
    as (bs & Hbs & Hlen).
  exists bs; repeat split; [exact Hbs | exact Hlen].
Defined.

(** * Dense vocabularies *)

Lemma distinct_true (l : list Z) : distinct l = true <-> NoDup l.
Proof.
  induction l as [|k l IH]; simpl.
  - split; [constructor | reflexivity].
  - rewrite andb_true_iff, negb_true_iff, IH; split.
    + intros [Hk Hl]; constructor; [|exact Hl].
      intros Hin.
      assert (Hex : existsb (Z.eqb k) l = true).
      { apply existsb_exists; exists k; split; [exact Hin | apply Z.eqb_refl]. }
      congruence.
    + intros H; inversion H as [|? ? Hnot Hl]; subst; split; [|exact Hl].
      destruct (existsb (Z.eqb k) l) eqn:E; [|reflexivity].
      apply existsb_exists in E; destruct E as (x & Hx & Hkx).
      apply Z.eqb_eq in Hkx; subst; contradiction.
Qed.

Lemma dense_ids_true (vocab : list (Z * bytes)) :
  dense_ids vocab = true <->
  NoDup (map fst vocab) /\
  forall k, In k (map fst vocab) -> (0 <= k < Z.of_nat (length vocab))%Z.
Proof.
  unfold dense_ids; rewrite andb_true_iff, distinct_true, forallb_forall.
  split; intros [Hnd Hk]; split; auto; intros k Hin.
  - specialize (Hk k Hin); apply andb_true_iff in Hk.
    rewrite Z.leb_le, Z.ltb_lt in Hk; exact Hk.
  - apply andb_true_iff; rewrite Z.leb_le, Z.ltb_lt; auto.
Qed.

Lemma dict_set_fresh (d : list (Z * bytes)) (k : Z) (v : bytes) :
  ~ In k (map fst d) -> dict_set Z.eqb d k v = d ++ [(k, v)].
Proof.
  induction d as [|[k0 v0] d IH]; intros Hnot; [reflexivity|].
  simpl in *; destruct (Z.eqb_spec k0 k) as [->|Hne]; [exfalso; auto|].
  rewrite IH by tauto; reflexivity.
Qed.

Lemma add_special_token_dense (vocab : list (Z * bytes)) (b : bytes) :
  dense_ids vocab = true ->
  let vocab' :=
    if in_values b vocab then vocab
    else dict_set Z.eqb vocab (Z.of_nat (length vocab)) b in
  dense_ids vocab' = true /\
  In b (map snd vocab') /\
  forall x, In x (map snd vocab) -> In x (map snd vocab').
Proof.
  intros Hd; simpl.
  destruct (in_values b vocab) eqn:E.
  - apply in_values_true in E; auto.
  - apply dense_ids_true in Hd; destruct Hd as [Hnd Hk].
    assert (Hfresh : ~ In (Z.of_nat (length vocab)) (map fst vocab)).
    { intros Hin; specialize (Hk _ Hin); lia. }
    rewrite dict_set_fresh by exact Hfresh.
    rewrite !map_app; simpl; repeat split.
    + apply dense_ids_true; rewrite map_app, length_app; simpl; split.
      * apply NoDup_app; repeat split; auto.
        -- constructor; [intros [] | constructor].
        -- intros k Hin [<-|[]]; contradiction.
      * intros k Hin; apply in_app_iff in Hin; destruct Hin as [Hin|[<-|[]]].
        -- specialize (Hk k Hin); lia.
        -- lia.
    + apply in_app_iff; simpl; auto.
    + intros x Hx; apply in_app_iff; auto.
Qed.

Lemma add_special_tokens_dense (specials : list str) :
  forall vocab vocab',
    dense_ids vocab = true ->
    add_special_tokens vocab specials = Ok vocab' ->
    dense_ids vocab' = true /\
    (forall x, In x (map snd vocab) -> In x (map snd vocab')) /\
    (forall s, In s specials ->
       exists b, utf8_encode s = Ok b /\ In b (map snd vocab')).
Proof.
  induction specials as [|t specials IH]; intros vocab vocab' Hd H.
  - simpl in H; injection H as <-; repeat split; auto; intros s [].
  - simpl in H; destruct (utf8_encode t) as [b|] eqn:Et; cbn [bind] in H;
      [|discriminate].
    destruct (add_special_token_dense vocab b Hd) as (Hd1 & Hb1 & Hmono1).
    destruct (IH _ _ Hd1 H) as (Hd' & Hmono & Hsp).
    repeat split; auto.
    intros s [<-|Hin]; [|exact (Hsp s Hin)].
    exists b; auto.
Qed.

(** * The round trip *)

Lemma join_vocab_app (vocab : list (Z * bytes)) (ids1 ids2 : list Z) :
  join_vocab vocab (ids1 ++ ids2) =
  (b1 <- join_vocab vocab ids1 ;;
   b2 <- join_vocab vocab ids2 ;;
   Ok (b1 ++ b2)).
Proof.
  induction ids1 as [|id ids1 IH]; simpl.
  - destruct (join_vocab vocab ids2); reflexivity.
  - destruct (dict_get Z.eqb vocab id); [|reflexivity].
    rewrite IH.
    destruct (join_vocab vocab ids1); simpl; [|reflexivity].
    destruct (join_vocab vocab ids2); simpl; [|reflexivity].
    rewrite app_assoc; reflexivity.
Qed.

Lemma join_vocab_units (vocab : list (Z * bytes)) (units : list bytes)
    (ids : list Z) :
  NoDup (map fst vocab) ->
  Forall2 (fun u id => In (id, u) vocab) units ids ->
  join_vocab vocab ids = Ok (concat units).
Proof.
  intros Hnd; induction 1 as [|u id units ids Hin _ IH]; [reflexivity|].
  simpl; rewrite (dict_get_unique _ _ _ Z_eqb_true _ _ _ Hnd Hin), IH.
  reflexivity.
Qed.

Lemma utf8_encode_app_inv (s1 s2 : str) (bs : bytes) :
  utf8_encode (s1 ++ s2) = Ok bs ->
  exists b1 b2,
    utf8_encode s1 = Ok b1 /\ utf8_encode s2 = Ok b2 /\ bs = b1 ++ b2.
Proof.
  rewrite utf8_encode_app.
  destruct (utf8_encode s1) as [b1|]; simpl; [|discriminate].
  destruct (utf8_encode s2) as [b2|]; simpl; [|discriminate].
  intros H; injection H as <-; eauto.
Qed.

Lemma concat_singletons (bs : bytes) : concat (map (fun b => [b]) bs) = bs.
Proof. induction bs as [|b bs IH]; simpl; [|rewrite IH]; reflexivity. Qed.

(** * Keys and special tokens of the constructed vocabulary *)

Lemma dict_set_keys_present (d : list (Z * bytes)) (k : Z) (v : bytes) :
  In k (map fst d) -> map fst (dict_set Z.eqb d k v) = map fst d.
Proof.
  induction d as [|[k0 v0] d IH]; [intros []|].
  simpl; destruct (Z.eqb_spec k0 k) as [->|Hne]; [reflexivity|].
  intros [Heq|Hin]; [contradiction|]; simpl; rewrite IH by exact Hin.
  reflexivity.
Qed.

Lemma dict_set_keys_nodup (d : list (Z * bytes)) (k : Z) (v : bytes) :
  NoDup (map fst d) -> NoDup (map fst (dict_set Z.eqb d k v)).
Proof.
  intros Hnd; destruct (in_dec Z.eq_dec k (map fst d)) as [Hin|Hnot].
  - rewrite dict_set_keys_present by exact Hin; exact Hnd.
  - rewrite dict_set_fresh by exact Hnot.
    rewrite map_app; cbn [map fst]; apply NoDup_app; [exact Hnd | |].
    + constructor; [intros [] | constructor].
    + intros x Hx [<-|[]]; contradiction.
Qed.

Lemma add_special_tokens_keys_nodup (specials : list str) :
  forall vocab vocab',
    NoDup (map fst vocab) ->
    add_special_tokens vocab specials = Ok vocab' ->
    NoDup (map fst vocab').
Proof.
  induction specials as [|s specials IH]; intros vocab vocab' Hnd.
  - simpl; intros H; injection H as <-; exact Hnd.
  - cbn [add_special_tokens].
    destruct (utf8_encode s) as [b|]; cbn [bind]; [|discriminate].
    apply IH; destruct (in_values b vocab); [exact Hnd|].
    apply dict_set_keys_nodup; exact Hnd.
Qed.

Lemma init_keys_nodup vocab0 merges0 specials tk :
  distinct (map fst vocab0) = true ->
  __init__ vocab0 merges0 specials = Ok tk ->
  NoDup (map fst (vocab tk)).
Proof.
  intros Hd Hinit; apply distinct_true in Hd.
  destruct (init_fields _ _ _ _ Hinit) as (_ & _ & Hadd).
  exact (add_special_tokens_keys_nodup specials vocab0 (vocab tk) Hd Hadd).
Qed.

Lemma special_tokens_in_vocab_true (tk : Tokenizer) :
  special_tokens_in_vocab tk = true <->
  forall s, In s (special_tokens tk) ->
    exists b, utf8_encode s = Ok b /\ In b (map snd (vocab tk)).
Proof.
  unfold special_tokens_in_vocab; rewrite forallb_forall; split.
  - intros H s Hs; specialize (H s Hs).
    destruct (utf8_encode s) as [b|]; [|discriminate].
    exists b; split; [reflexivity | apply in_values_true; exact H].
  - intros H s Hs; destruct (H s Hs) as (b & -> & Hin).
    apply in_values_true; exact Hin.
Qed.

(** When the ids of the given vocabulary are [0 .. N-1], no entry is
    overwritten and every special token has its entry. *)
Lemma dense_ids_special_tokens_in_vocab vocab0 merges0 specials tk :
  dense_ids vocab0 = true ->
  __init__ vocab0 merges0 specials = Ok tk ->
  distinct (map fst vocab0) = true /\ special_tokens_in_vocab tk = true.
Proof.
  intros Hd Hinit; split.
  - unfold dense_ids in Hd; apply andb_true_iff in Hd; tauto.
  - destruct (init_fields _ _ _ _ Hinit) as (Hsp & _ & Hadd).
    destruct (add_special_tokens_dense _ _ _ Hd Hadd) as (_ & _ & Hpresent).
    apply special_tokens_in_vocab_true; rewrite Hsp; exact Hpresent.
Qed.

Section RoundTrip.
Variable finditer : str -> list str.
Hypothesis finditer_splits : splits_text finditer.
Variable tk : Tokenizer.
Hypothesis keys_unique : NoDup (map fst (vocab tk)).
Hypothesis reverse_lookup : vocab_to_id tk = build_vocab_to_id (vocab tk).
Hypothesis ranks : merge_ranks tk = build_merge_ranks (merges tk).
Hypothesis all_bytes : covers_all_bytes (vocab tk) = true.
Hypothesis closed : merges_closed (merges tk) (vocab tk) = true.
Hypothesis specials_present :
  forall s, In s (special_tokens tk) ->
    exists b, utf8_encode s = Ok b /\ In b (map snd (vocab tk)).

Lemma byte_in_vocab (b : Z) :
  is_byte b = true -> In [b] (map snd (vocab tk)).
Proof.
  unfold is_byte; rewrite andb_true_iff, Z.leb_le, Z.ltb_lt; intros Hb.
  unfold covers_all_bytes in all_bytes; rewrite forallb_forall in all_bytes.
  specialize (all_bytes (Z.to_nat b)).
  rewrite Z2Nat.id in all_bytes by lia.
  apply in_values_true, all_bytes, in_seq; lia.
Qed.

Lemma merged_in_vocab (p : pair) (r : nat) :
  dict_get pair_eqb (merge_ranks tk) p = Some r ->
  In (fst p ++ snd p) (map snd (vocab tk)).
Proof.
  rewrite ranks; intros H; apply merge_ranks_in_merges in H.
  unfold merges_closed in closed; rewrite forallb_forall in closed.
  apply in_values_true, closed; exact H.
Qed.

Lemma merge_loop_in_vocab (fuel : nat) :
  forall tokens units,
    (forall u, In u tokens -> In u (map snd (vocab tk))) ->
    merge_loop (merge_ranks tk) fuel tokens = Some units ->
    forall u, In u units -> In u (map snd (vocab tk)).
Proof.
  induction fuel as [|fuel IH]; intros tokens units Hall; [discriminate|].
  rewrite merge_loop_unfold.
  destruct (best_pair_of (merge_ranks tk) tokens) as [bp|] eqn:E.
  - apply IH; intros u Hu.
    apply greedy_units in Hu; destruct Hu as [->|Hu]; [|auto].
    destruct (best_pair_of_some _ _ _ E) as (_ & r & Hr & _).
    exact (merged_in_vocab bp r Hr).
  - intros H; injection H as <-; exact Hall.
Qed.

Lemma word_round_trip (word : list bytes) :
  (forall u, In u word -> In u (map snd (vocab tk))) ->
  exists ids,
    _merge_word tk word = Ok ids /\
    join_vocab (vocab tk) ids = Ok (concat word).
Proof.
  intros Hall; unfold _merge_word.
  destruct (final_units_total tk word) as (units & Hunits & _ & _ & Hconcat).
  rewrite Hunits, reverse_lookup.
  destruct (lookup_ids_ok (vocab tk) units) as (ids & Hids & Hall2).
  { exact (merge_loop_in_vocab _ _ _ Hall Hunits). }
  exists ids; split; [exact Hids|].
  rewrite <- Hconcat; apply join_vocab_units; assumption.
Qed.

Lemma words_round_trip (words : list str) :
  forall bs,
    utf8_encode (concat words) = Ok bs ->
    exists ids,
      sum_merge_word tk []
        (map (fun word => bs <- utf8_encode word ;; Ok (map (fun b => [b]) bs))
           words) = Ok ids /\
      join_vocab (vocab tk) ids = Ok bs.
Proof.
  induction words as [|w words IH]; intros bs Hbs.
  - simpl in Hbs; injection Hbs as <-; exists []; auto.
  - cbn [concat] in Hbs; apply utf8_encode_app_inv in Hbs.
    destruct Hbs as (bw & bs' & Hw & Hws & ->).
    destruct (IH bs' Hws) as (ids' & Hsum & Hjoin).
    destruct (word_round_trip (map (fun b => [b]) bw)) as (idw & Hm & Hj).
    { intros u Hu; apply in_map_iff in Hu; destruct Hu as (b & <- & Hb).
      apply byte_in_vocab.
      destruct (utf8_encode_bytes _ _ Hw) as [Hbytes _].
      rewrite forallb_forall in Hbytes; exact (Hbytes b Hb). }
    rewrite concat_singletons in Hj.
    exists (idw ++ ids'); split.
    + cbn [map sum_merge_word]; rewrite Hw; cbn [bind]; rewrite Hm; cbn [bind].
      rewrite sum_merge_word_start, Hsum; reflexivity.
    + rewrite join_vocab_app, Hj, Hjoin; reflexivity.
Qed.

Lemma chunk_round_trip (chunk : str) (bs : bytes) :
  utf8_encode chunk = Ok bs ->
  exists ids,
    chunk_ids finditer tk chunk = Ok ids /\
    join_vocab (vocab tk) ids = Ok bs.
Proof.
  intros Hbs; unfold chunk_ids, pretokenize_chunk.
  destruct (str_in chunk (special_tokens tk)) eqn:E.
  - apply str_in_true in E.
    destruct (specials_present chunk E) as (b & Hb & Hin).
    assert (b = bs) by congruence; subst b.
    destruct (word_round_trip [bs]) as (ids & Hm & Hj).
    { intros u [<-|[]]; exact Hin. }
    exists ids; split.
    + cbn [sum_merge_word]; rewrite Hbs; cbn [bind]; rewrite Hm; reflexivity.
    + rewrite Hj; simpl; rewrite app_nil_r; reflexivity.
  - apply words_round_trip; rewrite finditer_splits; exact Hbs.
Qed.

Lemma chunks_round_trip (chunks : list str) :
  forall bs,
    utf8_encode (concat chunks) = Ok bs ->
    exists ids,
      sum_merge_word tk [] (flat_map (pretokenize_chunk finditer tk) chunks)
        = Ok ids /\
      join_vocab (vocab tk) ids = Ok bs.
Proof.
  induction chunks as [|chunk chunks IH]; intros bs Hbs.
  - simpl in Hbs; injection Hbs as <-; exists []; auto.
  - cbn [concat] in Hbs; apply utf8_encode_app_inv in Hbs.
    destruct Hbs as (b1 & b2 & H1 & H2 & ->).
    destruct (chunk_round_trip chunk b1 H1) as (ids1 & Hc & Hj1).
    destruct (IH b2 H2) as (ids2 & Hs & Hj2).
    exists (ids1 ++ ids2); split.
    + rewrite encode_chunks; fold (chunk_ids finditer tk chunk).
      rewrite Hc; cbn [bind]; rewrite Hs; reflexivity.
    + rewrite join_vocab_app, Hj1, Hj2; reflexivity.
Qed.

End RoundTrip.

(** C1 fails as stated.  [__init__] stores a missing special token under
    the id [len(vocab)]; when that id is in use, the entry is overwritten.
    With the 256 single bytes, [zz] under the id 257 and the special tokens
    [<A>] and [<B>], both tokens are written to the id 257 and only [<B>]
    stays: the vocabulary of the tokenizer holds every byte and the result
    of every merge rule, and [encode(<A>)] raises. *)
Lemma overwritten_special_token_counterexample :
  exists tk,
    __init__ vocab_gap [] [special_A; special_B] = Ok tk /\
    covers_all_bytes (vocab tk) = true /\
    merges_closed (merges tk) (vocab tk) = true /\
    forallb is_scalar_value special_A = true /\
    utf8_encode special_A = Ok [60; 65; 62]%Z /\
    dict_get Z.eqb (vocab tk) 257%Z = Some [60; 66; 62]%Z /\
    encode finditer_whole tk special_A
      = Raise (KeyError_vocab_to_id [60; 65; 62]%Z).
Proof. eexists; repeat split; vm_compute; reflexivity. Qed.

(** C1, amended.  For every tokenizer whose vocabulary contains every single
    byte [0 .. 255], the result of every merge rule and the UTF-8 bytes of
    every special token, and for every Unicode string [t], [encode(t)]
    returns ids and [decode(encode(t)) = t].  The tokenizer is any one that
    [__init__] builds from a vocabulary dict (no id twice), whatever its
    ids, merge rules and special tokens; the pretokenization regex is any
    one that splits a chunk into pretokens; a Unicode string is a sequence
    of scalar values. *)
Theorem decode_encode_round_trip :
  forall finditer vocab0 merges0 specials tk t,
    splits_text finditer ->
    distinct (map fst vocab0) = true ->
    __init__ vocab0 merges0 specials = Ok tk ->
    covers_all_bytes (vocab tk) = true ->
    merges_closed (merges tk) (vocab tk) = true ->
    special_tokens_in_vocab tk = true ->
    forallb is_scalar_value t = true ->
    exists ids,
      encode finditer tk t = Ok ids /\ decode tk ids = Ok t.
Proof.
  intros finditer vocab0 merges0 specials tk t Hsplit Hdict Hinit Hbytes
    Hclosed Hspecials Ht.
  destruct (init_merge_ranks _ _ _ _ Hinit) as [Hranks Hmerges].
  pose proof (init_vocab_to_id _ _ _ _ Hinit) as Hv2i.
  pose proof (init_keys_nodup _ _ _ _ Hdict Hinit) as Hkeys.
  destruct (utf8_encode_scalar t Ht) as [bs Hbs].
  destruct (chunks_round_trip finditer Hsplit tk Hkeys Hv2i
              ltac:(rewrite Hmerges; exact Hranks) Hbytes Hclosed
              (proj1 (special_tokens_in_vocab_true tk) Hspecials)
              (text_chunks tk t) bs) as (ids & Henc & Hjoin).
  { rewrite text_chunks_concat; exact Hbs. }
  exists ids; split; [exact Henc|].
  unfold decode; rewrite Hjoin; cbn [bind].
  rewrite (utf8_decode_encode t bs Hbs); reflexivity.
Qed.

Lemma decode_encode_round_trip_witness :
  exists tk ids,
    __init__ vocab_bytes_ab merges_ab [endoftext] = Ok tk /\
    encode finditer_whole tk ([97; 98; 8364] ++ endoftext ++ [98; 97])%Z
      = Ok ids /\
    decode tk ids = Ok ([97; 98; 8364] ++ endoftext ++ [98; 97])%Z.
Proof.
  eexists.
  destruct (decode_encode_round_trip finditer_whole vocab_bytes_ab merges_ab
              [endoftext] _ ([97; 98; 8364] ++ endoftext ++ [98; 97])%Z
              finditer_whole_splits eq_refl eq_refl eq_refl eq_refl eq_refl
              eq_refl)
    as (ids & Henc & Hdec).
  exists ids; split; [reflexivity | split; [exact Henc | exact Hdec]].
Defined.

(** * The byte table of GPT-2 *)

Lemma forallb_seq_Z (P : Z -> bool) (n : nat) :
  forallb (fun i => P (Z.of_nat i)) (seq 0 n) = true ->
  forall b, (0 <= b < Z.of_nat n)%Z -> P b = true.
Proof.
  intros H b Hb; rewrite forallb_forall in H.
  specialize (H (Z.to_nat b)); rewrite Z2Nat.id in H by lia.
  apply H, in_seq; lia.
Qed.

Lemma gpt2_table_get (b : Z) :
  (0 <= b < 256)%Z ->
  dict_get Z.eqb gpt2_bytes_to_unicode b = Some [gpt2_char b].
Proof.
  intros Hb.
  pose proof (forallb_seq_Z table_entry_ok 256
                ltac:(vm_compute; reflexivity) b Hb) as Hget.
  unfold table_entry_ok in Hget.
  destruct (dict_get Z.eqb gpt2_bytes_to_unicode b) as [[|c [|c' s]]|];
    try discriminate Hget.
  apply Z.eqb_eq in Hget; subst c; reflexivity.
Qed.

Lemma gpt2_table_keys (b : Z) :
  In b (map fst gpt2_bytes_to_unicode) -> (0 <= b < 256)%Z.
Proof.
  intros Hin.
  pose proof (proj1 (forallb_forall is_byte (map fst gpt2_bytes_to_unicode))
                ltac:(vm_compute; reflexivity) b Hin) as H.
  unfold is_byte in H; apply andb_true_iff in H.
  rewrite Z.leb_le, Z.ltb_lt in H; exact H.
Qed.

Ltac gpt2_char_cases b :=
  unfold gpt2_char;
  destruct (Z.leb_spec b 32);
    [|destruct (Z.leb_spec 127 b); destruct (Z.leb_spec b 160); cbn [andb];
      destruct (Z.eqb_spec b 173)].

Ltac leb_cases :=
  repeat match goal with
    | |- context [(?x <=? ?y)%Z] => destruct (Z.leb_spec x y); try lia
    | |- context [(?x <? ?y)%Z] => destruct (Z.ltb_spec x y); try lia
    | |- context [(?x =? ?y)%Z] => destruct (Z.eqb_spec x y); try lia
    end.

Lemma gpt2_char_injective (b b' : Z) :
  (0 <= b < 256)%Z -> (0 <= b' < 256)%Z ->
  gpt2_char b = gpt2_char b' -> b = b'.
Proof.
  intros Hb Hb'; gpt2_char_cases b; gpt2_char_cases b'; lia.
Qed.

Lemma gpt2_char_not_space (b : Z) :
  (0 <= b < 256)%Z -> isspace (gpt2_char b) = false.
Proof.
  intros Hb.
  pose proof (forallb_seq_Z table_char_ok 256
                ltac:(vm_compute; reflexivity) b Hb) as H.
  unfold table_char_ok in H; apply negb_true_iff in H; exact H.
Qed.

(** X1.  [gpt2_bytes_to_unicode] has exactly one entry for each byte
    [0 .. 255] and none for any other integer.  A printable byte (33..126,
    161..172, 174..255) maps to the character with its own code point and
    the 68 others map, in increasing order, to the characters 256..323; so
    different bytes get different characters, and no character of the table
    is whitespace. *)
Theorem gpt2_bytes_to_unicode_is_a_bijection :
  length gpt2_bytes_to_unicode = 256 /\
  (forall b, (0 <= b < 256)%Z ->
     dict_get Z.eqb gpt2_bytes_to_unicode b = Some [gpt2_char b]) /\
  (forall b, ~ (0 <= b < 256)%Z ->
     dict_get Z.eqb gpt2_bytes_to_unicode b = None) /\
  (forall b b', (0 <= b < 256)%Z -> (0 <= b' < 256)%Z ->
     dict_get Z.eqb gpt2_bytes_to_unicode b =
     dict_get Z.eqb gpt2_bytes_to_unicode b' -> b = b') /\
  (forall b, (0 <= b < 256)%Z ->
     isspace (gpt2_char b) = false /\ (33 <= gpt2_char b <= 323)%Z).
Proof.
  split; [vm_compute; reflexivity|].
  split; [exact gpt2_table_get|].
  split; [|split].
  - intros b Hb; apply (dict_get_None _ _ _ Z_eqb_true).
    intros Hin; apply Hb, gpt2_table_keys; exact Hin.
  - intros b b' Hb Hb'; rewrite !gpt2_table_get by assumption.
    intros H; injection H as H; exact (gpt2_char_injective b b' Hb Hb' H).
  - intros b Hb; split; [apply gpt2_char_not_space; exact Hb|].
    gpt2_char_cases b; lia.
Qed.

Lemma gpt2_bytes_to_unicode_is_a_bijection_witness :
  dict_get Z.eqb gpt2_bytes_to_unicode 32%Z = Some [288%Z] /\
  dict_get Z.eqb gpt2_bytes_to_unicode 33%Z = Some [33%Z].
Proof.
  split.
  - exact (proj1 (proj2 gpt2_bytes_to_unicode_is_a_bijection) 32%Z
             ltac:(lia)).
  - exact (proj1 (proj2 gpt2_bytes_to_unicode_is_a_bijection) 33%Z
             ltac:(lia)).
Defined.

(** * Reading serialized tokens *)

Lemma gpt2_byte_decoder_keys (c : Z) :
  In [c] (map fst gpt2_byte_decoder) -> (0 <= c < 324)%Z.
Proof.
  intros Hin.
  pose proof (proj1 (forallb_forall decoder_key_ok (map fst gpt2_byte_decoder))
                ltac:(vm_compute; reflexivity) [c] Hin) as H.
  unfold decoder_key_ok in H; apply andb_true_iff in H.
  rewrite Z.leb_le, Z.ltb_lt in H; exact H.
Qed.

Lemma gpt2_byte_none (c : Z) :
  ~ (0 <= c < 324)%Z -> gpt2_byte c = None.
Proof.
  intros Hc; unfold gpt2_byte.
  repeat match goal with
    | |- context [(?x <=? ?y)%Z] => destruct (Z.leb_spec x y); try lia
    | |- context [(?x =? ?y)%Z] => destruct (Z.eqb_spec x y); try lia
    end; cbn [andb orb]; first [reflexivity | exfalso; lia].
Qed.

Lemma gpt2_byte_decoder_get (c : Z) :
  dict_get str_eqb gpt2_byte_decoder [c] = gpt2_byte c.
Proof.
  destruct (Z_lt_ge_dec c 0) as [Hneg|Hpos];
    [|destruct (Z_lt_ge_dec c 324) as [Hlt|Hge]].
  2:{ pose proof (forallb_seq_Z decoder_entry_ok 324
                    ltac:(vm_compute; reflexivity) c ltac:(lia)) as Hc.
      unfold decoder_entry_ok in Hc.
      destruct (dict_get str_eqb gpt2_byte_decoder [c]), (gpt2_byte c);
        try discriminate Hc; [|reflexivity].
      apply Z.eqb_eq in Hc; subst; reflexivity. }
  all: rewrite gpt2_byte_none by lia;
       apply (dict_get_None _ _ _ str_eqb_true); intros Hin;
       apply gpt2_byte_decoder_keys in Hin; lia.
Qed.

Lemma gpt2_byte_of_char (b : Z) :
  is_byte b = true -> gpt2_byte (gpt2_char b) = Some b.
Proof.
  unfold is_byte; rewrite andb_true_iff, Z.leb_le, Z.ltb_lt; intros Hb.
  gpt2_char_cases b; try lia; unfold gpt2_byte; leb_cases; cbn [andb orb];
    first [reflexivity | f_equal; lia].
Qed.

Lemma gpt2_byte_some (c b : Z) :
  gpt2_byte c = Some b -> is_byte b = true /\ gpt2_char b = c.
Proof.
  unfold gpt2_byte; intros H.
  assert (Hb : ((33 <= c <= 126 \/ 161 <= c <= 172 \/ 174 <= c <= 255)
                /\ b = c
                \/ (256 <= c <= 288 /\ b = c - 256)
                \/ (289 <= c <= 322 /\ b = c - 162)
                \/ (c = 323 /\ b = 173))%Z).
  { revert H; leb_cases; cbn [andb orb]; intros Heq; try discriminate Heq;
      injection Heq as <-; lia. }
  clear H; split.
  - unfold is_byte; apply andb_true_iff; rewrite Z.leb_le, Z.ltb_lt; lia.
  - gpt2_char_cases b; lia.
Qed.

Lemma gpt2_decode_token_of_bytes (b : bytes) :
  forallb is_byte b = true -> gpt2_decode_token (gpt2_token b) = Loaded b.
Proof.
  induction b as [|x b IH]; [reflexivity|].
  cbn [forallb]; rewrite andb_true_iff; intros [Hx Hb].
  cbn [gpt2_token map gpt2_decode_token].
  rewrite gpt2_byte_decoder_get, (gpt2_byte_of_char x Hx).
  fold (gpt2_token b); rewrite (IH Hb); reflexivity.
Qed.

Lemma gpt2_decode_token_loaded (s : str) (b : bytes) :
  gpt2_decode_token s = Loaded b ->
  forallb is_byte b = true /\ s = gpt2_token b.
Proof.
  revert b; induction s as [|c s IH]; intros b.
  - simpl; intros H; injection H as <-; auto.
  - cbn [gpt2_decode_token]; rewrite gpt2_byte_decoder_get.
    destruct (gpt2_byte c) as [x|] eqn:Ec; [|discriminate].
    destruct (gpt2_decode_token s) as [bs|]; cbn [load_bind]; [|discriminate].
    intros H; injection H as <-.
    destruct (IH bs eq_refl) as [Hbs ->].
    destruct (gpt2_byte_some c x Ec) as [Hx <-].
    cbn [forallb]; rewrite Hx, Hbs; auto.
Qed.

Lemma gpt2_decode_token_raises (s : str) e :
  gpt2_decode_token s = LoadRaise e ->
  exists c,
    e = KeyError_gpt2_byte_decoder [c] /\ In c s /\ gpt2_byte c = None.
Proof.
  induction s as [|c s IH]; [discriminate|].
  cbn [gpt2_decode_token]; rewrite gpt2_byte_decoder_get.
  destruct (gpt2_byte c) as [x|] eqn:Ec.
  - destruct (gpt2_decode_token s) as [bs|e']; cbn [load_bind]; [discriminate|].
    intros H; injection H as <-.
    destruct (IH eq_refl) as (c' & -> & Hin & Hnone).
    exists c'; simpl; auto.
  - intros H; injection H as <-; exists c; simpl; auto.
Qed.

Lemma gpt2_decode_token_raises_first (s : str) :
  forall e,
    gpt2_decode_token s = LoadRaise e ->
    exists pre c post,
      s = pre ++ c :: post /\
      (forall x, In x pre -> gpt2_byte x <> None) /\
      e = KeyError_gpt2_byte_decoder [c] /\ gpt2_byte c = None.
Proof.
  induction s as [|c s IH]; intros e; [discriminate|].
  cbn [gpt2_decode_token]; rewrite gpt2_byte_decoder_get.
  destruct (gpt2_byte c) as [x|] eqn:Ec.
  - destruct (gpt2_decode_token s) as [bs|e']; cbn [load_bind]; [discriminate|].
    intros H; injection H as <-.
    destruct (IH e' eq_refl) as (pre & c' & post & -> & Hpre & -> & Hnone).
    exists (c :: pre), c', post; split; [reflexivity|]; split; [|auto].
    intros y [<-|Hy]; [congruence | auto].
  - intros H; injection H as <-; exists [], c, s.
    split; [reflexivity|]; split; [intros y [] | auto].
Qed.

(** X2.  A token written with the characters of [gpt2_bytes_to_unicode] is
    read back by [from_files] as the bytes it stands for; whatever is read
    back is a sequence of bytes whose serialized form is the token; and the
    lookup fails, with the first offending character, exactly on a token
    that holds a character outside the table (a space or a control
    character, for instance). *)
Theorem gpt2_token_round_trip :
  (forall b, forallb is_byte b = true ->
     gpt2_decode_token (gpt2_token b) = Loaded b) /\
  (forall s b, gpt2_decode_token s = Loaded b ->
     forallb is_byte b = true /\ s = gpt2_token b) /\
  (forall s e, gpt2_decode_token s = LoadRaise e ->
     exists pre c post,
       s = pre ++ c :: post /\
       (forall x, In x pre ->
          dict_get str_eqb gpt2_byte_decoder [x] <> None) /\
       e = KeyError_gpt2_byte_decoder [c] /\ In c s /\
       dict_get str_eqb gpt2_byte_decoder [c] = None /\
       forall b, is_byte b = true -> gpt2_char b <> c) /\
  (forall s c, In c s -> dict_get str_eqb gpt2_byte_decoder [c] = None ->
     exists e, gpt2_decode_token s = LoadRaise e) /\
  dict_get str_eqb gpt2_byte_decoder [32%Z] = None.
Proof.
  split; [exact gpt2_decode_token_of_bytes|].
  split; [exact gpt2_decode_token_loaded|].
  split; [|split; [|vm_compute; reflexivity]].
  - intros s e H; destruct (gpt2_decode_token_raises_first s e H)
      as (pre & c & post & Hs & Hpre & -> & Hnone).
    exists pre, c, post; split; [exact Hs|]; split; [|split; [reflexivity|]].
    { intros x Hx; rewrite gpt2_byte_decoder_get; exact (Hpre x Hx). }
    split; [rewrite Hs, in_app_iff; simpl; auto|].
    split; [rewrite gpt2_byte_decoder_get; exact Hnone|].
    intros b Hb Heq; rewrite <- Heq, (gpt2_byte_of_char b Hb) in Hnone.
    discriminate.
  - intros s c Hin Hnone.
    destruct (gpt2_decode_token s) as [b|e] eqn:E; [|eauto].
    destruct (gpt2_decode_token_loaded s b E) as [Hb ->].
    unfold gpt2_token in Hin; apply in_map_iff in Hin.
    destruct Hin as (x & <- & Hx).
    rewrite forallb_forall in Hb.
    rewrite gpt2_byte_decoder_get, (gpt2_byte_of_char x (Hb x Hx)) in Hnone.
    discriminate.
Qed.

Lemma gpt2_token_round_trip_witness :
  gpt2_decode_token (gpt2_token [32; 116; 104; 101]%Z) =
  Loaded [32; 116; 104; 101]%Z.
Proof.
  apply (proj1 gpt2_token_round_trip); reflexivity.
Defined.

(** * Reading the merges file *)

Lemma split_space_plain (s : str) :
  ~ In 32%Z s -> split_space s = [s].
Proof.
  induction s as [|c s IH]; intros Hno; [reflexivity|].
  cbn [split_space].
  destruct (Z.eqb_spec c 32) as [->|Hne]; [exfalso; apply Hno; simpl; auto|].
  rewrite IH by (intros Hin; apply Hno; simpl; auto); reflexivity.
Qed.

Lemma split_space_not_nil (s : str) : split_space s <> [].
Proof.
  destruct s as [|c s]; [discriminate|].
  cbn [split_space]; destruct (Z.eqb c 32); [discriminate|].
  destruct (split_space s); discriminate.
Qed.

Lemma split_space_app (a b : str) :
  ~ In 32%Z a -> split_space (a ++ 32%Z :: b) = a :: split_space b.
Proof.
  induction a as [|c a IH]; intros Hno; [reflexivity|].
  cbn [app split_space].
  destruct (Z.eqb_spec c 32) as [->|Hne]; [exfalso; apply Hno; simpl; auto|].
  rewrite IH by (intros Hin; apply Hno; simpl; auto); reflexivity.
Qed.

Lemma split_space_inv (s : str) :
  forall w ws,
    split_space s = w :: ws ->
    ~ In 32%Z w /\
    ((ws = [] /\ s = w) \/
     (exists rest, s = w ++ 32%Z :: rest /\ split_space rest = ws)).
Proof.
  induction s as [|c s IH]; intros w ws.
  - simpl; intros H; injection H as <- <-; split; [intros []|auto].
  - cbn [split_space]; destruct (Z.eqb_spec c 32) as [->|Hne].
    + intros H; injection H as <- <-; split; [intros []|].
      right; exists s; auto.
    + destruct (split_space s) as [|w' ws'] eqn:E;
        [exfalso; exact (split_space_not_nil s E)|].
      intros H; injection H as <- <-.
      destruct (IH w' ws' eq_refl) as [Hno [[-> ->]|(rest & -> & Hrest)]].
      * split; [intros [Heq|Hin]; [congruence | auto] | auto].
      * split; [intros [Heq|Hin]; [congruence | auto]|].
        right; exists rest; auto.
Qed.

Lemma split_space_two (s a b : str) :
  split_space s = [a; b] <->
  s = a ++ 32%Z :: b /\ ~ In 32%Z a /\ ~ In 32%Z b.
Proof.
  split.
  - intros H; destruct (split_space_inv s a [b] H)
      as [Ha [[Habs _]|(rest & -> & Hrest)]]; [discriminate|].
    destruct (split_space_inv rest b [] Hrest)
      as [Hb [[_ ->]|(rest' & _ & Habs)]]; [auto|].
    exfalso; exact (split_space_not_nil rest' Habs).
  - intros (-> & Ha & Hb).
    rewrite split_space_app, split_space_plain by assumption; reflexivity.
Qed.

Lemma rstrip_app_space (s ws : str) :
  forallb isspace ws = true -> rstrip (s ++ ws) = rstrip s.
Proof.
  intros Hws.
  assert (Hnil : rstrip ws = []).
  { induction ws as [|c ws IH]; [reflexivity|].
    cbn [forallb] in Hws; apply andb_true_iff in Hws; destruct Hws as [Hc Hws].
    cbn [rstrip]; rewrite (IH Hws), Hc; reflexivity. }
  induction s as [|c s IH]; [exact Hnil|].
  cbn [app rstrip]; rewrite IH; reflexivity.
Qed.

Lemma rstrip_ends_nonspace (s : str) (c : Z) :
  isspace c = false -> rstrip (s ++ [c]) = s ++ [c].
Proof.
  intros Hc; induction s as [|x s IH].
  - simpl; rewrite Hc; reflexivity.
  - cbn [app rstrip]; rewrite IH.
    destruct (s ++ [c]) eqn:E; [destruct s; discriminate | reflexivity].
Qed.

Lemma rstrip_decompose (line : str) :
  exists ws, line = rstrip line ++ ws /\ forallb isspace ws = true.
Proof.
  induction line as [|c line (ws & Hline & Hws)]; [exists []; auto|].
  cbn [rstrip]; destruct (rstrip line) as [|x r] eqn:E.
  - destruct (isspace c) eqn:Ec.
    + exists (c :: line); split; [reflexivity|].
      simpl in Hline; subst ws; cbn [forallb]; rewrite Ec, Hws; reflexivity.
    + exists ws; simpl in *; subst; auto.
  - exists ws; split; [|exact Hws].
    cbn [app]; f_equal; exact Hline.
Qed.

Lemma rstrip_last (line s : str) (c : Z) :
  rstrip line = s ++ [c] -> isspace c = false.
Proof.
  revert s; induction line as [|x line IH]; intros s.
  - destruct s; discriminate.
  - cbn [rstrip]; destruct (rstrip line) as [|y r] eqn:E.
    + destruct (isspace x) eqn:Ex; [destruct s; discriminate|].
      destruct s as [|z [|z' s]]; try discriminate.
      intros H; injection H as <-; exact Ex.
    + destruct s as [|z s]; [discriminate|].
      intros H; injection H as _ H; exact (IH s H).
Qed.

Lemma parse_merges_line_iff (line l r : str) :
  parse_merges_line line = Some (l, r) <->
  rstrip line = l ++ 32%Z :: r /\ ~ In 32%Z l /\ ~ In 32%Z r.
Proof.
  unfold parse_merges_line; cbv zeta; split.
  - destruct (rstrip line) as [|c s] eqn:E; [discriminate|].
    destruct (split_space (c :: s)) as [|a [|b [|x xs]]] eqn:Es;
      try discriminate.
    intros H; injection H as <- <-.
    apply split_space_two in Es; exact Es.
  - intros (Hr & Hl & Hr').
    assert (Hs : split_space (rstrip line) = [l; r])
      by (apply split_space_two; auto).
    destruct (rstrip line); [destruct l; discriminate|].
    rewrite Hs; reflexivity.
Qed.

(** X3.  A line of the merges file yields a rule exactly when, once its
    trailing whitespace is removed, it consists of two parts separated by a
    single space; the parts hold no space, the right one is never empty and
    the left one may be.  The test does not look at the content: a header
    line such as [#version: 0.2] is read as a rule, and so is a line that
    starts with a space. *)
Theorem merges_line_is_a_rule_iff_one_space :
  (forall line l r,
     parse_merges_line line = Some (l, r) <->
     rstrip line = l ++ 32%Z :: r /\ ~ In 32%Z l /\ ~ In 32%Z r) /\
  (forall line l r,
     parse_merges_line line = Some (l, r) ->
     r <> [] /\
     exists ws, line = l ++ 32%Z :: r ++ ws /\ forallb isspace ws = true) /\
  parse_merges_line [35; 118; 101; 114; 115; 105; 111; 110; 58; 32; 48; 46;
                     50; 10]%Z
    = Some ([35; 118; 101; 114; 115; 105; 111; 110; 58], [48; 46; 50])%Z /\
  parse_merges_line [32; 98; 10]%Z = Some ([], [98%Z]).
Proof.
  pose proof parse_merges_line_iff as Hiff.
  split; [exact Hiff|]; split; [|split; reflexivity].
  intros line l r H; apply Hiff in H; destruct H as (Hr & Hl & Hr').
  split.
  - intros ->.
    apply (rstrip_last line l 32%Z) in Hr; discriminate.
  - destruct (rstrip_decompose line) as (ws & Hline & Hws).
    exists ws; split; [|exact Hws].
    rewrite Hline at 1; rewrite Hr, <- app_assoc; reflexivity.
Qed.

Lemma merges_line_is_a_rule_iff_one_space_witness :
  [97%Z] <> [] /\
  exists ws, [98; 32; 97; 13; 10]%Z = [98%Z] ++ 32%Z :: [97%Z] ++ ws
             /\ forallb isspace ws = true.
Proof.
  apply (proj1 (proj2 merges_line_is_a_rule_iff_one_space)
           [98; 32; 97; 13; 10]%Z [98%Z] [97%Z]).
  reflexivity.
Defined.

(** * Special tokens in the vocabulary *)

Lemma add_special_tokens_present (specials : list str) (vocab : list (Z * bytes)) :
  (forall s, In s specials ->
     exists b, utf8_encode s = Ok b /\ In b (map snd vocab)) ->
  add_special_tokens vocab specials = Ok vocab.
Proof.
  induction specials as [|t specials IH]; intros Hall; [reflexivity|].
  destruct (Hall t (or_introl eq_refl)) as (b & Hb & Hin).
  cbn [add_special_tokens]; rewrite Hb; cbn [bind].
  rewrite (proj2 (in_values_true b vocab) Hin).
  apply IH; intros s Hs; apply Hall; simpl; auto.
Qed.

Lemma add_special_tokens_twice (specials : list str) (vocab vocab' : list (Z * bytes)) :
  dense_ids vocab = true ->
  add_special_tokens vocab specials = Ok vocab' ->
  add_special_tokens vocab' specials = Ok vocab'.
Proof.
  intros Hd Hadd.
  destruct (add_special_tokens_dense specials vocab vocab' Hd Hadd)
    as (_ & _ & Hpresent).
  apply add_special_tokens_present; exact Hpresent.
Qed.

(** The entries that the loop of [__init__] appends to a dense vocabulary. *)
Lemma add_special_tokens_appends (specials : list str) :
  forall vocab vocab',
    dense_ids vocab = true ->
    add_special_tokens vocab specials = Ok vocab' ->
    exists added,
      vocab' = vocab ++ added /\
      map fst added =
        map (fun i => (Z.of_nat (length vocab) + Z.of_nat i)%Z)
          (seq 0 (length added)) /\
      NoDup (map snd added) /\
      forall b, In b (map snd added) ->
        ~ In b (map snd vocab) /\
        exists s, In s specials /\ utf8_encode s = Ok b.
Proof.
  induction specials as [|t specials IH]; intros vocab vocab' Hd H.
  - simpl in H; injection H as <-; exists []; rewrite app_nil_r.
    split; [reflexivity|]; split; [reflexivity|]; split; [constructor|].
    intros b [].
  - simpl in H; destruct (utf8_encode t) as [b|] eqn:Et; cbn [bind] in H;
      [|discriminate].
    destruct (in_values b vocab) eqn:Eb.
    + destruct (IH vocab vocab' Hd H) as (added & Hv & Hk & Hnd & Hvals).
      exists added; split; [exact Hv|]; split; [exact Hk|];
        split; [exact Hnd|].
      intros x Hx; destruct (Hvals x Hx) as (Hx1 & s & Hs & Hsb).
      split; [exact Hx1|]; exists s; simpl; auto.
    + pose proof (add_special_token_dense vocab b Hd) as Hstep.
      cbv zeta in Hstep; rewrite Eb in Hstep.
      destruct Hstep as (Hd1 & _ & _).
      assert (Hfresh : ~ In (Z.of_nat (length vocab)) (map fst vocab)).
      { apply dense_ids_true in Hd; destruct Hd as [_ Hk].
        intros Hin; specialize (Hk _ Hin); lia. }
      rewrite dict_set_fresh in H, Hd1 by exact Hfresh.
      destruct (IH _ vocab' Hd1 H) as (added & Hv & Hk & Hnd & Hvals).
      assert (Hnot : ~ In b (map snd vocab)).
      { intros Hin; apply in_values_true in Hin; congruence. }
      exists ((Z.of_nat (length vocab), b) :: added).
      split; [|split; [|split]].
      * rewrite Hv, <- app_assoc; reflexivity.
      * cbn [map length seq fst]; rewrite Z.add_0_r; f_equal.
        rewrite Hk, length_app, <- seq_shift, map_map; cbn [length].
        apply map_ext; intros i; lia.
      * cbn [map snd]; constructor; [|exact Hnd].
        intros Hin; apply (proj1 (Hvals b Hin)).
        rewrite map_app, in_app_iff; simpl; auto.
      * intros x [<-|Hin]; [split; [exact Hnot | exists t; simpl; auto]|].
        destruct (Hvals x Hin) as (Hx1 & s & Hs & Hsb); split.
        -- intros Hin'; apply Hx1; rewrite map_app, in_app_iff; auto.
        -- exists s; simpl; auto.
Qed.

Lemma StronglySorted_lt_map_S (l : list nat) :
  StronglySorted lt l -> StronglySorted lt (map S l).
Proof.
  induction 1 as [|a l Hs IH Hall]; cbn [map]; constructor; [exact IH|].
  rewrite Forall_forall in Hall |- *; intros x Hx.
  apply in_map_iff in Hx; destruct Hx as (y & <- & Hy).
  specialize (Hall y Hy); lia.
Qed.

Lemma positions_shift (t : str) (specials : list str) (positions : list nat)
    (bs : list bytes) :
  Forall2 (fun i b => exists s,
             nth_error specials i = Some s /\ utf8_encode s = Ok b)
    positions bs ->
  Forall2 (fun i b => exists s,
             nth_error (t :: specials) i = Some s /\ utf8_encode s = Ok b)
    (map S positions) bs.
Proof.
  induction 1 as [|i b positions bs H _ IH]; cbn [map]; constructor;
    [exact H | exact IH].
Qed.

(** The entries that the loop of [__init__] appends come from positions of
    [special_tokens] that increase. *)
Lemma add_special_tokens_in_order (specials : list str) :
  forall vocab vocab',
    dense_ids vocab = true ->
    add_special_tokens vocab specials = Ok vocab' ->
    exists added positions,
      vocab' = vocab ++ added /\
      StronglySorted lt positions /\
      Forall2 (fun i b => exists s,
                 nth_error specials i = Some s /\ utf8_encode s = Ok b)
        positions (map snd added).
Proof.
  induction specials as [|t specials IH]; intros vocab vocab' Hd H.
  - simpl in H; injection H as <-; exists [], []; rewrite app_nil_r.
    split; [reflexivity|]; split; constructor.
  - simpl in H; destruct (utf8_encode t) as [b|] eqn:Et; cbn [bind] in H;
      [|discriminate].
    destruct (in_values b vocab) eqn:Eb.
    + destruct (IH vocab vocab' Hd H) as (added & positions & Hv & Hs & Hf).
      exists added, (map S positions); split; [exact Hv|].
      split; [apply StronglySorted_lt_map_S; exact Hs|].
      apply positions_shift; exact Hf.
    + pose proof (add_special_token_dense vocab b Hd) as Hstep.
      cbv zeta in Hstep; rewrite Eb in Hstep.
      destruct Hstep as (Hd1 & _ & _).
      assert (Hfresh : ~ In (Z.of_nat (length vocab)) (map fst vocab)).
      { apply dense_ids_true in Hd; destruct Hd as [_ Hk].
        intros Hin; specialize (Hk _ Hin); lia. }
      rewrite dict_set_fresh in H, Hd1 by exact Hfresh.
      destruct (IH _ vocab' Hd1 H) as (added & positions & Hv & Hs & Hf).
      exists ((Z.of_nat (length vocab), b) :: added), (0 :: map S positions).
      split; [rewrite Hv, <- app_assoc; reflexivity|]; split.
      * constructor; [apply StronglySorted_lt_map_S; exact Hs|].
        rewrite Forall_forall; intros x Hx; apply in_map_iff in Hx.
        destruct Hx as (y & <- & _); lia.
      * cbn [map snd]; constructor; [exists t; auto|].
        apply positions_shift; exact Hf.
Qed.

Lemma init_vocab_size vocab0 merges0 specials tk :
  __init__ vocab0 merges0 specials = Ok tk ->
  vocab_size tk = Z.of_nat (length (vocab tk)).
Proof.
  unfold __init__; destruct specials as [|s specials].
  - intros H; injection H as <-; reflexivity.
  - destruct (add_special_tokens vocab0 (s :: specials)); cbn [bind];
      [|discriminate].
    intros H; injection H as <-; reflexivity.
Qed.

(** X4.  On a vocabulary whose ids are [0 .. N-1], [__init__] keeps every
    entry under its id and appends one entry for each special token whose
    bytes are not in the vocabulary yet, under the ids [N], [N+1], ... in
    the order of the special tokens (the appended entries are the bytes of
    special tokens at positions that increase); the appended byte sequences
    are distinct, every special token then has an entry, the ids are dense
    again, and [vocab_size] is the new number of entries. *)
Theorem init_appends_missing_special_tokens :
  forall vocab0 merges0 specials tk,
    dense_ids vocab0 = true ->
    __init__ vocab0 merges0 specials = Ok tk ->
    exists added,
      vocab tk = vocab0 ++ added /\
      map fst added =
        map (fun i => (Z.of_nat (length vocab0) + Z.of_nat i)%Z)
          (seq 0 (length added)) /\
      NoDup (map snd added) /\
      (forall b, In b (map snd added) ->
         ~ In b (map snd vocab0) /\
         exists s, In s specials /\ utf8_encode s = Ok b) /\
      (forall s, In s specials ->
         exists b, utf8_encode s = Ok b /\ In b (map snd (vocab tk))) /\
      dense_ids (vocab tk) = true /\
      vocab_size tk = Z.of_nat (length vocab0 + length added) /\
      exists positions,
        StronglySorted lt positions /\
        Forall2 (fun i b => exists s,
                   nth_error specials i = Some s /\ utf8_encode s = Ok b)
          positions (map snd added).
Proof.
  intros vocab0 merges0 specials tk Hd Hinit.
  destruct (init_fields _ _ _ _ Hinit) as (_ & _ & Hadd).
  destruct (add_special_tokens_appends specials _ _ Hd Hadd)
    as (added & Hv & Hk & Hnd & Hvals).
  destruct (add_special_tokens_dense specials _ _ Hd Hadd) as (Hd' & _ & Hp).
  destruct (add_special_tokens_in_order specials _ _ Hd Hadd)
    as (added' & positions & Hv' & Hsorted & Hfrom).
  assert (added' = added)
    by (rewrite Hv in Hv'; exact (eq_sym (app_inv_head _ _ _ Hv'))).
  subst added'; exists added.
  split; [exact Hv|]; split; [exact Hk|]; split; [exact Hnd|];
    split; [exact Hvals|]; split; [exact Hp|]; split; [exact Hd'|].
  split; [|exists positions; split; [exact Hsorted | exact Hfrom]].
  rewrite (init_vocab_size _ _ _ _ Hinit), Hv, length_app; reflexivity.
Qed.

Lemma init_appends_missing_special_tokens_witness :
  exists tk added,
    __init__ vocab_abc merges_abc [endoftext; [97%Z]; endoftext; pad] = Ok tk /\
    vocab tk = vocab_abc ++ added /\
    map fst added = [5; 6]%Z.
Proof.
  eexists.
  destruct (init_appends_missing_special_tokens vocab_abc merges_abc
              [endoftext; [97%Z]; endoftext; pad] _ eq_refl eq_refl)
    as (added & Hv & Hk & _).
  exists added; split; [reflexivity|]; split; [exact Hv|].
  assert (Hlen : length added = 2).
  { apply (f_equal (@length _)) in Hv; rewrite length_app in Hv.
    vm_compute in Hv; injection Hv as Hv; symmetry; exact Hv. }
  rewrite Hk, Hlen; reflexivity.
Defined.

(** X5.  Special tokens whose bytes are already in the vocabulary are not
    added again: when that holds for all of them (as it does for the
    tokenizer that [from_files] hands to [__init__]), construction leaves the
    vocabulary as it is, whatever its ids. *)
Theorem init_keeps_present_special_tokens :
  forall vocab0 merges0 specials,
    (forall s, In s specials ->
       exists b, utf8_encode s = Ok b /\ In b (map snd vocab0)) ->
    exists tk,
      __init__ vocab0 merges0 specials = Ok tk /\
      vocab tk = vocab0 /\
      vocab_size tk = Z.of_nat (length vocab0) /\
      special_tokens tk = specials.
Proof.
  intros vocab0 merges0 specials Hall.
  pose proof (add_special_tokens_present specials vocab0 Hall) as Hadd.
  unfold __init__; destruct specials as [|s specials].
  - eexists; split; [reflexivity|]; auto.
  - rewrite Hadd; cbn [bind]; eexists; split; [reflexivity|]; auto.
Qed.

Lemma init_keeps_present_special_tokens_witness :
  exists tk,
    __init__ vocab_abc merges_abc [[97; 98]%Z; [97%Z]] = Ok tk /\
    vocab tk = vocab_abc.
Proof.
  destruct (init_keeps_present_special_tokens vocab_abc merges_abc
              [[97; 98]%Z; [97%Z]]) as (tk & Hinit & Hv & _).
  - intros s [<-|[<-|[]]]; eexists; (split; [reflexivity|]); simpl; auto.
  - exists tk; auto.
Defined.

Lemma dict_set_length_present (d : list (Z * bytes)) (k : Z) (v : bytes) :
  In k (map fst d) -> length (dict_set Z.eqb d k v) = length d.
Proof.
  induction d as [|[k0 v0] d IH]; [intros []|].
  simpl; destruct (Z.eqb_spec k0 k) as [->|Hne]; [reflexivity|].
  intros [Heq|Hin]; [contradiction|]; simpl; rewrite IH by exact Hin.
  reflexivity.
Qed.

(** X6.  [__init__] stores a missing special token under the key
    [len(vocab)].  When the ids of the vocabulary have a gap, so that this
    key is already taken, the token replaces the bytes of that entry: the
    vocabulary does not grow, the old byte sequence is lost from that id, and
    every other id keeps its entry. *)
Theorem init_overwrites_when_ids_have_a_gap :
  forall vocab0 merges0 s b tk,
    In (Z.of_nat (length vocab0)) (map fst vocab0) ->
    utf8_encode s = Ok b ->
    ~ In b (map snd vocab0) ->
    __init__ vocab0 merges0 [s] = Ok tk ->
    dict_get Z.eqb (vocab tk) (Z.of_nat (length vocab0)) = Some b /\
    length (vocab tk) = length vocab0 /\
    map fst (vocab tk) = map fst vocab0 /\
    forall k, k <> Z.of_nat (length vocab0) ->
      dict_get Z.eqb (vocab tk) k = dict_get Z.eqb vocab0 k.
Proof.
  intros vocab0 merges0 s b tk Hkey Hb Hnot Hinit.
  unfold __init__ in Hinit; cbn [add_special_tokens] in Hinit.
  rewrite Hb in Hinit; cbn [bind] in Hinit.
  assert (Hv : in_values b vocab0 = false).
  { destruct (in_values b vocab0) eqn:E; [|reflexivity].
    apply in_values_true in E; contradiction. }
  rewrite Hv in Hinit; injection Hinit as <-; cbn [vocab].
  split; [|split; [|split]].
  - apply (dict_get_set_same _ _ _ Z_eqb_true).
  - apply dict_set_length_present; exact Hkey.
  - apply dict_set_keys_present; exact Hkey.
  - intros k Hk; apply (dict_get_set_other _ _ _ Z_eqb_true); auto.
Qed.


Lemma init_overwrites_when_ids_have_a_gap_witness :
  exists tk,
    __init__ [(0, [97]); (2, [98])]%Z [] [[99%Z]] = Ok tk /\
    dict_get Z.eqb (vocab tk) 2%Z = Some [99%Z] /\
    length (vocab tk) = 2.
Proof.
  eexists; split; [reflexivity|].
  destruct (init_overwrites_when_ids_have_a_gap [(0, [97]); (2, [98])]%Z []
              [99%Z] [99%Z] _ ltac:(simpl; auto) eq_refl
              ltac:(simpl; intros [H|[H|[]]]; discriminate) eq_refl)
    as (H1 & H2 & _).
  split; [exact H1 | exact H2].
Defined.

(** * Loading what was serialized *)

Lemma dict_set_absent (K V : Type) (keqb : K -> K -> bool)
    (keqb_eq : forall a b, keqb a b = true <-> a = b)
    (d : list (K * V)) (k : K) (v : V) :
  ~ In k (map fst d) -> dict_set keqb d k v = d ++ [(k, v)].
Proof.
  induction d as [|[k0 v0] d IH]; intros Hnot; [reflexivity|].
  cbn [dict_set]; rewrite (keqb_neq _ keqb keqb_eq k0 k).
  - cbn [app]; f_equal; apply IH; intros Hin; apply Hnot; simpl; auto.
  - intros ->; apply Hnot; simpl; auto.
Qed.

(** A comprehension over items with distinct keys has one entry for each
    item, in order. *)
Lemma dict_comprehension_distinct (K V X : Type) (keqb : K -> K -> bool)
    (keqb_eq : forall a b, keqb a b = true <-> a = b)
    (key : X -> K) (val : X -> V) (items : list X) :
  NoDup (map key items) ->
  dict_comprehension keqb key val items = map (fun x => (key x, val x)) items.
Proof.
  induction items as [|x items IH] using rev_ind; intros Hnd; [reflexivity|].
  rewrite map_app in Hnd; cbn [map] in Hnd.
  rewrite dict_comprehension_snoc, IH by (apply NoDup_app_remove_r in Hnd; exact Hnd).
  rewrite (dict_set_absent _ _ keqb keqb_eq), map_app; [reflexivity|].
  rewrite map_map; cbn [fst].
  apply NoDup_remove_2 in Hnd; rewrite app_nil_r in Hnd; exact Hnd.
Qed.

Lemma distinct_values_true (l : list bytes) :
  distinct_values l = true <-> NoDup l.
Proof.
  induction l as [|b l IH]; simpl; [split; [constructor | reflexivity]|].
  rewrite andb_true_iff, negb_true_iff, IH; split.
  - intros [Hnot Hnd]; constructor; [|exact Hnd].
    intros Hin.
    assert (E : existsb (bytes_eqb b) l = true)
      by (apply existsb_exists; exists b; split;
          [exact Hin | apply bytes_eqb_refl]).
    congruence.
  - intros H; inversion H as [|? ? Hnot Hnd]; subst; split; [|exact Hnd].
    destruct (existsb (bytes_eqb b) l) eqn:E; [|reflexivity].
    apply existsb_exists in E; destruct E as (x & Hx & Heq).
    apply bytes_eqb_true in Heq; subst x; contradiction.
Qed.

Lemma gpt2_token_injective (a b : bytes) :
  forallb is_byte a = true -> forallb is_byte b = true ->
  gpt2_token a = gpt2_token b -> a = b.
Proof.
  intros Ha Hb Heq.
  pose proof (gpt2_decode_token_of_bytes a Ha) as H.
  rewrite Heq, (gpt2_decode_token_of_bytes b Hb) in H.
  injection H as H; symmetry; exact H.
Qed.

Lemma gpt2_tokens_distinct (vocab : list (Z * bytes)) :
  values_are_bytes vocab = true ->
  NoDup (map snd vocab) ->
  NoDup (map (fun kb => gpt2_token (snd kb)) vocab).
Proof.
  induction vocab as [|[k b] vocab IH]; intros Hb Hnd; [constructor|].
  cbn [values_are_bytes forallb snd] in Hb; apply andb_true_iff in Hb.
  destruct Hb as [Hb Hrest].
  cbn [map snd] in Hnd |- *; inversion Hnd as [|? ? Hnot Hnd']; subst.
  constructor; [|exact (IH Hrest Hnd')].
  intros Hin; apply in_map_iff in Hin; destruct Hin as ([k' b'] & Heq & Hin).
  cbn [snd] in Heq; apply Hnot.
  unfold values_are_bytes in Hrest; rewrite forallb_forall in Hrest.
  pose proof (Hrest _ Hin) as Hb'; cbn [snd] in Hb'.
  rewrite (gpt2_token_injective b b' Hb Hb' (eq_sym Heq)).
  apply in_map_iff; exists (k', b'); auto.
Qed.

(** A vocabulary of distinct byte sequences is written as one token for
    each entry, in order. *)
Lemma gpt2_vocab_of_distinct (vocab : list (Z * bytes)) :
  values_are_bytes vocab = true ->
  distinct_values (map snd vocab) = true ->
  gpt2_vocab_of vocab = map (fun kb => (gpt2_token (snd kb), fst kb)) vocab.
Proof.
  intros Hb Hd; apply distinct_values_true in Hd.
  apply (dict_comprehension_distinct _ _ _ str_eqb str_eqb_true).
  apply gpt2_tokens_distinct; assumption.
Qed.

Lemma load_vocab_serialized (items : list (Z * bytes)) :
  forall acc,
    NoDup (map fst (acc ++ items)) ->
    values_are_bytes items = true ->
    load_vocab (map (fun kb => (gpt2_token (snd kb), fst kb)) items) acc
    = Loaded (acc ++ items).
Proof.
  induction items as [|[k b] items IH]; intros acc Hnd Hb.
  - rewrite app_nil_r; reflexivity.
  - cbn [values_are_bytes forallb snd] in Hb; apply andb_true_iff in Hb.
    destruct Hb as [Hb Hrest].
    cbn [map load_vocab fst snd].
    rewrite (gpt2_decode_token_of_bytes b Hb); cbn [load_bind].
    rewrite dict_set_fresh.
    + rewrite IH; [rewrite <- app_assoc; reflexivity | | exact Hrest].
      rewrite <- app_assoc; exact Hnd.
    + rewrite map_app in Hnd; apply NoDup_remove_2 in Hnd.
      intros Hin; apply Hnd; rewrite in_app_iff; auto.
Qed.

Lemma gpt2_token_no_space (b : bytes) :
  forallb is_byte b = true ->
  forall c, In c (gpt2_token b) -> isspace c = false /\ c <> 32%Z.
Proof.
  intros Hb c Hin; unfold gpt2_token in Hin; apply in_map_iff in Hin.
  destruct Hin as (x & <- & Hx).
  rewrite forallb_forall in Hb; specialize (Hb x Hx).
  unfold is_byte in Hb; apply andb_true_iff in Hb.
  rewrite Z.leb_le, Z.ltb_lt in Hb.
  split; [apply gpt2_char_not_space; exact Hb|].
  gpt2_char_cases x; lia.
Qed.

Lemma parse_serialized_rule (l r : bytes) :
  forallb is_byte l = true -> forallb is_byte r = true -> r <> [] ->
  parse_merges_line (gpt2_token l ++ [32%Z] ++ gpt2_token r ++ [10%Z]) =
  Some (gpt2_token l, gpt2_token r).
Proof.
  intros Hl Hr Hne; apply parse_merges_line_iff.
  split; [|split].
  - destruct (exists_last Hne) as (r' & x & ->).
    unfold gpt2_token; rewrite map_app; cbn [map app].
    replace (map gpt2_char l ++ 32%Z :: (map gpt2_char r' ++ [gpt2_char x])
             ++ [10%Z])
      with (((map gpt2_char l ++ 32%Z :: map gpt2_char r') ++ [gpt2_char x])
            ++ [10%Z])
      by (rewrite <- !app_assoc; reflexivity).
    rewrite rstrip_app_space by reflexivity.
    rewrite rstrip_ends_nonspace.
    + rewrite <- app_assoc; reflexivity.
    + apply (gpt2_token_no_space (r' ++ [x]) Hr).
      unfold gpt2_token; rewrite map_app, in_app_iff; simpl; auto.
  - intros Hin; exact (proj2 (gpt2_token_no_space l Hl _ Hin) eq_refl).
  - intros Hin; exact (proj2 (gpt2_token_no_space r Hr _ Hin) eq_refl).
Qed.

Lemma read_merges_serialized (merges : list pair) :
  rules_are_bytes merges = true ->
  read_merges (merges_lines_of merges) =
  map (fun rule => (gpt2_token (fst rule), gpt2_token (snd rule))) merges.
Proof.
  induction merges as [|[l r] merges IH]; intros H; [reflexivity|].
  cbn [rules_are_bytes forallb fst snd] in H.
  rewrite !andb_true_iff in H; destruct H as [[[Hl Hr] Hne] Hrest].
  cbn [merges_lines_of map read_merges flat_map fst snd].
  rewrite parse_serialized_rule; auto.
  - fold (merges_lines_of merges); fold (read_merges (merges_lines_of merges)).
    rewrite (IH Hrest); reflexivity.
  - intros ->; discriminate.
Qed.

Lemma load_merges_serialized (merges : list pair) :
  rules_are_bytes merges = true ->
  load_merges
    (map (fun rule => (gpt2_token (fst rule), gpt2_token (snd rule))) merges)
  = Loaded merges.
Proof.
  induction merges as [|[l r] merges IH]; intros H; [reflexivity|].
  cbn [rules_are_bytes forallb fst snd] in H.
  rewrite !andb_true_iff in H; destruct H as [[[Hl Hr] Hne] Hrest].
  cbn [map load_merges fst snd].
  rewrite (gpt2_decode_token_of_bytes l Hl), (gpt2_decode_token_of_bytes r Hr).
  cbn [load_bind]; rewrite (IH Hrest); reflexivity.
Qed.

(** X7.  [from_files] inverts serialization: for a vocabulary with ids
    [0 .. N-1] whose entries are distinct byte sequences and merge rules
    whose sides are byte sequences with a non-empty right side, loading the
    serialized vocabulary and merges file gives exactly the tokenizer that
    [__init__] builds from the vocabulary and rules themselves, with the
    same special tokens (and raises what [__init__] raises); adding the
    special tokens before the call and again inside it makes no
    difference. *)
Theorem from_files_reads_back_serialized_data :
  forall vocab0 merges0 specials,
    dense_ids vocab0 = true ->
    values_are_bytes vocab0 = true ->
    distinct_values (map snd vocab0) = true ->
    rules_are_bytes merges0 = true ->
    from_files (gpt2_vocab_of vocab0) (merges_lines_of merges0) (Some specials)
      = lift (__init__ vocab0 merges0 specials) /\
    from_files (gpt2_vocab_of vocab0) (merges_lines_of merges0) None
      = lift (__init__ vocab0 merges0 []).
Proof.
  intros vocab0 merges0 specials Hd Hb Hdv Hr.
  assert (Hnd : NoDup (map fst vocab0))
    by (apply dense_ids_true in Hd; tauto).
  assert (Hload : load_vocab (gpt2_vocab_of vocab0) [] = Loaded vocab0).
  { rewrite (gpt2_vocab_of_distinct vocab0 Hb Hdv).
    apply (load_vocab_serialized vocab0 []); assumption. }
  unfold from_files; rewrite Hload, (read_merges_serialized merges0 Hr).
  rewrite (load_merges_serialized merges0 Hr); cbn [load_bind lift].
  split; [|reflexivity].
  destruct (add_special_tokens vocab0 specials) as [vocab1|e] eqn:Hadd.
  - cbn [lift load_bind].
    pose proof (add_special_tokens_twice specials vocab0 vocab1 Hd Hadd) as H2.
    unfold __init__; destruct specials as [|s specials].
    + simpl in Hadd; injection Hadd as <-; reflexivity.
    + rewrite H2, Hadd; reflexivity.
  - cbn [lift load_bind]; unfold __init__.
    destruct specials as [|s specials]; [discriminate|].
    rewrite Hadd; reflexivity.
Qed.

Lemma from_files_reads_back_serialized_data_witness :
  from_files (gpt2_vocab_of vocab_bytes_ab) (merges_lines_of merges_ab)
    (Some [endoftext])
  = lift (__init__ vocab_bytes_ab merges_ab [endoftext]).
Proof.
  apply (from_files_reads_back_serialized_data vocab_bytes_ab merges_ab
           [endoftext]); vm_compute; reflexivity.
Defined.

(** A byte sequence held under two ids is written as one token, so it is
    read back under one id only, the later one. *)
Lemma from_files_one_id_for_each_token :
  from_files (gpt2_vocab_of [(0, [97]); (1, [97])]%Z) [] None
  = lift (__init__ [(1, [97])]%Z [] []).
Proof. vm_compute; reflexivity. Qed.

(** * [get_pairs] by index *)

Lemma map_seq_shift (A : Type) (f : nat -> A) (n : nat) :
  map f (seq 1 n) = map (fun i => f (S i)) (seq 0 n).
Proof. rewrite <- seq_shift, map_map; reflexivity. Qed.

(** X8.  [get_pairs] returns the pairs of neighbours in order: the list
    comprehension over [range(len(pretoken) - 1)], whose [i]-th item is
    [(pretoken[i], pretoken[i + 1])]; an empty pretoken and a pretoken of
    one unit have no pair. *)
Theorem get_pairs_by_index (pretoken : list bytes) :
  get_pairs pretoken =
  map (fun i => (nth i pretoken [], nth (i + 1) pretoken []))
    (seq 0 (length pretoken - 1)).
Proof.
  induction pretoken as [|x [|y l] IH]; try reflexivity.
  change (get_pairs (x :: y :: l)) with ((x, y) :: get_pairs (y :: l)).
  rewrite IH.
  replace (length (x :: y :: l) - 1) with (S (length (y :: l) - 1))
    by (simpl; lia).
  cbn [seq map]; rewrite map_seq_shift; f_equal.
Qed.

(** * The reverse vocabulary *)

Lemma dict_comprehension_last (K V X : Type) (keqb : K -> K -> bool)
    (keqb_eq : forall a b, keqb a b = true <-> a = b)
    (key : X -> K) (val : X -> V) (l1 : list X) (x : X) (l2 : list X) :
  (forall y, In y l2 -> key y <> key x) ->
  dict_get keqb (dict_comprehension keqb key val (l1 ++ x :: l2)) (key x)
  = Some (val x).
Proof.
  induction l2 as [|y l2 IH] using rev_ind; intros H.
  - rewrite dict_comprehension_snoc.
    apply (dict_get_set_same _ _ _ keqb_eq).
  - rewrite app_comm_cons, app_assoc, dict_comprehension_snoc.
    rewrite (dict_get_set_other _ _ _ keqb_eq).
    + apply IH; intros z Hz; apply H; rewrite in_app_iff; auto.
    + apply H; rewrite in_app_iff; simpl; auto.
Qed.

(** X9.  When the vocabulary stores a byte sequence under several ids, the
    reverse table [vocab_to_id] keeps the id of the entry that comes last in
    the vocabulary's order, and that is the id a unit with these bytes is
    encoded to. *)
Theorem reverse_lookup_keeps_last_id :
  forall vocab0 merges0 specials tk v1 k b v2,
    __init__ vocab0 merges0 specials = Ok tk ->
    vocab tk = v1 ++ (k, b) :: v2 ->
    ~ In b (map snd v2) ->
    dict_get bytes_eqb (vocab_to_id tk) b = Some k /\
    _merge_word tk [b] = Ok [k].
Proof.
  intros vocab0 merges0 specials tk v1 k b v2 Hinit Hv Hlast.
  assert (Hget : dict_get bytes_eqb (vocab_to_id tk) b = Some k).
  { rewrite (init_vocab_to_id _ _ _ _ Hinit), Hv; unfold build_vocab_to_id.
    apply (dict_comprehension_last _ _ _ bytes_eqb bytes_eqb_true
             (fun kv : Z * bytes => snd kv) (fun kv => fst kv) v1 (k, b) v2).
    intros [k' b'] Hin Heq; simpl in Heq; subst b'.
    apply Hlast, in_map_iff; exists (k', b); auto. }
  split; [exact Hget|].
  rewrite merge_word_single; cbn [lookup_ids]; rewrite Hget; reflexivity.
Qed.

Lemma reverse_lookup_keeps_last_id_witness :
  exists tk,
    __init__ [(0, [97]); (1, [98]); (2, [97])]%Z [] [] = Ok tk /\
    _merge_word tk [[97%Z]] = Ok [2%Z].
Proof.
  eexists; split; [reflexivity|].
  apply (reverse_lookup_keeps_last_id
           [(0, [97]); (1, [98]); (2, [97])]%Z [] [] _
           [(0, [97]); (1, [98])]%Z 2%Z [97%Z] [] eq_refl eq_refl).
  intros [].
Defined.

(** * What the merge loop keeps *)

(** X10.  The merge loop only regroups the bytes of a word: the units it
    ends with concatenate to the same bytes as the units it was given; a
    word of fewer than two units is left as it is; and merging is
    idempotent: on its own final units the loop stops at once, so
    [_merge_word] gives for them what it gives for the word. *)
Theorem merge_word_regroups_bytes_and_is_idempotent :
  forall (tk : Tokenizer) word,
    exists units,
      final_units tk word = Some units /\
      concat units = concat word /\
      (length word < 2 -> units = word) /\
      final_units tk units = Some units /\
      _merge_word tk units = _merge_word tk word.
Proof.
  intros tk word.
  destruct (final_units_total tk word) as (units & Hunits & Hnone & _ & Hcat).
  assert (Hfix : final_units tk units = Some units)
    by (unfold final_units; rewrite merge_loop_unfold, Hnone; reflexivity).
  exists units; split; [exact Hunits|]; split; [exact Hcat|].
  split; [|split; [exact Hfix|]].
  - intros Hlen; unfold final_units in Hunits.
    rewrite merge_loop_unfold in Hunits.
    assert (Hb : best_pair_of (merge_ranks tk) word = None).
    { apply best_pair_of_none; intros p Hp.
      destruct word as [|x [|y l]]; simpl in Hlen, Hp; try contradiction; lia. }
    rewrite Hb in Hunits; injection Hunits as <-; reflexivity.
  - unfold _merge_word; rewrite Hfix, Hunits; reflexivity.
Qed.

Lemma merge_loop_units (ranks : list (pair * nat)) (fuel : nat) :
  forall tokens units u,
    merge_loop ranks fuel tokens = Some units ->
    In u units ->
    In u tokens \/
    exists p r, dict_get pair_eqb ranks p = Some r /\ u = fst p ++ snd p.
Proof.
  induction fuel as [|fuel IH]; intros tokens units u; [discriminate|].
  rewrite merge_loop_unfold.
  destruct (best_pair_of ranks tokens) as [bp|] eqn:E.
  - intros Hloop Hu.
    destruct (IH _ _ _ Hloop Hu) as [Hin|Hrule]; [|right; exact Hrule].
    apply greedy_units in Hin; destruct Hin as [->|Hin]; [|left; exact Hin].
    destruct (best_pair_of_some _ _ _ E) as (_ & r & Hr & _).
    right; exists bp, r; auto.
  - intros H; injection H as <-; auto.
Qed.

(** X11.  Every unit the merge loop ends with is either a unit of the word
    as it was given, or the concatenation of the two sides of a rule of
    [merges]: the loop builds no other byte sequences. *)
Theorem final_units_come_from_word_or_rules :
  forall vocab0 merges0 specials tk word units u,
    __init__ vocab0 merges0 specials = Ok tk ->
    final_units tk word = Some units ->
    In u units ->
    In u word \/ exists l r, In (l, r) (merges tk) /\ u = l ++ r.
Proof.
  intros vocab0 merges0 specials tk word units u Hinit Hunits Hu.
  destruct (init_merge_ranks _ _ _ _ Hinit) as [Hranks Hmerges].
  destruct (merge_loop_units _ _ _ _ _ Hunits Hu) as [Hin|(p & r & Hr & ->)];
    [left; exact Hin|].
  right; exists (fst p), (snd p); split; [|reflexivity].
  rewrite Hranks in Hr; apply merge_ranks_in_merges in Hr.
  rewrite Hmerges; destruct p; exact Hr.
Qed.

Lemma final_units_come_from_word_or_rules_witness :
  exists tk,
    __init__ vocab_abc merges_abc [] = Ok tk /\
    ([97; 98; 99]%Z = [97; 98]%Z \/
     exists l r, In (l, r) (merges tk) /\ [97; 98; 99]%Z = l ++ r).
Proof.
  eexists; split; [reflexivity|].
  destruct (final_units_come_from_word_or_rules vocab_abc merges_abc [] _
              [[97]; [98]; [99]; [97; 98]]%Z [[97; 98; 99]; [97; 98]]%Z
              [97; 98; 99]%Z eq_refl eq_refl (or_introl eq_refl))
    as [Hin|Hrule].
  - right; exists [97; 98]%Z, [99%Z]; split; [simpl; auto | reflexivity].
  - right; exact Hrule.
Defined.

(** * One round removes the winning pair *)

Lemma greedy_head (bp : pair) (y : bytes) (l : list bytes) :
  exists h t,
    merge_pair_greedy bp (y :: l) = h :: t /\
    (h = y \/ h = fst bp ++ snd bp).
Proof.
  destruct l as [|z l]; [exists y, []; auto|].
  rewrite greedy_cons2; destruct (pair_eqb (y, z) bp); eauto.
Qed.

Lemma app_eq_left_nil (A : Type) (l r : list A) : l ++ r = l -> r = [].
Proof.
  intros H; apply (f_equal (@length A)) in H; rewrite length_app in H.
  destruct r; [reflexivity | simpl in H; lia].
Qed.

Lemma app_eq_right_nil (A : Type) (l r : list A) : l ++ r = r -> l = [].
Proof.
  intros H; apply (f_equal (@length A)) in H; rewrite length_app in H.
  destruct l; [reflexivity | simpl in H; lia].
Qed.

Lemma greedy_removes_pair (bp : pair) :
  fst bp <> [] -> snd bp <> [] ->
  forall l, ~ In bp (get_pairs (merge_pair_greedy bp l)).
Proof.
  intros Hl Hr; apply list_pair_ind.
  - intros [].
  - intros x [].
  - intros x y l IH1 IH2; rewrite greedy_cons2.
    destruct (pair_eqb (x, y) bp) eqn:E.
    + destruct (merge_pair_greedy bp l) as [|h t] eqn:Eg; [intros []|].
      intros [Heq|Hin]; [|exact (IH1 Hin)].
      destruct bp as [a b]; simpl in *.
      injection Heq as H1 H2.
      apply Hr; exact (app_eq_left_nil _ _ _ H1).
    + destruct (greedy_head bp y l) as (h & t & Eg & Hh).
      rewrite Eg in *.
      intros [Heq|Hin]; [|exact (IH2 Hin)].
      destruct Hh as [->| ->].
      * rewrite <- Heq, pair_eqb_refl in E; discriminate.
      * destruct bp as [a b]; simpl in *.
        injection Heq as H1 H2.
        apply Hl; exact (app_eq_right_nil _ _ _ H2).
Qed.

(** X12.  One merge round leaves no occurrence of the winning pair: when
    both sides of the pair are non-empty, the pair is not among the pairs of
    neighbours of the new unit list. *)
Theorem merge_round_removes_winning_pair :
  forall best_pair tokens new_tokens,
    fst best_pair <> [] -> snd best_pair <> [] ->
    merge_with best_pair tokens = Some new_tokens ->
    ~ In best_pair (get_pairs new_tokens).
Proof.
  intros bp tokens new_tokens Hl Hr Hmerge.
  rewrite merge_with_greedy in Hmerge; injection Hmerge as <-.
  apply greedy_removes_pair; assumption.
Qed.

Lemma merge_round_removes_winning_pair_witness :
  ~ In ([97], [97])%Z (get_pairs [[97; 97]; [97; 97]; [97]]%Z).
Proof.
  apply (merge_round_removes_winning_pair ([97], [97])%Z
           [[97]; [97]; [97]; [97]; [97]]%Z);
    [discriminate | discriminate | reflexivity].
Defined.

(** * What [pretokenize] yields *)

Lemma map_Ok_inj (A : Type) (l1 l2 : list A) :
  map (@Ok A) l1 = map (@Ok A) l2 -> l1 = l2.
Proof.
  revert l2; induction l1 as [|x l1 IH]; intros [|y l2] H;
    try discriminate H; [reflexivity|].
  injection H as Hx Hl; f_equal; auto.
Qed.

Lemma not_Raise_in_map_Ok (A : Type) (l : list A) e :
  ~ In (Raise e) (map (@Ok A) l).
Proof.
  intros H; apply in_map_iff in H; destruct H as (x & Hx & _); discriminate.
Qed.

Lemma utf8_encode_char_raises_nonscalar (c : Z) e :
  utf8_encode_char c = Raise e -> is_scalar_value c = false.
Proof.
  intros H; destruct (is_scalar_value c) eqn:E; [|reflexivity].
  destruct (utf8_encode_scalar [c]) as [bs Hbs];
    [cbn [forallb]; rewrite E; reflexivity|].
  cbn [utf8_encode] in Hbs; rewrite H in Hbs; discriminate.
Qed.

Lemma utf8_encode_char_ok_scalar (c : Z) (k : bytes) :
  utf8_encode_char c = Ok k -> is_scalar_value c = true.
Proof.
  intros H; apply utf8_encode_char_cases in H.
  unfold is_scalar_value; rewrite orb_true_iff, !andb_true_iff.
  rewrite !Z.leb_le, !Z.ltb_lt; lia.
Qed.

Lemma utf8_encode_ok_scalar (s : str) :
  forall bs, utf8_encode s = Ok bs -> forallb is_scalar_value s = true.
Proof.
  induction s as [|c s IH]; intros bs; [reflexivity|].
  cbn [utf8_encode forallb].
  destruct (utf8_encode_char c) as [k|] eqn:Ec; cbn [bind]; [|discriminate].
  destruct (utf8_encode s) as [bs'|]; cbn [bind]; [|discriminate].
  intros _; rewrite (utf8_encode_char_ok_scalar c k Ec), (IH bs' eq_refl).
  reflexivity.
Qed.

Lemma utf8_encode_raises_nonscalar (s : str) e :
  utf8_encode s = Raise e ->
  exists c, e = UnicodeEncodeError c /\ In c s /\ is_scalar_value c = false.
Proof.
  revert e; induction s as [|c s IH]; intros e; [discriminate|].
  cbn [utf8_encode].
  destruct (utf8_encode_char c) as [k|e'] eqn:Ec; cbn [bind].
  - destruct (utf8_encode s) as [bs|e'']; cbn [bind]; [discriminate|].
    intros H; injection H as <-.
    destruct (IH e'' eq_refl) as (c' & -> & Hin & Hns).
    exists c'; simpl; auto.
  - intros H; injection H as <-.
    exists c; split; [exact (utf8_encode_char_raises c e' Ec)|].
    split; [simpl; auto | exact (utf8_encode_char_raises_nonscalar c e' Ec)].
Qed.

Lemma utf8_encode_concat_raises (l : list str) e :
  utf8_encode (concat l) = Raise e ->
  exists x e', In x l /\ utf8_encode x = Raise e'.
Proof.
  revert e; induction l as [|x l IH]; intros e; [discriminate|].
  cbn [concat]; rewrite utf8_encode_app.
  destruct (utf8_encode x) as [b|e'] eqn:Ex; cbn [bind].
  - destruct (utf8_encode (concat l)) as [bs|e''] eqn:El; cbn [bind];
      [discriminate|].
    intros _; destruct (IH e'' eq_refl) as (y & e3 & Hin & Hy).
    exists y, e3; simpl; auto.
  - intros _; exists x, e'; simpl; auto.
Qed.

Section Yielded.
Variable finditer : str -> list str.
Hypothesis finditer_splits : splits_text finditer.
Variable tk : Tokenizer.

Lemma words_items_ok (ws : list str) :
  forall bs,
    utf8_encode (concat ws) = Ok bs ->
    exists words,
      map (fun word => bs <- utf8_encode word ;; Ok (map (fun b => [b]) bs)) ws
        = map (@Ok (list bytes)) words /\
      concat (map (@concat Z) words) = bs.
Proof.
  induction ws as [|w ws IH]; intros bs Hbs.
  - simpl in Hbs; injection Hbs as <-; exists []; auto.
  - cbn [concat] in Hbs; apply utf8_encode_app_inv in Hbs.
    destruct Hbs as (bw & bs' & Hw & Hws & ->).
    destruct (IH bs' Hws) as (words & Hmap & Hcat).
    exists (map (fun b => [b]) bw :: words); split.
    + cbn [map]; rewrite Hw, Hmap; reflexivity.
    + cbn [map concat]; rewrite concat_singletons, Hcat; reflexivity.
Qed.

Lemma chunk_items_ok (chunk : str) (bs : bytes) :
  utf8_encode chunk = Ok bs ->
  exists words,
    pretokenize_chunk finditer tk chunk = map (@Ok (list bytes)) words /\
    concat (map (@concat Z) words) = bs.
Proof.
  intros H; unfold pretokenize_chunk.
  destruct (str_in chunk (special_tokens tk)).
  - rewrite H; cbn [bind]; exists [[bs]]; split; [reflexivity|].
    simpl; rewrite !app_nil_r; reflexivity.
  - apply words_items_ok; rewrite finditer_splits; exact H.
Qed.

Lemma chunks_items_ok (chunks : list str) :
  forall bs,
    utf8_encode (concat chunks) = Ok bs ->
    exists words,
      flat_map (pretokenize_chunk finditer tk) chunks
        = map (@Ok (list bytes)) words /\
      concat (map (@concat Z) words) = bs.
Proof.
  induction chunks as [|chunk chunks IH]; intros bs Hbs.
  - simpl in Hbs; injection Hbs as <-; exists []; auto.
  - cbn [concat] in Hbs; apply utf8_encode_app_inv in Hbs.
    destruct Hbs as (b1 & b2 & H1 & H2 & ->).
    destruct (chunk_items_ok chunk b1 H1) as (w1 & Hm1 & Hc1).
    destruct (IH b2 H2) as (w2 & Hm2 & Hc2).
    exists (w1 ++ w2); split.
    + cbn [flat_map]; rewrite Hm1, Hm2, map_app; reflexivity.
    + rewrite map_app, concat_app; f_equal; [exact Hc1 | exact Hc2].
Qed.

Lemma pretokenize_items_ok (text : str) (bs : bytes) :
  utf8_encode text = Ok bs ->
  exists words,
    pretokenize finditer tk text = map (@Ok (list bytes)) words /\
    concat (map (@concat Z) words) = bs.
Proof.
  intros H; apply chunks_items_ok; rewrite text_chunks_concat; exact H.
Qed.

Lemma chunk_item_raises (chunk : str) e :
  In (Raise e) (pretokenize_chunk finditer tk chunk) ->
  exists c, e = UnicodeEncodeError c /\ In c chunk /\ is_scalar_value c = false.
Proof.
  unfold pretokenize_chunk.
  destruct (str_in chunk (special_tokens tk)).
  - intros [H|[]].
    destruct (utf8_encode chunk) as [b|e'] eqn:E; cbn [bind] in H;
      [discriminate|].
    injection H as <-; exact (utf8_encode_raises_nonscalar chunk e' E).
  - intros H; apply in_map_iff in H; destruct H as (word & H & Hin).
    destruct (utf8_encode word) as [b|e'] eqn:E; cbn [bind] in H;
      [discriminate|].
    injection H as <-.
    destruct (utf8_encode_raises_nonscalar word e' E) as (c & -> & Hc & Hns).
    exists c; split; [reflexivity|]; split; [|exact Hns].
    rewrite <- (finditer_splits chunk); apply in_concat; eauto.
Qed.

Lemma pretokenize_item_raises_in_text (text : str) e :
  In (Raise e) (pretokenize finditer tk text) ->
  exists c, e = UnicodeEncodeError c /\ In c text /\ is_scalar_value c = false.
Proof.
  unfold pretokenize; intros H; apply in_flat_map in H.
  destruct H as (chunk & Hchunk & H).
  destruct (chunk_item_raises chunk e H) as (c & -> & Hc & Hns).
  exists c; split; [reflexivity|]; split; [|exact Hns].
  rewrite <- (text_chunks_concat tk text); apply in_concat; eauto.
Qed.

Lemma chunk_raises_item (chunk : str) e :
  utf8_encode chunk = Raise e ->
  exists e', In (Raise e') (pretokenize_chunk finditer tk chunk).
Proof.
  intros H; unfold pretokenize_chunk.
  destruct (str_in chunk (special_tokens tk)).
  - rewrite H; cbn [bind]; exists e; simpl; auto.
  - rewrite <- (finditer_splits chunk) in H.
    apply utf8_encode_concat_raises in H; destruct H as (w & e' & Hin & Hw).
    exists e'; apply in_map_iff; exists w; rewrite Hw; auto.
Qed.

Lemma text_raises_item (text : str) e :
  utf8_encode text = Raise e ->
  exists e', In (Raise e') (pretokenize finditer tk text).
Proof.
  intros H; rewrite <- (text_chunks_concat tk text) in H.
  apply utf8_encode_concat_raises in H; destruct H as (chunk & e' & Hin & Hc).
  destruct (chunk_raises_item chunk e' Hc) as (e'' & He).
  exists e''; unfold pretokenize; apply in_flat_map; eauto.
Qed.

End Yielded.

(** X13.  [pretokenize] loses nothing of a text that can be encoded in
    UTF-8: for a pretokenization pattern whose matches cover the chunk,
    every item is yielded without an exception, and the units of all the
    items, put together in order, are the UTF-8 bytes of the text, the
    special tokens included. *)
Theorem pretokenize_yields_the_bytes_of_the_text :
  forall finditer (tk : Tokenizer) text bs,
    splits_text finditer ->
    utf8_encode text = Ok bs ->
    exists words,
      pretokenize finditer tk text = map (@Ok (list bytes)) words /\
      concat (map (@concat Z) words) = bs.
Proof.
  intros finditer tk text bs Hsplit Hbs.
  exact (pretokenize_items_ok finditer Hsplit tk text bs Hbs).
Qed.

Lemma pretokenize_yields_the_bytes_of_the_text_witness :
  exists words,
    pretokenize finditer_whole
      (mkTokenizer [] [] [endoftext] (Some [endoftext]) [] 0%Z [])
      ([97; 8364] ++ endoftext ++ [98])%Z
      = map (@Ok (list bytes)) words /\
    concat (map (@concat Z) words)
      = ([97; 226; 130; 172] ++ endoftext ++ [98])%Z.
Proof.
  apply (pretokenize_yields_the_bytes_of_the_text finditer_whole
           (mkTokenizer [] [] [endoftext] (Some [endoftext]) [] 0%Z [])
           ([97; 8364] ++ endoftext ++ [98])%Z
           ([97; 226; 130; 172] ++ endoftext ++ [98])%Z
           finditer_whole_splits eq_refl).
Defined.

(** * What [encode] returns can be decoded *)

Lemma lookup_ids_sound (vocab : list (Z * bytes)) (units : list bytes) :
  forall ids,
    lookup_ids (build_vocab_to_id vocab) units = Ok ids ->
    Forall2 (fun u id => In (id, u) vocab) units ids.
Proof.
  induction units as [|u units IH]; intros ids; cbn [lookup_ids].
  - intros H; injection H as <-; constructor.
  - destruct (dict_get bytes_eqb (build_vocab_to_id vocab) u) as [id|] eqn:E;
      [|discriminate].
    destruct (lookup_ids (build_vocab_to_id vocab) units) as [ids'|];
      cbn [bind]; [|discriminate].
    intros H; injection H as <-.
    constructor; [apply vocab_to_id_some; exact E | apply IH; reflexivity].
Qed.

Lemma sum_merge_word_raises (tk : Tokenizer)
    (items : list (result (list bytes))) :
  forall start e,
    sum_merge_word tk start items = Raise e ->
    In (Raise e) items \/
    exists word, In (Ok word) items /\ _merge_word tk word = Raise e.
Proof.
  induction items as [|item items IH]; intros start e; [discriminate|].
  cbn [sum_merge_word]; destruct item as [word|e']; cbn [bind].
  - destruct (_merge_word tk word) as [ids|e''] eqn:Ew; cbn [bind].
    + intros H; destruct (IH _ _ H) as [Hin|(w & Hin & Hw)];
        [left; simpl; auto | right; exists w; simpl; auto].
    + intros H; injection H as <-; right; exists word; simpl; auto.
  - intros H; injection H as <-; left; simpl; auto.
Qed.

Section Returned.
Variable finditer : str -> list str.
Hypothesis finditer_splits : splits_text finditer.
Variable tk : Tokenizer.
Hypothesis keys_unique : NoDup (map fst (vocab tk)).
Hypothesis reverse_lookup : vocab_to_id tk = build_vocab_to_id (vocab tk).

Lemma merge_word_join (word : list bytes) (ids : list Z) :
  _merge_word tk word = Ok ids ->
  join_vocab (vocab tk) ids = Ok (concat word).
Proof.
  unfold _merge_word.
  destruct (final_units_total tk word) as (units & Hunits & _ & _ & Hcat).
  rewrite Hunits, reverse_lookup; intros H.
  rewrite <- Hcat; apply join_vocab_units; [exact keys_unique|].
  apply lookup_ids_sound; exact H.
Qed.

Lemma sum_merge_word_join (items : list (result (list bytes))) :
  forall ids,
    sum_merge_word tk [] items = Ok ids ->
    exists words,
      items = map (@Ok (list bytes)) words /\
      join_vocab (vocab tk) ids = Ok (concat (map (@concat Z) words)).
Proof.
  induction items as [|item items IH]; intros ids.
  - simpl; intros H; injection H as <-; exists []; auto.
  - cbn [sum_merge_word]; destruct item as [word|e]; cbn [bind];
      [|discriminate].
    destruct (_merge_word tk word) as [idw|e] eqn:Ew; cbn [bind];
      [|discriminate].
    rewrite sum_merge_word_start.
    destruct (sum_merge_word tk [] items) as [ids'|] eqn:Es; cbn [bind];
      [|discriminate].
    intros H; injection H as <-.
    destruct (IH ids' eq_refl) as (words & -> & Hj).
    exists (word :: words); split; [reflexivity|].
    cbn [app map concat].
    rewrite join_vocab_app, (merge_word_join word idw Ew), Hj; reflexivity.
Qed.

Lemma encode_join (t : str) (ids : list Z) :
  encode finditer tk t = Ok ids ->
  exists bs, utf8_encode t = Ok bs /\ join_vocab (vocab tk) ids = Ok bs.
Proof.
  unfold encode; intros H.
  destruct (sum_merge_word_join _ _ H) as (words & Hitems & Hj).
  destruct (utf8_encode t) as [bs|e] eqn:Et.
  - destruct (pretokenize_items_ok finditer finditer_splits tk t bs Et)
      as (words' & Hitems' & Hcat).
    rewrite Hitems in Hitems'; apply map_Ok_inj in Hitems'; subst words'.
    exists bs; rewrite <- Hcat; auto.
  - destruct (text_raises_item finditer finditer_splits tk t e Et) as (e' & He).
    rewrite Hitems in He; exfalso; exact (not_Raise_in_map_Ok _ _ _ He).
Qed.

Lemma encode_iterable_join (texts : list str) :
  forall ids,
    encode_iterable finditer tk texts = Ok ids ->
    exists bs,
      utf8_encode (concat texts) = Ok bs /\
      join_vocab (vocab tk) ids = Ok bs.
Proof.
  unfold encode_iterable.
  assert (Hstart : forall l start,
            sum_encode finditer tk start l =
            (ids <- sum_encode finditer tk [] l ;; Ok (start ++ ids))).
  { induction l as [|t l IH]; intros start.
    - simpl; rewrite app_nil_r; reflexivity.
    - cbn [sum_encode].
      destruct (encode finditer tk t) as [ids1|e]; cbn [bind]; [|reflexivity].
      rewrite (IH (start ++ ids1)), (IH ([] ++ ids1)).
      destruct (sum_encode finditer tk [] l); cbn [bind]; [|reflexivity].
      rewrite app_assoc; reflexivity. }
  induction texts as [|t texts IH]; intros ids.
  - simpl; intros H; injection H as <-; exists []; auto.
  - cbn [sum_encode].
    destruct (encode finditer tk t) as [ids1|e] eqn:Et; cbn [bind];
      [|discriminate].
    rewrite Hstart.
    destruct (sum_encode finditer tk [] texts) as [ids2|]; cbn [bind];
      [|discriminate].
    intros H; injection H as <-.
    destruct (encode_join t ids1 Et) as (b1 & Hb1 & Hj1).
    destruct (IH ids2 eq_refl) as (b2 & Hb2 & Hj2).
    exists (b1 ++ b2); cbn [concat app].
    rewrite utf8_encode_app, Hb1, Hb2, join_vocab_app, Hj1, Hj2; auto.
Qed.

End Returned.

(** X14.  Whenever [encode] returns, [decode] gives the text back, and the
    text holds only Unicode scalar values.  This needs nothing of the
    vocabulary beyond being a dict (no id given twice): it need not hold
    every byte or every merged token, and its ids may have gaps; the
    pretokenization pattern is any one whose matches cover the chunk. *)
Theorem decode_inverts_encode_whenever_it_returns :
  forall finditer vocab0 merges0 specials tk t ids,
    splits_text finditer ->
    distinct (map fst vocab0) = true ->
    __init__ vocab0 merges0 specials = Ok tk ->
    encode finditer tk t = Ok ids ->
    decode tk ids = Ok t /\ forallb is_scalar_value t = true.
Proof.
  intros finditer vocab0 merges0 specials tk t ids Hsplit Hd Hinit Henc.
  destruct (encode_join finditer Hsplit tk
              (init_keys_nodup _ _ _ _ Hd Hinit)
              (init_vocab_to_id _ _ _ _ Hinit) t ids Henc) as (bs & Hbs & Hj).
  split; [|exact (utf8_encode_ok_scalar t bs Hbs)].
  unfold decode; rewrite Hj; cbn [bind].
  rewrite (utf8_decode_encode t bs Hbs); reflexivity.
Qed.

Lemma decode_inverts_encode_whenever_it_returns_witness :
  exists tk,
    __init__ [(7, [97; 98; 99]); (3, [97; 98])]%Z merges_abc [] = Ok tk /\
    decode tk [7; 3]%Z = Ok [97; 98; 99; 97; 98]%Z.
Proof.
  eexists; split; [reflexivity|].
  apply (decode_inverts_encode_whenever_it_returns finditer_whole
           [(7, [97; 98; 99]); (3, [97; 98])]%Z merges_abc [] _
           [97; 98; 99; 97; 98]%Z [7; 3]%Z finditer_whole_splits
           eq_refl eq_refl eq_refl).
Defined.

(** X15.  [encode] raises in two cases only.  Either the text holds a code
    point that is not a Unicode scalar value (a surrogate), and the
    exception is the encoding error for such a code point of the text; or a
    unit that the merge loop ended with is not a byte sequence of the
    vocabulary, and the exception is the lookup error of [vocab_to_id] for
    that unit. *)
Theorem encode_raises_for_bad_text_or_unknown_unit :
  forall finditer vocab0 merges0 specials tk t e,
    splits_text finditer ->
    __init__ vocab0 merges0 specials = Ok tk ->
    encode finditer tk t = Raise e ->
    (exists c,
       e = UnicodeEncodeError c /\ In c t /\ is_scalar_value c = false) \/
    (exists u,
       e = KeyError_vocab_to_id u /\ ~ In u (map snd (vocab tk))).
Proof.
  intros finditer vocab0 merges0 specials tk t e Hsplit Hinit Henc.
  unfold encode in Henc; apply sum_merge_word_raises in Henc.
  destruct Henc as [Hitem|(word & _ & Hword)].
  - left; exact (pretokenize_item_raises_in_text finditer Hsplit tk t e Hitem).
  - right; unfold _merge_word in Hword.
    destruct (final_units_total tk word) as (units & Hunits & _).
    rewrite Hunits in Hword; apply lookup_ids_raises in Hword.
    destruct Hword as (u & -> & _ & Hnone).
    exists u; split; [reflexivity|].
    rewrite (init_vocab_to_id _ _ _ _ Hinit) in Hnone.
    apply vocab_to_id_none; exact Hnone.
Qed.

Lemma encode_raises_for_bad_text_or_unknown_unit_witness :
  exists tk,
    __init__ vocab_abc merges_abc [] = Ok tk /\
    ((exists c,
        KeyError_vocab_to_id [100%Z] = UnicodeEncodeError c /\
        In c [97; 98; 100]%Z /\ is_scalar_value c = false) \/
     (exists u,
        KeyError_vocab_to_id [100%Z] = KeyError_vocab_to_id u /\
        ~ In u (map snd (vocab tk)))).
Proof.
  eexists; split; [reflexivity|].
  apply (encode_raises_for_bad_text_or_unknown_unit finditer_whole vocab_abc
           merges_abc [] _ [97; 98; 100]%Z (KeyError_vocab_to_id [100%Z])
           finditer_whole_splits eq_refl eq_refl).
Defined.

(** * What [decode] returns *)

Local Open Scope Z_scope.

(** The decoder emits one scalar value and goes on with a suffix of the
    bytes that follow the first one. *)
Lemma utf8_decode_step_tail (b0 : Z) (rest : bytes) :
  0 <= b0 ->
  exists c skipped rest',
    utf8_decode_replace (b0 :: rest) = c :: utf8_decode_replace rest' /\
    rest = skipped ++ rest' /\
    is_scalar_value c = true.
Proof.
  intros Hb0; cbn [utf8_decode_replace].
  destruct (Z.ltb_spec b0 0x80).
  { exists b0, [], rest; repeat split.
    apply (utf8_encode_char_ok_scalar b0 [b0]), utf8_encode_char_1; lia. }
  destruct (Z.ltb_spec b0 0xC2);
    [exists REPLACEMENT_CHARACTER, [], rest; repeat split|].
  destruct (Z.ltb_spec b0 0xE0).
  { destruct rest as [|b1 r1];
      [exists REPLACEMENT_CHARACTER, [], []; repeat split|].
    destruct (is_continuation b1) eqn:E1;
      [|exists REPLACEMENT_CHARACTER, [], (b1 :: r1); repeat split].
    apply is_continuation_true in E1.
    eexists; exists [b1], r1; repeat split.
    apply (utf8_encode_char_ok_scalar _ [b0; b1]), utf8_encode_char_2; lia. }
  destruct (Z.ltb_spec b0 0xF0).
  { destruct rest as [|b1 r1];
      [exists REPLACEMENT_CHARACTER, [], []; repeat split|].
    destruct (second_byte_ok b0 b1) eqn:E1;
      [|exists REPLACEMENT_CHARACTER, [], (b1 :: r1); repeat split].
    apply second_byte_ok_true in E1.
    destruct r1 as [|b2 r2];
      [exists REPLACEMENT_CHARACTER, [b1], []; repeat split|].
    destruct (is_continuation b2) eqn:E2;
      [|exists REPLACEMENT_CHARACTER, [b1], (b2 :: r2); repeat split].
    apply is_continuation_true in E2.
    eexists; exists [b1; b2], r2; repeat split.
    apply (utf8_encode_char_ok_scalar _ [b0; b1; b2]), utf8_encode_char_3;
      lia. }
  destruct (Z.ltb_spec b0 0xF5);
    [|exists REPLACEMENT_CHARACTER, [], rest; repeat split].
  destruct rest as [|b1 r1];
    [exists REPLACEMENT_CHARACTER, [], []; repeat split|].
  destruct (second_byte_ok b0 b1) eqn:E1;
    [|exists REPLACEMENT_CHARACTER, [], (b1 :: r1); repeat split].
  apply second_byte_ok_true in E1.
  destruct r1 as [|b2 r2];
    [exists REPLACEMENT_CHARACTER, [b1], []; repeat split|].
  destruct (is_continuation b2) eqn:E2;
    [|exists REPLACEMENT_CHARACTER, [b1], (b2 :: r2); repeat split].
  apply is_continuation_true in E2.
  destruct r2 as [|b3 r3];
    [exists REPLACEMENT_CHARACTER, [b1; b2], []; repeat split|].
  destruct (is_continuation b3) eqn:E3;
    [|exists REPLACEMENT_CHARACTER, [b1; b2], (b3 :: r3); repeat split].
  apply is_continuation_true in E3.
  eexists; exists [b1; b2; b3], r3; repeat split.
  apply (utf8_encode_char_ok_scalar _ [b0; b1; b2; b3]), utf8_encode_char_4;
    lia.
Qed.

Local Close Scope Z_scope.

Lemma utf8_decode_scalar_bounded (n : nat) :
  forall bs,
    length bs <= n ->
    forallb is_byte bs = true ->
    forallb is_scalar_value (utf8_decode_replace bs) = true /\
    length (utf8_decode_replace bs) <= length bs.
Proof.
  induction n as [|n IH]; intros bs Hlen Hbytes.
  - destruct bs; [split; [reflexivity | simpl; lia] | simpl in Hlen; lia].
  - destruct bs as [|b0 rest]; [split; [reflexivity | simpl; lia]|].
    cbn [forallb] in Hbytes; apply andb_true_iff in Hbytes.
    destruct Hbytes as [Hb0 Hrest].
    assert (H0 : (0 <= b0)%Z).
    { unfold is_byte in Hb0; apply andb_true_iff in Hb0.
      rewrite Z.leb_le in Hb0; tauto. }
    destruct (utf8_decode_step_tail b0 rest H0)
      as (c & skipped & rest' & Hdec & Hsplit & Hc).
    rewrite Hdec; subst rest.
    rewrite forallb_app in Hrest; apply andb_true_iff in Hrest.
    simpl in Hlen; rewrite length_app in Hlen.
    destruct (IH rest') as [Hs Hl]; [lia | tauto |].
    cbn [forallb length]; rewrite Hc, Hs, length_app.
    split; [reflexivity | lia].
Qed.

Lemma utf8_decode_encode_app (s : str) :
  forall b rest,
    utf8_encode s = Ok b ->
    utf8_decode_replace (b ++ rest) = s ++ utf8_decode_replace rest.
Proof.
  induction s as [|c s IH]; intros b rest; cbn [utf8_encode].
  - intros H; injection H as <-; reflexivity.
  - destruct (utf8_encode_char c) as [k|] eqn:Ec; cbn [bind]; [|discriminate].
    destruct (utf8_encode s) as [bs|]; cbn [bind]; [|discriminate].
    intros H; injection H as <-.
    rewrite <- app_assoc, (utf8_decode_encode_char c k _ Ec).
    rewrite (IH bs rest eq_refl); reflexivity.
Qed.

Lemma join_vocab_bytes (vocab : list (Z * bytes)) (ids : list Z) :
  values_are_bytes vocab = true ->
  forall bs, join_vocab vocab ids = Ok bs -> forallb is_byte bs = true.
Proof.
  intros Hv; induction ids as [|id ids IH]; intros bs; cbn [join_vocab].
  - intros H; injection H as <-; reflexivity.
  - destruct (dict_get Z.eqb vocab id) as [b|] eqn:E; [|discriminate].
    destruct (join_vocab vocab ids) as [bs'|]; cbn [bind]; [|discriminate].
    intros H; injection H as <-.
    apply (dict_get_In _ _ _ Z_eqb_true) in E.
    unfold values_are_bytes in Hv; rewrite forallb_forall in Hv.
    pose proof (Hv _ E) as Hb; simpl in Hb.
    rewrite forallb_app, Hb, (IH bs' eq_refl); reflexivity.
Qed.

(** X16.  Whatever the ids, the text that [decode] returns holds only
    Unicode scalar values, and at most one code point for each byte of the
    vocabulary entries it joins: bytes that are not well-formed UTF-8 become
    U+FFFD, never a surrogate or a code point above U+10FFFF (a text
    without U+FFFD is returned only for bytes that are its UTF-8
    encoding).  The entries of the vocabulary are byte sequences. *)
Theorem decode_returns_scalar_values :
  forall (tk : Tokenizer) ids s,
    values_are_bytes (vocab tk) = true ->
    decode tk ids = Ok s ->
    forallb is_scalar_value s = true /\
    exists bs,
      join_vocab (vocab tk) ids = Ok bs /\ length s <= length bs /\
      (~ In REPLACEMENT_CHARACTER s -> utf8_encode s = Ok bs).
Proof.
  intros tk ids s Hv; unfold decode.
  destruct (join_vocab (vocab tk) ids) as [bs|] eqn:Ej; cbn [bind];
    [|discriminate].
  intros H; injection H as <-.
  pose proof (join_vocab_bytes _ _ Hv bs Ej) as Hb.
  destruct (utf8_decode_scalar_bounded (length bs) bs (le_n _) Hb) as [Hs Hl].
  split; [exact Hs | exists bs].
  split; [reflexivity|]; split; [exact Hl|].
  exact (utf8_decode_without_replacement bs Hb).
Qed.

Lemma decode_returns_scalar_values_witness :
  forallb is_scalar_value
    [REPLACEMENT_CHARACTER; REPLACEMENT_CHARACTER; REPLACEMENT_CHARACTER;
     65%Z] = true.
Proof.
  apply (decode_returns_scalar_values
           (mkTokenizer [(0, [237]); (1, [160; 128]); (2, [65])]%Z [] [] None
              [] 3%Z [])
           [0; 1; 2]%Z
           [REPLACEMENT_CHARACTER; REPLACEMENT_CHARACTER;
            REPLACEMENT_CHARACTER; 65%Z] eq_refl eq_refl).
Defined.

(** X17.  [decode] of a concatenation: when the first ids decode to a text
    without U+FFFD, the ids that follow are decoded on their own, and
    [decode(ids1 + ids2) = decode(ids1) + decode(ids2)]; when [decode(ids2)]
    raises, so does the whole.  The entries of the vocabulary are byte
    sequences. *)
Theorem decode_distributes_after_clean_prefix :
  forall (tk : Tokenizer) ids1 ids2 s1,
    values_are_bytes (vocab tk) = true ->
    decode tk ids1 = Ok s1 ->
    ~ In REPLACEMENT_CHARACTER s1 ->
    decode tk (ids1 ++ ids2) = (s2 <- decode tk ids2 ;; Ok (s1 ++ s2)).
Proof.
  intros tk ids1 ids2 s1 Hv; unfold decode.
  destruct (join_vocab (vocab tk) ids1) as [b1|] eqn:E1; cbn [bind];
    [|discriminate].
  intros H Hclean; injection H as <-.
  pose proof (join_vocab_bytes _ _ Hv b1 E1) as Hb1.
  pose proof (utf8_decode_without_replacement b1 Hb1 Hclean) as Henc.
  rewrite join_vocab_app, E1; cbn [bind].
  destruct (join_vocab (vocab tk) ids2) as [b2|]; cbn [bind]; [|reflexivity].
  rewrite (utf8_decode_encode_app _ b1 b2 Henc); reflexivity.
Qed.

Lemma decode_distributes_after_clean_prefix_witness :
  decode
    (mkTokenizer [(0, [226; 130]); (1, [172]); (2, [65])]%Z [] [] None [] 3%Z
       [])
    ([0; 1] ++ [2; 0])%Z
  = Ok ([8364] ++ [65; REPLACEMENT_CHARACTER])%Z.
Proof.
  apply (decode_distributes_after_clean_prefix
           (mkTokenizer [(0, [226; 130]); (1, [172]); (2, [65])]%Z [] [] None
              [] 3%Z [])
           [0; 1]%Z [2; 0]%Z [8364%Z] eq_refl eq_refl).
  intros [H|[]]; discriminate H.
Defined.

(** * [encode_iterable] *)

Lemma sum_encode_start finditer (tk : Tokenizer) (texts : list str) :
  forall start,
    sum_encode finditer tk start texts =
    (ids <- sum_encode finditer tk [] texts ;; Ok (start ++ ids)).
Proof.
  induction texts as [|t texts IH]; intros start.
  - simpl; rewrite app_nil_r; reflexivity.
  - cbn [sum_encode].
    destruct (encode finditer tk t) as [ids1|e]; cbn [bind]; [|reflexivity].
    rewrite (IH (start ++ ids1)), (IH ([] ++ ids1)).
    destruct (sum_encode finditer tk [] texts); cbn [bind]; [|reflexivity].
    rewrite app_assoc; reflexivity.
Qed.

(** X18.  [encode_iterable] encodes the texts one by one and joins the ids
    in order: the ids of a text followed by more texts are the ids of the
    text, then those of the rest; the ids of two runs of texts are those of
    the first run, then those of the second; the first exception raised
    ends the call.  No merge is done across the boundary of two texts. *)
Theorem encode_iterable_joins_the_encodings :
  forall finditer (tk : Tokenizer) text texts texts',
    encode_iterable finditer tk (text :: texts) =
      (ids1 <- encode finditer tk text ;;
       ids2 <- encode_iterable finditer tk texts ;; Ok (ids1 ++ ids2)) /\
    encode_iterable finditer tk (texts ++ texts') =
      (ids1 <- encode_iterable finditer tk texts ;;
       ids2 <- encode_iterable finditer tk texts' ;; Ok (ids1 ++ ids2)).
Proof.
  intros finditer tk text texts texts'; unfold encode_iterable.
  assert (Hcons : forall t l,
            sum_encode finditer tk [] (t :: l) =
            (ids1 <- encode finditer tk t ;;
             ids2 <- sum_encode finditer tk [] l ;; Ok (ids1 ++ ids2))).
  { intros t l; cbn [sum_encode].
    destruct (encode finditer tk t) as [ids1|e]; cbn [bind]; [|reflexivity].
    rewrite sum_encode_start; reflexivity. }
  split; [apply Hcons|].
  induction texts as [|t texts IH].
  - cbn [app sum_encode bind].
    destruct (sum_encode finditer tk [] texts'); reflexivity.
  - rewrite <- app_comm_cons, !Hcons, IH.
    destruct (encode finditer tk t) as [ids1|e]; cbn [bind]; [|reflexivity].
    destruct (sum_encode finditer tk [] texts) as [ids2|e]; cbn [bind];
      [|reflexivity].
    destruct (sum_encode finditer tk [] texts') as [ids3|e]; cbn [bind];
      [|reflexivity].
    rewrite app_assoc; reflexivity.
Qed.

(** X19.  Whenever [encode_iterable] returns, [decode] gives back the texts
    joined into one string; as for [encode], the vocabulary only has to be
    a dict and the pretokenization pattern has to cover the chunk. *)
Theorem decode_inverts_encode_iterable :
  forall finditer vocab0 merges0 specials tk texts ids,
    splits_text finditer ->
    distinct (map fst vocab0) = true ->
    __init__ vocab0 merges0 specials = Ok tk ->
    encode_iterable finditer tk texts = Ok ids ->
    decode tk ids = Ok (concat texts).
Proof.
  intros finditer vocab0 merges0 specials tk texts ids Hsplit Hd Hinit Henc.
  destruct (encode_iterable_join finditer Hsplit tk
              (init_keys_nodup _ _ _ _ Hd Hinit)
              (init_vocab_to_id _ _ _ _ Hinit) texts ids Henc)
    as (bs & Hbs & Hj).
  unfold decode; rewrite Hj; cbn [bind].
  rewrite (utf8_decode_encode _ bs Hbs); reflexivity.
Qed.

Lemma decode_inverts_encode_iterable_witness :
  exists tk,
    __init__ [(7, [97; 98; 99]); (3, [97; 98])]%Z merges_abc [] = Ok tk /\
    decode tk [3; 7; 3]%Z = Ok (concat [[97; 98]; [97; 98; 99; 97; 98]]%Z).
Proof.
  eexists; split; [reflexivity|].
  apply (decode_inverts_encode_iterable finditer_whole
           [(7, [97; 98; 99]); (3, [97; 98])]%Z merges_abc [] _
           [[97; 98]; [97; 98; 99; 97; 98]]%Z [3; 7; 3]%Z
           finditer_whole_splits eq_refl eq_refl eq_refl).
Defined.

(** * What [from_files] raises *)

Lemma load_vocab_raises (items : list (str * Z)) :
  forall vocab e,
    load_vocab items vocab = LoadRaise e ->
    exists item index c,
      In (item, index) items /\ In c item /\
      e = KeyError_gpt2_byte_decoder [c] /\ gpt2_byte c = None.
Proof.
  induction items as [|[item index] items IH]; intros vocab e; [discriminate|].
  cbn [load_vocab].
  destruct (gpt2_decode_token item) as [b|e'] eqn:E; cbn [load_bind].
  - intros H; destruct (IH _ _ H) as (item' & index' & c & Hin & Hc & He).
    exists item', index', c; simpl; auto.
  - intros H; injection H as <-.
    destruct (gpt2_decode_token_raises item e' E) as (c & -> & Hc & Hnone).
    exists item, index, c; simpl; auto.
Qed.

Lemma load_merges_raises (rules : list (str * str)) :
  forall e,
    load_merges rules = LoadRaise e ->
    exists t1 t2 c,
      In (t1, t2) rules /\ (In c t1 \/ In c t2) /\
      e = KeyError_gpt2_byte_decoder [c] /\ gpt2_byte c = None.
Proof.
  induction rules as [|[t1 t2] rules IH]; intros e; [discriminate|].
  cbn [load_merges].
  destruct (gpt2_decode_token t1) as [b1|e1] eqn:E1; cbn [load_bind].
  - destruct (gpt2_decode_token t2) as [b2|e2] eqn:E2; cbn [load_bind].
    + destruct (load_merges rules) as [ms|e3]; cbn [load_bind]; [discriminate|].
      intros H; injection H as <-.
      destruct (IH e3 eq_refl) as (u1 & u2 & c & Hin & Hc & He).
      exists u1, u2, c; simpl; auto.
    + intros H; injection H as <-.
      destruct (gpt2_decode_token_raises t2 e2 E2) as (c & -> & Hc & Hnone).
      exists t1, t2, c; simpl; auto.
  - intros H; injection H as <-.
    destruct (gpt2_decode_token_raises t1 e1 E1) as (c & -> & Hc & Hnone).
    exists t1, t2, c; simpl; auto.
Qed.

Lemma read_merges_in (lines : list str) (t1 t2 : str) :
  In (t1, t2) (read_merges lines) ->
  exists line, In line lines /\ parse_merges_line line = Some (t1, t2).
Proof.
  unfold read_merges; intros H; apply in_flat_map in H.
  destruct H as (line & Hline & H).
  exists line; split; [exact Hline|].
  destruct (parse_merges_line line) as [rule|]; [|destruct H].
  destruct H as [->|[]]; reflexivity.
Qed.

Lemma merges_token_in_line (line t1 t2 : str) (c : Z) :
  parse_merges_line line = Some (t1, t2) -> In c t1 \/ In c t2 -> In c line.
Proof.
  intros H Hc; apply parse_merges_line_iff in H; destruct H as (Hr & _).
  destruct (rstrip_decompose line) as (ws & Hline & _).
  rewrite Hline, Hr, !in_app_iff; simpl; tauto.
Qed.

Lemma add_special_tokens_raises (specials : list str) :
  forall vocab e,
    add_special_tokens vocab specials = Raise e ->
    exists s c,
      In s specials /\ In c s /\ is_scalar_value c = false /\
      e = UnicodeEncodeError c.
Proof.
  induction specials as [|s specials IH]; intros vocab e; [discriminate|].
  cbn [add_special_tokens].
  destruct (utf8_encode s) as [b|e'] eqn:E; cbn [bind].
  - intros H; destruct (IH _ _ H) as (s' & c & Hin & Hc & He).
    exists s', c; simpl; auto.
  - intros H; injection H as <-.
    destruct (utf8_encode_raises_nonscalar s e' E) as (c & -> & Hc & Hns).
    exists s, c; simpl; auto.
Qed.

Lemma add_special_tokens_returns (specials : list str) :
  (forall s, In s specials -> exists b, utf8_encode s = Ok b) ->
  forall vocab, exists vocab', add_special_tokens vocab specials = Ok vocab'.
Proof.
  induction specials as [|s specials IH]; intros Hall vocab; [simpl; eauto|].
  destruct (Hall s (or_introl eq_refl)) as (b & Hb).
  cbn [add_special_tokens]; rewrite Hb; cbn [bind].
  apply IH; intros s' Hs'; apply Hall; simpl; auto.
Qed.

Lemma init_after_special_tokens (specials : list str) :
  forall vocab vocab' merges0,
    add_special_tokens vocab specials = Ok vocab' ->
    exists tk, __init__ vocab' merges0 specials = Ok tk.
Proof.
  intros vocab vocab' merges0 Hadd.
  destruct (add_special_tokens_returns specials
              (add_special_tokens_encodes specials vocab vocab' Hadd) vocab')
    as (vocab'' & H2).
  unfold __init__; destruct specials; [eauto|].
  rewrite H2; cbn [bind]; eauto.
Qed.

(** X20.  [from_files] returns a tokenizer or raises one of two exceptions.
    It raises the lookup error of [gpt2_byte_decoder] for a character that
    is not one of the 256 characters of [gpt2_bytes_to_unicode]; the
    character then occurs in a token of the vocabulary file or in a line of
    the merges file.  It raises the UTF-8 encoding error for a code point
    of a special token that is not a scalar value.  Nothing else is
    raised once the two files are read. *)
Theorem from_files_returns_or_raises :
  forall gpt2_vocab merges_lines special_tokens,
    (exists tk,
       from_files gpt2_vocab merges_lines special_tokens = Loaded tk) \/
    (exists c,
       from_files gpt2_vocab merges_lines special_tokens
         = LoadRaise (KeyError_gpt2_byte_decoder [c]) /\
       dict_get str_eqb gpt2_byte_decoder [c] = None /\
       ((exists item index, In (item, index) gpt2_vocab /\ In c item) \/
        (exists line, In line merges_lines /\ In c line))) \/
    (exists specials s c,
       from_files gpt2_vocab merges_lines special_tokens
         = LoadRaise (Raised (UnicodeEncodeError c)) /\
       special_tokens = Some specials /\ In s specials /\ In c s /\
       is_scalar_value c = false).
Proof.
  intros gpt2_vocab merges_lines special_tokens; unfold from_files; cbv zeta.
  destruct (load_vocab gpt2_vocab []) as [vocab0|e] eqn:Ev; cbn [load_bind].
  2:{ right; left.
      destruct (load_vocab_raises _ _ _ Ev)
        as (item & index & c & Hin & Hc & -> & Hnone).
      exists c; split; [reflexivity|].
      rewrite gpt2_byte_decoder_get; split; [exact Hnone|].
      left; exists item, index; auto. }
  destruct (add_special_tokens vocab0
              match special_tokens with Some l => l | None => [] end)
    as [vocab1|e] eqn:Ea; cbn [lift load_bind].
  2:{ right; right.
      destruct (add_special_tokens_raises _ _ _ Ea)
        as (s & c & Hin & Hc & Hns & ->).
      destruct special_tokens as [specials|]; [|destruct Hin].
      exists specials, s, c; auto. }
  destruct (load_merges (read_merges merges_lines)) as [merges0|e] eqn:Em;
    cbn [load_bind].
  2:{ right; left.
      destruct (load_merges_raises _ _ Em)
        as (t1 & t2 & c & Hin & Hc & -> & Hnone).
      exists c; split; [reflexivity|].
      rewrite gpt2_byte_decoder_get; split; [exact Hnone|].
      right; destruct (read_merges_in _ _ _ Hin) as (line & Hline & Hparse).
      exists line; split; [exact Hline|].
      exact (merges_token_in_line line t1 t2 c Hparse Hc). }
  left; destruct (init_after_special_tokens _ _ _ merges0 Ea) as (tk & ->).
  exists tk; reflexivity.
Qed.

(** * The chunks of [re.split] *)

Lemma re_split_go_alternates (literals : list str) (s : str) :
  forall skip chunk, alternates literals (re_split_go literals skip chunk s).
Proof.
  induction s as [|c s IH]; intros skip chunk.
  - destruct skip as [|k]; cbn [re_split_go alternates]; [|exact I].
    destruct (first_match literals []) as [[|l0 lit]|] eqn:E;
      cbn [alternates]; try exact I.
    apply first_match_some in E; tauto.
  - destruct skip as [|k]; cbn [re_split_go]; [|apply IH].
    destruct (first_match literals (c :: s)) as [[|l0 lit]|] eqn:E.
    + apply first_match_some in E; destruct E as [Hin _].
      destruct (first_match (filter nonempty literals) (c :: s))
        as [lit'|] eqn:E'.
      * apply first_match_some in E'; destruct E' as [Hin' _].
        apply filter_In in Hin'; destruct Hin' as [Hin' _].
        cbn [alternates]; split; [exact Hin|]; split; [exact Hin'|apply IH].
      * cbn [alternates]; split; [exact Hin | apply IH].
    + apply first_match_some in E; destruct E as [Hin _].
      cbn [alternates]; split; [exact Hin | apply IH].
    + apply IH.
Qed.

Lemma alternates_incl (l l' : list str) :
  (forall x, In x l -> In x l') ->
  forall chunks, alternates l chunks -> alternates l' chunks.
Proof.
  intros Hsub chunks; induction chunks as [| x | x y chunks IH _]
    using list_pair_ind; cbn [alternates].
  - intros [].
  - intros _; exact I.
  - intros [Hy Hrest]; auto.
Qed.

(** X21.  The chunks that [pretokenize] gets from [re.split] take turns:
    a piece of the text, a special token, a piece of the text, and so on,
    with a piece of the text at both ends (so their number is odd); a
    tokenizer without special tokens has the whole text as its only
    chunk. *)
Theorem text_chunks_alternate_with_special_tokens :
  forall vocab0 merges0 specials tk text,
    __init__ vocab0 merges0 specials = Ok tk ->
    alternates (special_tokens tk) (text_chunks tk text) /\
    (specials = [] -> text_chunks tk text = [text]).
Proof.
  intros vocab0 merges0 specials tk text Hinit.
  destruct (init_fields _ _ _ _ Hinit) as (Hsp & Hpat & _).
  unfold text_chunks; rewrite Hpat, Hsp.
  destruct specials as [|s specials]; [split; [exact I | reflexivity]|].
  split; [|discriminate].
  apply (alternates_incl (sorted_len_reverse (s :: specials))).
  - intros x Hx; apply sorted_len_reverse_in; exact Hx.
  - apply re_split_go_alternates.
Qed.

Lemma text_chunks_alternate_with_special_tokens_witness :
  exists tk,
    __init__ vocab_bytes [] [endoftext] = Ok tk /\
    alternates (special_tokens tk)
      (text_chunks tk ([97] ++ endoftext ++ endoftext ++ [98])%Z).
Proof.
  eexists; split; [reflexivity|].
  apply (text_chunks_alternate_with_special_tokens vocab_bytes [] [endoftext]
           _ ([97] ++ endoftext ++ endoftext ++ [98])%Z eq_refl).
Defined.
